(** * acmebot: file transactions, hooks, ACME authorizations and
      deployed-certificate verification

    A shallow embedding of the parts of [certlib/utils.py],
    [certlib/acme.py] and [acmebot/verify.py] that decide the properties
    proved at the end of the file.

    Conventions.
    - Python exceptions are values of [exn]; a call returns a [res].
    - Side effects stay visible after an exception, so every stateful
      function returns its final state together with the [res].
    - What a function logs or asks of its environment is returned as a
      list of events, oldest first.  Log formats are the source's, with
      single quotes where the source has double quotes. *)

From Stdlib Require Import ZArith Ascii String.
From stdpp Require Import gmap strings list pretty.

Local Open Scope string_scope.
Local Open Scope Z_scope.
Local Open Scope list_scope.

(** ** Exceptions and results *)

Inductive exn :=
| FileNotFoundError
| FileExistsError
| IsADirectoryError
| NotADirectoryError
| OSError (msg : string)
| KeyError (key : string)
| IndexError
| ValueError (msg : string)
| NotImplementedError
| CalledProcessError (returncode : Z) (output : string)
| PyException (msg : string)
| AcmeError (msg : string) (args : list string).

Inductive res (A : Type) :=
| Ok (a : A)
| Raise (e : exn).
Arguments Ok {A} a.
Arguments Raise {A} e.

Definition is_ok {A} (r : res A) : bool :=
  match r with Ok _ => true | Raise _ => false end.

#[global] Instance exn_eq_dec : EqDecision exn.
Proof. solve_decision. Defined.
#[global] Instance res_eq_dec {A} `{EqDecision A} : EqDecision (res A).
Proof. solve_decision. Defined.

(** ** Python strings *)

Module Str.

Definition chars (s : string) : list ascii := list_ascii_of_string s.
Definition of_chars (l : list ascii) : string := string_of_list_ascii l.

(** [bool(s)] for a string. *)
Definition truthy (s : string) : bool :=
  match s with EmptyString => false | String _ _ => true end.

(** [bool(o)] for an optional string ([None] or a string). *)
Definition truthy_opt (o : option string) : bool :=
  match o with Some s => truthy s | None => false end.

Fixpoint startswith (p s : string) : bool :=
  match p, s with
  | EmptyString, _ => true
  | String a p', String b s' => Ascii.eqb a b && startswith p' s'
  | String _ _, EmptyString => false
  end.

Fixpoint drop (n : nat) (s : string) : string :=
  match n, s with
  | O, _ => s
  | S n', String _ s' => drop n' s'
  | S _, EmptyString => EmptyString
  end.

Definition lower_char (c : ascii) : ascii :=
  let n := N_of_ascii c in
  if ((65 <=? n) && (n <=? 90))%N then ascii_of_N (n + 32) else c.

Fixpoint lower (s : string) : string :=
  match s with
  | EmptyString => EmptyString
  | String c s' => String (lower_char c) (lower s')
  end.

Fixpoint drop_while {A} (f : A -> bool) (l : list A) : list A :=
  match l with
  | [] => []
  | x :: r => if f x then drop_while f r else l
  end.

Fixpoint take_while {A} (f : A -> bool) (l : list A) : list A :=
  match l with
  | [] => []
  | x :: r => if f x then x :: take_while f r else []
  end.

Definition endswith_char (c : ascii) (s : string) : bool :=
  match rev (chars s) with
  | x :: _ => Ascii.eqb x c
  | [] => false
  end.

End Str.

(** ** The operating system: [os], [os.path] and [tempfile]

    The file system holds regular files (path to content) and directories.
    Paths are compared as strings, as the kernel would after no
    normalisation; there are no symbolic links.  A path made of slashes
    only is the root and always a directory; the empty directory name
    stands for the current directory, which always exists.  What lies
    beneath a directory [d] are the paths that start with [d] and a
    slash. *)

Module Posix.

Record World := mkWorld {
  files : gmap string string;
  dirs : gset string;
  (** the random names [tempfile] will draw, and how many were drawn *)
  names : nat -> string;
  drawn : nat
}.

Definition with_files (w : World) (f : gmap string string) : World :=
  mkWorld f (dirs w) (names w) (drawn w).
Definition with_dirs (w : World) (d : gset string) : World :=
  mkWorld (files w) d (names w) (drawn w).

(** *** [os.path] *)

Definition is_sep (c : ascii) : bool := Ascii.eqb c "/".

(** [(p[:i], p[i:])] for [i = p.rfind('/') + 1]. *)
Fixpoint rsplit (l : list ascii) : list ascii * list ascii :=
  match l with
  | [] => ([], [])
  | c :: r =>
      if existsb is_sep r then (c :: fst (rsplit r), snd (rsplit r))
      else if is_sep c then ([c], r)
      else ([], c :: r)
  end.

Definition rstrip_sep (l : list ascii) : list ascii :=
  rev (Str.drop_while is_sep (rev l)).

Definition dirname (p : string) : string :=
  let head := fst (rsplit (Str.chars p)) in
  Str.of_chars
    (match head with
     | [] => head
     | _ :: _ => if forallb is_sep head then head else rstrip_sep head
     end).

Definition basename (p : string) : string :=
  Str.of_chars (snd (rsplit (Str.chars p))).

Definition join (a b : string) : string :=
  if Str.startswith "/" b then b
  else if negb (Str.truthy a) || Str.endswith_char "/" a then a +:+ b
  else a +:+ "/" +:+ b.

Definition is_root (p : string) : bool :=
  Str.truthy p && forallb is_sep (Str.chars p).

Definition isfile (w : World) (p : string) : bool :=
  bool_decide (is_Some (files w !! p)).

Definition isdir (w : World) (p : string) : bool :=
  is_root p || bool_decide (p ∈ dirs w).

Definition exists_ (w : World) (p : string) : bool :=
  isfile w p || isdir w p.

(** The directory that would hold [p] is there. *)
Definition parent_ok (w : World) (p : string) : bool :=
  let d := dirname p in negb (Str.truthy d) || isdir w d.

(** Proper ancestors of a directory, nearest first; the walk stops at
    the current directory and at the root. *)
Fixpoint ancestors (fuel : nat) (d : string) : list string :=
  match fuel with
  | O => []
  | S n =>
      let h := dirname d in
      if negb (Str.truthy h) || String.eqb h d then []
      else h :: ancestors n h
  end.

Definition dir_empty (w : World) (d : string) : bool :=
  forallb (fun k => String.eqb k d || negb (String.eqb (dirname k) d))
          ((map_to_list (files w)).*1 ++ elements (dirs w)).

(** *** [os] *)

Definition mkdir (p : string) (w : World) : res unit * World :=
  if negb (Str.truthy p) then (Raise FileNotFoundError, w)
  else if exists_ w p then (Raise FileExistsError, w)
  else if isfile w (dirname p) then (Raise NotADirectoryError, w)
  else if negb (parent_ok w p) then (Raise FileNotFoundError, w)
  else (Ok (), with_dirs w ({[p]} ∪ dirs w)).

(** Create the missing ancestors, outermost first; an ancestor that
    appears meanwhile is not an error. *)
Fixpoint mkdir_missing (ds : list string) (w : World) : World :=
  match ds with
  | [] => w
  | d :: r => if exists_ w d then mkdir_missing r w
              else mkdir_missing r (snd (mkdir d w))
  end.

(** [os.makedirs(name, mode)] with [exist_ok=False]. *)
Definition makedirs (name : string) (mode : Z) (w : World) : res unit * World :=
  mkdir name (mkdir_missing (rev (ancestors (String.length name) name)) w).

(** [os.makedirs(name, mode, exist_ok=True)]. *)
Definition makedirs_exist_ok (name : string) (mode : Z) (w : World)
  : res unit * World :=
  match makedirs name mode w with
  | (Raise FileExistsError, w') =>
      if isdir w' name then (Ok (), w') else (Raise FileExistsError, w')
  | r => r
  end.

Definition rmdir (p : string) (w : World) : res unit * World :=
  if is_root p then (Raise (OSError "busy"), w)
  else if isfile w p then (Raise NotADirectoryError, w)
  else if negb (bool_decide (p ∈ dirs w)) then (Raise FileNotFoundError, w)
  else if negb (dir_empty w p) then (Raise (OSError "not empty"), w)
  else (Ok (), with_dirs w (dirs w ∖ {[p]})).

(** Prune the ancestors, nearest first, until one cannot be removed. *)
Fixpoint rmdir_upwards (ds : list string) (w : World) : World :=
  match ds with
  | [] => w
  | d :: r => match rmdir d w with
              | (Ok _, w') => rmdir_upwards r w'
              | (Raise _, _) => w
              end
  end.

(** [os.removedirs(name)]. *)
Definition removedirs (name : string) (w : World) : res unit * World :=
  match rmdir name w with
  | (Ok _, w') => (Ok (), rmdir_upwards (ancestors (String.length name) name) w')
  | r => r
  end.

(** The path [k] goes through the directory [d]. *)
Definition beneath (d k : string) : bool := Str.startswith (d +:+ "/") k.

(** Where [k] is found once the directory [src] has become [dst]: the
    directory itself and what lies beneath it follow, the rest stays. *)
Definition rebase (src dst k : string) : string :=
  if String.eqb k src || beneath src k
  then dst +:+ Str.drop (String.length src) k
  else k.

(** [os.rename(src, dst)].  A regular file replaces a file at [dst].  A
    directory moves with everything beneath it; it may replace an empty
    directory, but neither the root nor a directory it lies in, and it
    cannot move into itself. *)
Definition rename (src dst : string) (w : World) : res unit * World :=
  match files w !! src with
  | Some v =>
      if negb (Str.truthy dst) then (Raise FileNotFoundError, w)
      else if isdir w dst then (Raise IsADirectoryError, w)
      else if isfile w (dirname dst) then (Raise NotADirectoryError, w)
      else if negb (parent_ok w dst) then (Raise FileNotFoundError, w)
      else (Ok (), with_files w (<[dst := v]> (delete src (files w))))
  | None =>
      if negb (isdir w src) then (Raise FileNotFoundError, w)
      else if negb (Str.truthy dst) then (Raise FileNotFoundError, w)
      else if isfile w (dirname dst) then (Raise NotADirectoryError, w)
      else if negb (parent_ok w dst) then (Raise FileNotFoundError, w)
      else if is_root src || is_root dst then (Raise (OSError "busy"), w)
      else if String.eqb src dst then (Ok (), w)
      else if beneath src dst then (Raise (OSError "invalid argument"), w)
      else if isfile w dst then (Raise NotADirectoryError, w)
      else if beneath dst src || (isdir w dst && negb (dir_empty w dst))
      then (Raise (OSError "not empty"), w)
      else (Ok (), mkWorld (kmap (rebase src dst) (files w))
                           (set_map (rebase src dst) (dirs w))
                           (names w) (drawn w))
  end.

(** [os.remove(path)]. *)
Definition remove (p : string) (w : World) : res unit * World :=
  match files w !! p with
  | Some _ => (Ok (), with_files w (delete p (files w)))
  | None => if isdir w p then (Raise IsADirectoryError, w)
            else (Raise FileNotFoundError, w)
  end.

(** [with open(path, 'w') as f: f.write(content)]: the file is created
    or truncated, then filled. *)
Definition write_file (p content : string) (w : World) : res unit * World :=
  if negb (Str.truthy p) then (Raise FileNotFoundError, w)
  else if isdir w p then (Raise IsADirectoryError, w)
  else if isfile w (dirname p) then (Raise NotADirectoryError, w)
  else if negb (parent_ok w p) then (Raise FileNotFoundError, w)
  else (Ok (), with_files w (<[p := content]> (files w))).

(** *** [tempfile.mktemp] *)

Definition TMP_MAX : nat := (100 * 100)%nat.

Definition draw (w : World) : string * World :=
  (names w (drawn w), mkWorld (files w) (dirs w) (names w) (S (drawn w))).

Fixpoint mktemp_loop (n : nat) (prefix dir : string) (w : World)
  : res string * World :=
  match n with
  | O => (Raise FileExistsError, w)
  | S n' =>
      let '(name, w') := draw w in
      let file := join dir (prefix +:+ name) in
      if exists_ w' file then mktemp_loop n' prefix dir w'
      else (Ok file, w')
  end.

Definition mktemp (prefix dir : string) (w : World) : res string * World :=
  mktemp_loop TMP_MAX prefix dir w.

End Posix.

(** ** Log records and method-entry marks *)

Inductive level := DEBUG | INFO | WARNING | ERROR.

Inductive event :=
(** [log.<level>(fmt, *args)] *)
| Log (lvl : level) (fmt : string) (args : list string)
(** entry into [op.apply], [op.revert], [op.cleanup] for the operation on
    the given target path *)
| Applying (file_path : string)
| Reverting (file_path : string)
| Cleaning (file_path : string)
(** [subprocess.check_output(argv)] *)
| Exec (hook_name : string) (argv : list string)
(** [sys.stdout.write(text)] and [input(prompt)] *)
| Stdout (text : string)
| Input (prompt : string)
(** [acme_client.new_account(reg)] for a registration with this e-mail
    and this [terms_of_service_agreed] *)
| NewAccount (email : string) (terms_of_service_agreed : bool)
(** [acme_client.answer_challenge] and [acme_client.poll] for a domain *)
| Answer (domain_name : string)
| Poll (domain_name : string)
(** [time.sleep(seconds)] *)
| Sleep (seconds : Z)
(** [socket.getaddrinfo(host, port)] *)
| Resolve (host_name : string) (port : Z)
(** [fetch_tls_info(addr, ssl_context, host_name, starttls)]: a TCP
    connection to the address, then a TLS handshake for that name *)
| Fetch (ip : string) (host_name : string).

#[global] Instance level_eq_dec : EqDecision level.
Proof. solve_decision. Defined.
#[global] Instance event_eq_dec : EqDecision event.
Proof. solve_decision. Defined.

(** ** [certlib/utils.py]: file operations *)

Module Utils.
Import Posix.

Record FileOwner := mkFileOwner { uid : Z; gid : Z; is_self : bool }.

Definition dirmode (mode : Z) : Z :=
  let mode := if (Z.land mode 448 =? 0)%Z then mode else Z.lor mode 64 in
  let mode := if (Z.land mode 56 =? 0)%Z then mode else Z.lor mode 8 in
  let mode := if (Z.land mode 7 =? 0)%Z then mode else Z.lor mode 1 in
  mode.

(** The three classes: [WriteOperation], its subclass
    [ArchiveAndWriteOperation] and the latter's subclass
    [ArchiveOperation]. *)
Inductive op_class := WriteOp | ArchiveAndWriteOp | ArchiveOp.

Record Operation := mkOp {
  cls : op_class;
  file_path : string;
  mode : Z;
  owner : option FileOwner;
  file_type : string;            (* unused by [WriteOp] *)
  _content : option string;
  _tmp_path : option string;
  _rmdir : bool;
  _archived : bool               (* unused by [WriteOp] *)
}.

Definition set_content (op : Operation) (c : option string) : Operation :=
  mkOp (cls op) (file_path op) (mode op) (owner op) (file_type op)
       c (_tmp_path op) (_rmdir op) (_archived op).
Definition set_tmp_path (op : Operation) (t : option string) : Operation :=
  mkOp (cls op) (file_path op) (mode op) (owner op) (file_type op)
       (_content op) t (_rmdir op) (_archived op).
Definition set_rmdir (op : Operation) (b : bool) : Operation :=
  mkOp (cls op) (file_path op) (mode op) (owner op) (file_type op)
       (_content op) (_tmp_path op) b (_archived op).
Definition set_archived (op : Operation) (b : bool) : Operation :=
  mkOp (cls op) (file_path op) (mode op) (owner op) (file_type op)
       (_content op) (_tmp_path op) (_rmdir op) b.

(** [WriteOperation(file_path, mode, owner)] *)
Definition WriteOperation (file_path : string) (mode : Z)
           (owner : option FileOwner) : Operation :=
  mkOp WriteOp file_path mode
       (match owner with
        | Some o => if is_self o then None else Some o
        | None => None
        end)
       "" None None false false.

(** [ArchiveAndWriteOperation(file_type, file_path, mode, owner)] *)
Definition ArchiveAndWriteOperation (file_type file_path : string) (mode : Z)
           (owner : option FileOwner) : Operation :=
  let op := WriteOperation file_path mode owner in
  mkOp ArchiveAndWriteOp (Utils.file_path op) (Utils.mode op) (Utils.owner op)
       file_type None None false false.

(** [ArchiveOperation(file_type, file_path)] *)
Definition ArchiveOperation (file_type file_path : string) : Operation :=
  let op := ArchiveAndWriteOperation file_type file_path 0 None in
  mkOp ArchiveOp (Utils.file_path op) (Utils.mode op) (Utils.owner op)
       file_type None None false false.

(** [with op.file() as f: f.write(data)]: the stream's value becomes the
    content; an [ArchiveOperation] refuses. *)
Definition file_write (op : Operation) (data : string) : res Operation :=
  match cls op with
  | ArchiveOp => Raise NotImplementedError
  | _ => Ok (set_content op (Some data))
  end.


(** [tmp_path(archive_dir)], dispatched on the class. *)
Definition tmp_path (op : Operation) (archive_dir : option string)
           (w : World) : res string * Operation * World :=
  let sibling op :=
    let '(r, w') := mktemp ".old-" (dirname (file_path op)) w in (r, op, w') in
  match cls op with
  | WriteOp => sibling op
  | ArchiveAndWriteOp | ArchiveOp =>
      match archive_dir with
      | Some d =>
          if Str.truthy d
          then (Ok (join (join d (file_type op)) (basename (file_path op))),
                set_archived op true, w)
          else sibling op
      | None => sibling op
      end
  end.

(** The two [try] blocks of [WriteOperation.apply]: make the backup's
    directory, then move the existing file out of the way. *)
Definition move_aside (op : Operation) (tmp : string) (w : World)
  : res unit * Operation * World :=
  (* try: os.makedirs(...); self._rmdir = True
     except FileExistsError: pass *)
  let '(r1, w) :=
    makedirs (dirname tmp) (dirmode (if mode op =? 0 then 448 else mode op)) w in
  match r1 with
  | Raise FileExistsError | Ok _ =>
      let op := if is_ok r1 then set_rmdir op true else op in
      (* try: os.rename(...); self._tmp_path = tmp_path
         except FileNotFoundError: ... *)
      let '(r2, w) := rename (file_path op) tmp w in
      match r2 with
      | Ok _ => (Ok (), set_tmp_path op (Some tmp), w)
      | Raise FileNotFoundError =>
          if _rmdir op
          then let '(r, w) := removedirs (dirname tmp) w in (r, op, w)
          else (Ok (), op, w)
      | Raise e => (Raise e, op, w)
      end
  | Raise e => (Raise e, op, w)
  end.

(** The rest of [WriteOperation.apply], from [if not self._content:
    return] on. *)
Definition write_content (op : Operation) (w : World)
  : res unit * Operation * World * list event :=
  match _content op with
  | Some c =>
      if Str.truthy c then
        match write_file (file_path op) c w with
        | (Ok _, w) =>
            (Ok (), set_content op None, w,
             [Log DEBUG "'%s' saved" [file_path op]])
        | (Raise e, w) => (Raise e, op, w, [])
        end
      else (Ok (), op, w, [])
  | None => (Ok (), op, w, [])
  end.

(** [WriteOperation.apply], without the subclass's closing log line. *)
Definition write_apply (op : Operation) (archive_dir : option string)
           (w : World) : res unit * Operation * World * list event :=
  match tmp_path op archive_dir w with
  | (Raise e, op, w) => (Raise e, op, w, [])
  | (Ok tmp, op, w) =>
      match move_aside op tmp w with
      | (Raise e, op, w) => (Raise e, op, w, [])
      | (Ok _, op, w) => write_content op w
      end
  end.

(** [op.apply(archive_dir)] *)
Definition apply (op : Operation) (archive_dir : option string)
           (w : World) : res unit * Operation * World * list event :=
  let '(r, op', w', evs) := write_apply op archive_dir w in
  let evs := Applying (file_path op) :: evs in
  match cls op, r with
  | (ArchiveAndWriteOp | ArchiveOp), Ok _ =>
      if Str.truthy_opt (_tmp_path op') && _archived op'
      then (r, op', w', evs ++ [Log DEBUG "'%s' archived" [file_path op']])
      else (r, op', w', evs)
  | _, _ => (r, op', w', evs)
  end.

(** [op.revert()] *)
Definition revert (op : Operation) (w : World)
  : res unit * Operation * World * list event :=
  let '(r1, w) := remove (file_path op) w in
  let start := [Reverting (file_path op)] in
  match r1 with
  | Ok _ | Raise FileNotFoundError =>
      let evs := if is_ok r1
                 then start ++ [Log DEBUG "%s removed" [file_path op]]
                 else start in
      match _tmp_path op with
      | Some tmp =>
          if Str.truthy tmp then
            match rename tmp (file_path op) w with
            | (Ok _, w) =>
                (Ok (), set_tmp_path op None, w,
                 evs ++ [Log DEBUG "%s restored" [file_path op]])
            | (Raise e, w) => (Raise e, op, w, evs)
            end
          else (Ok (), op, w, evs)
      | None => (Ok (), op, w, evs)
      end
  | Raise e => (Raise e, op, w, start)
  end.

(** [WriteOperation.cleanup] *)
Definition write_cleanup (op : Operation) (w : World)
  : res unit * Operation * World :=
  match _tmp_path op with
  | Some tmp =>
      if Str.truthy tmp then
        let '(r1, w) := remove tmp w in
        match r1 with
        | Ok _ | Raise FileNotFoundError =>
            (* a failing removedirs is swallowed: every error it can
               raise is an OSError *)
            let w := if _rmdir op then snd (removedirs (dirname tmp) w) else w in
            (Ok (), set_tmp_path op None, w)
        | Raise e => (Raise e, op, w)
        end
      else (Ok (), op, w)
  | None => (Ok (), op, w)
  end.

(** [op.cleanup()] *)
Definition cleanup (op : Operation) (w : World)
  : res unit * Operation * World * list event :=
  let '(r, op', w') :=
    match cls op with
    | WriteOp => write_cleanup op w
    | ArchiveAndWriteOp | ArchiveOp =>
        (* skip cleanup step if file archived (should not be removed) *)
        if _archived op then (Ok (), op, w) else write_cleanup op w
    end in
  (r, op', w', [Cleaning (file_path op)]).

Definition class_name (op : Operation) : string :=
  match cls op with
  | WriteOp => "WriteOperation"
  | ArchiveAndWriteOp => "ArchiveAndWriteOperation"
  | ArchiveOp => "ArchiveOperation"
  end.

Definition exn_name (e : exn) : string :=
  match e with
  | FileNotFoundError => "FileNotFoundError"
  | FileExistsError => "FileExistsError"
  | IsADirectoryError => "IsADirectoryError"
  | NotADirectoryError => "NotADirectoryError"
  | OSError m => m
  | KeyError k => k
  | IndexError => "IndexError"
  | ValueError m => m
  | NotImplementedError => "NotImplementedError"
  | CalledProcessError _ out => out
  | PyException m => m
  | AcmeError m _ => m
  end.

(** The [for op in operations: op.apply(archive_dir); applied.append(op)]
    loop.  Returns the operations that were applied (as [apply] left
    them, in the order of [applied]) and the ones that were not: the
    failing one, as its [apply] left it, followed by those never
    reached. *)
Fixpoint apply_all (ops : list Operation) (archive_dir : option string)
         (w : World)
  : res unit * list Operation * list Operation * World * list event :=
  match ops with
  | [] => (Ok (), [], [], w, [])
  | op :: rest =>
      match apply op archive_dir w with
      | (Ok _, op', w', evs) =>
          let '(r, applied, pending, w'', evs') := apply_all rest archive_dir w' in
          (r, op' :: applied, pending, w'', evs ++ evs')
      | (Raise e, op', w', evs) => (Raise e, [], op' :: rest, w', evs)
      end
  end.

(** The [for op in applied: try: op.revert() except ...] loop. *)
Fixpoint revert_all (applied : list Operation) (w : World)
  : list Operation * World * list event :=
  match applied with
  | [] => ([], w, [])
  | op :: rest =>
      let '(r, op', w', evs) := revert op w in
      let evs :=
        match r with
        | Ok _ => evs
        | Raise err =>
            evs ++ [Log ERROR "reverting operation '%s' failed: %s"
                        [class_name op; exn_name err]]
        end in
      let '(ops', w'', evs') := revert_all rest w' in
      (op' :: ops', w'', evs ++ evs')
  end.

(** The [for op in applied: try: op.cleanup() except ...] loop. *)
Fixpoint cleanup_all (applied : list Operation) (w : World)
  : list Operation * World * list event :=
  match applied with
  | [] => ([], w, [])
  | op :: rest =>
      let '(r, op', w', evs) := cleanup op w in
      let evs :=
        match r with
        | Ok _ => evs
        | Raise err =>
            evs ++ [Log ERROR "cleanup operation '%s' failed: %s"
                        [class_name op; exn_name err]]
        end in
      let '(ops', w'', evs') := cleanup_all rest w' in
      (op' :: ops', w'', evs ++ evs')
  end.

(** [commit_file_transactions(operations, archive_dir)]; the operation
    objects are returned as the call leaves them. *)
Definition commit_file_transactions (operations : list Operation)
           (archive_dir : option string) (w : World)
  : res unit * list Operation * World * list event :=
  match operations with
  | [] => (Ok (), [], w, [])
  | _ :: _ =>
      let '(r, applied, pending, w1, evs1) := apply_all operations archive_dir w in
      let start := Log DEBUG "Committing file transaction" [] :: evs1 in
      match r with
      | Raise e =>
          let '(applied', w2, evs2) := revert_all applied w1 in
          (Raise e, applied' ++ pending, w2,
           start ++ Log ERROR "File transaction error. Rolling back changes" []
                 :: evs2)
      | Ok _ =>
          let '(applied', w2, evs2) := cleanup_all applied w1 in
          (Ok (), applied' ++ pending, w2, start ++ evs2)
      end
  end.

(** *** Hooks

    Library calls.  [shlex.split] is modelled for POSIX quoting:
    blanks separate tokens, single quotes keep everything, double
    quotes let a backslash escape a double quote or a backslash, and a
    backslash outside quotes escapes the next character.  [str.format]
    is modelled for templates whose replacement fields are plain names
    ([{domain}]) plus the doubled-brace escapes; a field that asks for a
    conversion, a format spec, an attribute or an index of a value that
    was found is reported as [ValueError]. *)

Definition is_blank (c : ascii) : bool :=
  Ascii.eqb c " " || Ascii.eqb c "009" || Ascii.eqb c "010" || Ascii.eqb c "013".

Definition squote : ascii := "'".
Definition dquote : ascii := "034".
Definition backslash : ascii := "092".

Definition push (c : ascii) (cur : option (list ascii)) : option (list ascii) :=
  Some (c :: default [] cur).

Definition token (cur : list ascii) : string := Str.of_chars (rev cur).

Fixpoint shlex_chars (l : list ascii) (cur : option (list ascii))
         (quote : option ascii) : res (list string) :=
  match l with
  | [] =>
      match quote with
      | Some _ => Raise (ValueError "No closing quotation")
      | None => Ok (match cur with Some t => [token t] | None => [] end)
      end
  | c :: r =>
      match quote with
      | Some q =>
          if Ascii.eqb c q then shlex_chars r cur None
          else if Ascii.eqb q dquote && Ascii.eqb c backslash then
            match r with
            | d :: r' =>
                if Ascii.eqb d dquote || Ascii.eqb d backslash
                then shlex_chars r' (push d cur) quote
                else shlex_chars r' (push d (push c cur)) quote
            | [] => Raise (ValueError "No escaped character")
            end
          else shlex_chars r (push c cur) quote
      | None =>
          if is_blank c then
            match cur with
            | Some t =>
                match shlex_chars r None None with
                | Ok ts => Ok (token t :: ts)
                | Raise e => Raise e
                end
            | None => shlex_chars r None None
            end
          else if Ascii.eqb c backslash then
            match r with
            | d :: r' => shlex_chars r' (push d cur) None
            | [] => Raise (ValueError "No escaped character")
            end
          else if Ascii.eqb c squote || Ascii.eqb c dquote
          then shlex_chars r (Some (default [] cur)) (Some c)
          else shlex_chars r (push c cur) None
      end
  end.

(** [shlex.split(s)] *)
Definition shlex_split (s : string) : res (list string) :=
  shlex_chars (Str.chars s) None None.

(** Keyword arguments, as [**kwargs] collects them. *)
Definition kwargs := list (string * string).

Fixpoint kw_get (k : string) (kw : kwargs) : option string :=
  match kw with
  | [] => None
  | (k', v) :: r => if String.eqb k k' then Some v else kw_get k r
  end.

Definition is_digit (c : ascii) : bool :=
  let n := N_of_ascii c in ((48 <=? n) && (n <=? 57))%N.

Definition ends_name (c : ascii) : bool :=
  Ascii.eqb c "." || Ascii.eqb c "[" || Ascii.eqb c "!" || Ascii.eqb c ":".

(** The value of one replacement field. *)
Definition field_value (field : list ascii) (kw : kwargs) : res (list ascii) :=
  let name := Str.take_while (fun c => negb (ends_name c)) field in
  if forallb is_digit name then Raise IndexError
  else match kw_get (Str.of_chars name) kw with
       | None => Raise (KeyError (Str.of_chars name))
       | Some v =>
           if (length name =? length field)%nat then Ok (Str.chars v)
           else Raise (ValueError "unsupported replacement field")
       end.

Definition cons_ok (c : ascii) (r : res (list ascii)) : res (list ascii) :=
  match r with Ok l => Ok (c :: l) | Raise e => Raise e end.

(** [field] holds the reversed characters of the replacement field
    being read, if any. *)
Fixpoint format_chars (l : list ascii) (field : option (list ascii))
         (kw : kwargs) : res (list ascii) :=
  match l with
  | [] =>
      match field with
      | None => Ok []
      | Some _ => Raise (ValueError "expected '}' before end of string")
      end
  | c :: r =>
      match field with
      | Some acc =>
          if Ascii.eqb c "}" then
            match field_value (rev acc) kw with
            | Ok v =>
                match format_chars r None kw with
                | Ok rest => Ok (v ++ rest)
                | Raise e => Raise e
                end
            | Raise e => Raise e
            end
          else if Ascii.eqb c "{"
          then Raise (ValueError "unexpected '{' in field name")
          else format_chars r (Some (c :: acc)) kw
      | None =>
          if Ascii.eqb c "{" then
            match r with
            | d :: r' =>
                if Ascii.eqb d "{" then cons_ok c (format_chars r' None kw)
                else format_chars r (Some []) kw
            | [] => Raise (ValueError "Single '{' encountered in format string")
            end
          else if Ascii.eqb c "}" then
            match r with
            | d :: r' =>
                if Ascii.eqb d "}" then cons_ok c (format_chars r' None kw)
                else Raise (ValueError "Single '}' encountered in format string")
            | [] => Raise (ValueError "Single '}' encountered in format string")
            end
          else cons_ok c (format_chars r None kw)
      end
  end.

(** [arg.format( **kwargs)] *)
Definition format (arg : string) (kw : kwargs) : res string :=
  match format_chars (Str.chars arg) None kw with
  | Ok l => Ok (Str.of_chars l)
  | Raise e => Raise e
  end.

(** [[arg.format( **kwargs) for arg in args]] *)
Fixpoint format_all (args : list string) (kw : kwargs) : res (list string) :=
  match args with
  | [] => Ok []
  | a :: r =>
      match format a kw with
      | Ok a' =>
          match format_all r kw with
          | Ok r' => Ok (a' :: r')
          | Raise e => Raise e
          end
      | Raise e => Raise e
      end
  end.

(** One configured hook: a command line, or a dict that may hold
    ['args'] next to other keys. *)
Inductive hook_spec :=
| HookStr (cmd : string)
| HookDict (args : option (list string)) (other_keys : list string).

(** A value of the [commands] dict. *)
Inductive command :=
| CmdNone
| CmdOne (h : hook_spec)
| CmdList (hs : list hook_spec).

Definition hook_truthy (h : hook_spec) : bool :=
  match h with
  | HookStr s => Str.truthy s
  | HookDict None [] => false
  | HookDict _ _ => true
  end.

Definition command_truthy (c : command) : bool :=
  match c with
  | CmdNone => false
  | CmdOne h => hook_truthy h
  | CmdList [] => false
  | CmdList (_ :: _) => true
  end.

(** A queued invocation: the dict's ['args'] after substitution. *)
Definition invocation := list string.

(** The [OrderedDict] from hook name to queued invocations: keys in
    order of first insertion. *)
Definition queue := list (string * list invocation).

Fixpoint q_mem (name : string) (q : queue) : bool :=
  match q with
  | [] => false
  | (n, _) :: r => String.eqb n name || q_mem name r
  end.

(** [self._hooks[name].append(hook)] for a key that is present. *)
Fixpoint q_append (name : string) (h : invocation) (q : queue) : queue :=
  match q with
  | [] => []
  | (n, hs) :: r =>
      if String.eqb n name then (n, hs ++ [h]) :: r
      else (n, hs) :: q_append name h r
  end.

Record Hooks := mkHooks {
  _hooks : queue;
  _commands : gmap string command
}.

(** [Hooks(commands)] *)
Definition new_hooks (commands : gmap string command) : Hooks :=
  mkHooks [] commands.

(** [hook['args']] once a command line was turned into a dict. *)
Definition hook_args (hook : hook_spec) : res (list string) :=
  match hook with
  | HookStr s => shlex_split s
  | HookDict (Some a) _ => Ok a
  | HookDict None _ => Raise (KeyError "args")
  end.

(** The body of the [try] in [add]: the [for hook in hooks] loop. *)
Fixpoint add_loop (hook_name : string) (hooks : list hook_spec)
         (kw : kwargs) (q : queue) : res unit * queue :=
  match hooks with
  | [] => (Ok (), q)
  | hook :: rest =>
      match hook_args hook with
      | Raise e => (Raise e, q)
      | Ok a =>
          match format_all a kw with
          | Raise e => (Raise e, q)
          | Ok a' => add_loop hook_name rest kw (q_append hook_name a' q)
          end
      end
  end.

(** [hooks.add(hook_name, **kwargs)] *)
Definition add (self : Hooks) (hook_name : string) (kw : kwargs)
  : res unit * Hooks * list event :=
  match _commands self !! hook_name with
  | None => (Raise (KeyError hook_name), self, [])
  | Some hooks =>
      if negb (command_truthy hooks) then (Ok (), self, [])
      else
        let q := if q_mem hook_name (_hooks self) then _hooks self
                 else _hooks self ++ [(hook_name, [])] in
        let hooks := match hooks with
                     | CmdOne h => [h]
                     | CmdList hs => hs
                     | CmdNone => []
                     end in
        match add_loop hook_name hooks kw q with
        | (Ok _, q') => (Ok (), mkHooks q' (_commands self), [])
        | (Raise (KeyError k), q') =>
            (Ok (), mkHooks q' (_commands self),
             [Log WARNING "Invalid hook specification for %s, unknown key %s"
                  [hook_name; k]])
        | (Raise e, q') => (Raise e, mkHooks q' (_commands self), [])
        end
  end.

(** The processes the hooks start: [run n argv] is what the [n]-th
    [subprocess.check_output] call of the program does with [argv]: its
    output, a [CalledProcessError] for a non-zero exit, or whatever
    else it raises when the command cannot be started. *)
Record Shell := mkShell {
  run : nat -> list string -> res string;
  ran : nat
}.

Definition show_args (args : list string) : string := String.concat " " args.

(** One iteration of the inner loop of [call]. *)
Definition call_one (hook_name : string) (h : invocation) (sh : Shell)
  : Shell * list event :=
  let sh' := mkShell (run sh) (S (ran sh)) in
  let start := [Log INFO "Calling hook %s: %s" [hook_name; show_args h];
                Exec hook_name h] in
  match run sh (ran sh) h with
  | Ok out => (sh', start ++ [Log INFO out []])
  | Raise (CalledProcessError code out) =>
      (sh', start ++ [Log WARNING "Hook %s returned error, code: %s:\n%s"
                          [hook_name; out]])
  | Raise e =>
      (sh', start ++ [Log WARNING "Failed to call hook %s (%s): %s"
                          [hook_name; show_args h; exn_name e]])
  end.

Fixpoint call_hooks (hook_name : string) (hs : list invocation) (sh : Shell)
  : Shell * list event :=
  match hs with
  | [] => (sh, [])
  | h :: r =>
      let '(sh1, e1) := call_one hook_name h sh in
      let '(sh2, e2) := call_hooks hook_name r sh1 in
      (sh2, e1 ++ e2)
  end.

Fixpoint call_queue (q : queue) (sh : Shell) : Shell * list event :=
  match q with
  | [] => (sh, [])
  | (name, hs) :: r =>
      let '(sh1, e1) := call_hooks name hs sh in
      let '(sh2, e2) := call_queue r sh1 in
      (sh2, e1 ++ e2)
  end.

(** [hooks.call()]: every exception of an invocation is caught inside
    the loop, so the call itself raises nothing. *)
Definition call (self : Hooks) (sh : Shell) : Hooks * Shell * list event :=
  let '(sh', evs) := call_queue (_hooks self) sh in
  (mkHooks [] (_commands self), sh', evs).

End Utils.

(** ** [certlib/acme.py]: registration bootstrap *)

Module Url.

(** [urllib.parse.urlparse] as far as [connect_client] reads it: the
    scheme (element 0) and the network location (element 1).  Modelled
    for URLs without leading blanks and without bracketed IPv6 hosts. *)

Definition is_alpha (c : ascii) : bool :=
  let n := N_of_ascii c in
  (((65 <=? n) && (n <=? 90)) || ((97 <=? n) && (n <=? 122)))%N.

Definition scheme_char (c : ascii) : bool :=
  is_alpha c || Utils.is_digit c
  || Ascii.eqb c "+" || Ascii.eqb c "-" || Ascii.eqb c ".".

Definition is_colon (c : ascii) : bool := Ascii.eqb c ":".

Definition ends_netloc (c : ascii) : bool :=
  Ascii.eqb c "/" || Ascii.eqb c "?" || Ascii.eqb c "#".

Record ParseResult := mkParse { scheme : string; netloc : string }.

Definition urlparse (url : string) : ParseResult :=
  let l := Str.chars url in
  let before := Str.take_while (fun c => negb (is_colon c)) l in
  let after := Str.drop_while (fun c => negb (is_colon c)) l in
  let '(sch, rest) :=
    match before, after with
    | c :: _, _ :: r =>
        if is_alpha c && forallb scheme_char before
        then (Str.lower (Str.of_chars before), r)
        else ("", l)
    | _, _ => ("", l)
    end in
  match rest with
  | "/"%char :: "/"%char :: r =>
      mkParse sch (Str.of_chars (Str.take_while (fun c => negb (ends_netloc c)) r))
  | _ => mkParse sch ""
  end.

(** The [hostname] of a network location: what follows the last [@],
    up to the first colon, in lower case. *)
Fixpoint after_last_at (l acc : list ascii) : list ascii :=
  match l with
  | [] => acc
  | c :: r => if Ascii.eqb c "@" then after_last_at r r else after_last_at r acc
  end.

Definition hostname (netloc : string) : string :=
  let l := Str.chars netloc in
  Str.lower (Str.of_chars
    (Str.take_while (fun c => negb (is_colon c)) (after_last_at l l))).

End Url.

Module Acme.
Import Posix Utils.

Record Registration := mkRegistration {
  uri : string;
  body : string
}.

Record PrivateKey := mkKey {
  material : string;
  encrypted : bool
}.

(** What [get_key_cipher] hands out. *)
Record Cipher := mkCipher { cipher_passphrase : string }.

(** What [connect_client] finds outside the program.  The file
    [registration.json] and the two key files are given as parsed by
    [messages.RegistrationResource.json_loads], [PrivateKey.load] and
    [josepy]; none of these is part of the sources at hand. *)
Record Env := mkEnv {
  (** [registration.json], [None] when the file is missing *)
  stored_registration : option Registration;
  (** [PrivateKey.load(client_key_path, pwd)], [None] when the key file
      is missing, and the cipher the password provider derived for it *)
  stored_key : option PrivateKey;
  stored_key_cipher : option Cipher;
  (** [client_key.json], [None] when the file is missing *)
  old_key : option PrivateKey;
  (** [PrivateKey.create('rsa', 4096)] *)
  created_key : PrivateKey;
  (** [get_key_cipher('acme_client', passphrase, False)] *)
  get_key_cipher : string -> option Cipher;
  (** [client_key.encode(passphrase)] *)
  encode : PrivateKey -> option string -> string;
  (** fetching the directory: its [terms_of_service] when advertised,
      or the exception of the connection *)
  directory : res (option string);
  (** [sys.stdin.isatty()] and the line [input] returns *)
  isatty : bool;
  answer : string;
  (** [acme_client.new_account(reg)] *)
  new_account : string -> bool -> res Registration;
  (** [registration.json_dumps()] *)
  json_dumps : Registration -> string
}.

Record Client := mkClient {
  client_key : PrivateKey;
  account : option Registration;
  terms_of_service : option string
}.

(** Lines 41-50: read the stored registration and drop it when the
    service moved. *)
Definition load_registration (env : Env) (resource_dir directory_url : string)
  : option Registration * list event :=
  let registration_path := join resource_dir "registration.json" in
  match stored_registration env with
  | None => (None, [])
  | Some registration =>
      let loaded := [Log DEBUG "Loaded registration %s" [registration_path]] in
      let acme_url := Url.urlparse directory_url in
      let reg_url := Url.urlparse (uri registration) in
      if negb (String.eqb (Url.scheme acme_url) (Url.scheme reg_url))
         || negb (String.eqb (Url.netloc acme_url) (Url.netloc reg_url))
      then (None,
            loaded ++ [Log INFO "ACME service URL has changed, re-registering with new client key" []])
      else (Some registration, loaded)
  end.

Definition if_cipher (c : option Cipher) : option string :=
  match c with Some c => Some (cipher_passphrase c) | None => None end.

(** Lines 123-127: submit the registration and prepare the write of
    what the server returns. *)
Definition submit (env : Env) (account registration_path : string)
           (agreed : bool) : res (Registration * Operation) :=
  match new_account env account agreed with
  | Ok registration =>
      match file_write (ArchiveAndWriteOperation "resource" registration_path 384 None)
                       (json_dumps env registration) with
      | Ok op => Ok (registration, op)
      | Raise e => Raise e
      end
  | Raise e => Raise e
  end.

(** Lines 105-129: the body of [try] under [if not registration]. *)
Definition register (env : Env) (account : string)
           (terms_of_service : option string) (registration_path : string)
  : res (Registration * Operation) * list event :=
  match terms_of_service with
  | Some tos =>
      if isatty env then
        let asked := [Stdout "ACME service has the following terms of service:\n";
                      Stdout tos; Stdout "\n"; Input "Accept? (Y/n) "] in
        if Str.truthy (answer env)
           && negb (Str.startswith "y" (Str.lower (answer env)))
        then (Raise (PyException "Terms of service rejected."), asked)
        else (submit env account registration_path true,
              asked ++ [Log DEBUG "Terms of service accepted." [];
                        NewAccount account true])
      else (submit env account registration_path true,
            [Log DEBUG "Terms of service auto-accepted: %s" [tos];
             NewAccount account true])
  | None => (submit env account registration_path false, [NewAccount account false])
  end.

(** [connect_client(resource_dir, account, directory_url, passphrase,
    archive_dir)] *)
Definition connect_client (env : Env) (resource_dir account directory_url : string)
           (passphrase archive_dir : option string) (w : World)
  : res Client * World * list event :=
  let registration_path := join resource_dir "registration.json" in
  let '(registration, evs0) := load_registration env resource_dir directory_url in
  let client_key_path := join resource_dir "client.key" in
  (* if registration: load the client key, or the old one *)
  let '(registration, client_key, client_key_cipher, ops, evs1) :=
    match registration with
    | Some _ =>
        match stored_key env with
        | Some k =>
            (registration, Some k, stored_key_cipher env, [],
             [Log DEBUG "Loaded client key %s" [client_key_path]])
        | None =>
            let client_old_key_path := join resource_dir "client_key.json" in
            match old_key env with
            | Some k =>
                (registration, Some k, None,
                 [ArchiveOperation "resource" client_old_key_path],
                 [Log DEBUG "Loaded old format client key %s" [client_old_key_path]])
            | None =>
                (None, None, None, [],
                 [Log INFO "Client key not present, generating" []])
            end
        end
    | None => (None, None, None, [], [])
    end in
  (* choose the operation that stores the client key, if any *)
  let '(client_key, client_key_cipher, op, evs2) :=
    match client_key with
    | None =>
        let cipher :=
          match passphrase, client_key_cipher with
          | Some p, None => if Str.truthy p then get_key_cipher env p else None
          | _, c => c
          end in
        (created_key env, cipher,
         Some (ArchiveAndWriteOperation "resource" client_key_path 384 None), [])
    | Some k =>
        if encrypted k && negb (Str.truthy_opt passphrase) then
          (k, None,
           Some (ArchiveAndWriteOperation "resource" client_key_path 384 None),
           [Log DEBUG "client key is encrypted but config require clear text." []])
        else if negb (encrypted k) && Str.truthy_opt passphrase then
          (k, get_key_cipher env (default "" passphrase),
           Some (WriteOperation client_key_path 384 None),
           [Log DEBUG "client key is clear text but config require encrypted." []])
        else (k, client_key_cipher, None, [])
    end in
  let ops :=
    match op with
    | Some op =>
        ops ++ [set_content op (Some (encode env client_key (if_cipher client_key_cipher)))]
    | None => ops
    end in
  let evs := evs0 ++ evs1 ++ evs2 in
  match directory env with
  | Raise _ => (Raise (AcmeError "Can't connect to ACME service" []), w, evs)
  | Ok tos =>
      let evs := evs ++ [Log DEBUG "Fetching meta from acme server '%s'" [directory_url]] in
      let registered : res (option Registration * list Operation) * list event :=
        match registration with
        | Some _ => (Ok (registration, ops), [])
        | None =>
            match register env account tos registration_path with
            | (Ok (registration, op), evs3) =>
                (Ok (Some registration, ops ++ [op]),
                 Log INFO "Registering client" [] :: evs3)
            | (Raise _, evs3) =>
                (Raise (AcmeError "Can't register with ACME service" []),
                 Log INFO "Registering client" [] :: evs3)
            end
        end in
      match registered with
      | (Raise e, evs3) => (Raise e, w, evs ++ evs3)
      | (Ok (registration, ops), evs3) =>
          let '(r, _, w', evs4) := commit_file_transactions ops archive_dir w in
          match r with
          | Ok _ => (Ok (mkClient client_key registration tos), w', evs ++ evs3 ++ evs4)
          | Raise e => (Raise e, w', evs ++ evs3 ++ evs4)
          end
      end
  end.

End Acme.

(** ** [certlib/acme.py]: authorizations *)

Module Authz.
Import Posix Utils.

Inductive status :=
| STATUS_PENDING
| STATUS_VALID
| STATUS_INVALID
| STATUS_OTHER (name : string).

Record Challenge := mkChallenge {
  typ : string;
  token : string;
  (** [challenge.validation(acme_client.net.key)] *)
  validation : string;
  (** [challenge.error.detail], when the challenge carries an error *)
  error_detail : option string
}.

Record AuthorizationResource := mkAuthz {
  identifier : string;
  auth_status : status;
  challenges : list Challenge
}.

#[global] Instance status_eq_dec : EqDecision status.
Proof. solve_decision. Defined.
#[global] Instance challenge_eq_dec : EqDecision Challenge.
Proof. solve_decision. Defined.
#[global] Instance authz_eq_dec : EqDecision AuthorizationResource.
Proof. solve_decision. Defined.

Record Response := mkResponse {
  status_code : Z;
  (** the seconds of a [Retry-After] header, when the server sent one *)
  retry_after_header : option Z
}.

(** The ACME server behind [acme_client]: [poll n a] answers the [n]-th
    poll of the run, made for authorization [a]. *)
Record Server := mkServer {
  answer_challenge : Challenge -> res unit;
  poll : nat -> AuthorizationResource -> res (AuthorizationResource * Response);
  polled : nat
}.

Record State := mkState {
  world : World;
  hooks : Hooks;
  shell : Shell;
  server : Server;
  (** [datetime.datetime.now()], in seconds; only [time.sleep] moves it *)
  now : Z
}.

Definition with_world (st : State) (w : World) : State :=
  mkState w (hooks st) (shell st) (server st) (now st).
Definition with_hooks (st : State) (h : Hooks) : State :=
  mkState (world st) h (shell st) (server st) (now st).
Definition with_shell (st : State) (sh : Shell) : State :=
  mkState (world st) (hooks st) sh (server st) (now st).
Definition with_server (st : State) (sv : Server) : State :=
  mkState (world st) (hooks st) (shell st) sv (now st).
Definition with_now (st : State) (t : Z) : State :=
  mkState (world st) (hooks st) (shell st) (server st) t.

(** A Python [dict] with string keys: a new key goes last, an old key
    keeps its place. *)
Fixpoint dict_set {V} (k : string) (v : V) (d : list (string * V))
  : list (string * V) :=
  match d with
  | [] => [(k, v)]
  | (k', v') :: r =>
      if String.eqb k' k then (k', v) :: r else (k', v') :: dict_set k v r
  end.

(** [_get_challenge(authorization_resource, ty)] *)
Fixpoint find_challenge (cs : list Challenge) (ty : string) : option Challenge :=
  match cs with
  | [] => None
  | c :: r => if String.eqb ty (typ c) then Some c else find_challenge r ty
  end.

Definition _get_challenge (a : AuthorizationResource) (ty : string)
  : option Challenge :=
  find_challenge (challenges a) ty.

Definition status_name (s : status) : string :=
  match s with
  | STATUS_PENDING => "pending"
  | STATUS_VALID => "valid"
  | STATUS_INVALID => "invalid"
  | STATUS_OTHER n => n
  end.

(** [hooks.call()] on the state. *)
Definition hooks_call (st : State) : State * list event :=
  let '(h, sh, evs) := call (hooks st) (shell st) in
  (with_shell (with_hooks st h) sh, evs).

(** [hooks.add(name, domain=..., file=...)] on the state. *)
Definition hooks_add (name domain file : string) (st : State)
  : res unit * State * list event :=
  let '(r, h, evs) := add (hooks st) name [("domain", domain); ("file", file)] in
  (r, with_hooks st h, evs).

(** [for challenge_file in ...: os.remove(challenge_file)] *)
Fixpoint remove_all (paths : list string) (w : World) : res unit * World :=
  match paths with
  | [] => (Ok (), w)
  | p :: r =>
      match remove p w with
      | (Ok _, w') => remove_all r w'
      | (Raise e, w') => (Raise e, w')
      end
  end.

(** *** The poll loop of [_get_authorizations] *)

Definition AuthorizationTuple : Type := Z * string * AuthorizationResource.

(** [attempts = collections.defaultdict(int)], keyed by the
    authorization resource. *)
Definition counters := list (AuthorizationResource * Z).

Fixpoint attempts_get (a : AuthorizationResource) (c : counters) : Z :=
  match c with
  | [] => 0
  | (a', n) :: r => if decide (a' = a) then n else attempts_get a r
  end.

Fixpoint attempts_set (a : AuthorizationResource) (n : Z) (c : counters)
  : counters :=
  match c with
  | [] => [(a, n)]
  | (a', n') :: r =>
      if decide (a' = a) then (a', n) :: r else (a', n') :: attempts_set a n r
  end.

(** [acme_client.retry_after(response, default=delay)]: the time of the
    next poll. *)
Definition retry_after (st : State) (response : Response) (delay : Z) : Z :=
  now st + default delay (retry_after_header response).

(** What the loop carries from one iteration to the next. *)
Record Loop := mkLoop {
  waiting : list AuthorizationTuple;
  attempts : counters;
  authorizations : list AuthorizationResource
}.

Inductive step_result :=
| Next (l : Loop)
| Stop (r : res (list AuthorizationResource)).

(** One iteration of [while waiting]. *)
Definition poll_step (retry delay : Z) (l : Loop) (st : State)
  : step_result * State * list event :=
  match waiting l with
  | [] => (Stop (Ok (authorizations l)), st, [])
  | (when, domain_name, authorization_resource) :: waiting =>
      (* sleep until the head is due *)
      let seconds := (when - now st) `mod` 86400 in
      let '(st, evs) :=
        if (now st <? when) && (0 <? seconds)
        then (with_now st (now st + seconds),
              [Sleep seconds; Log DEBUG "Polling for %s" [domain_name]])
        else (st, []) in
      let sv := server st in
      let answer := poll sv (polled sv) authorization_resource in
      let st := with_server st (mkServer (answer_challenge sv) (poll sv) (S (polled sv))) in
      let evs := evs ++ [Poll domain_name] in
      match answer with
      | Raise _ =>
          (Stop (Raise (AcmeError "Error polling for authorization for {}" [domain_name])),
           st, evs)
      | Ok (authorization_resource, response) =>
          if negb (status_code response =? 200) then
            (Next (mkLoop (waiting ++ [(retry_after st response delay, domain_name,
                                        authorization_resource)])
                          (attempts l) (authorizations l)),
             st,
             evs ++ [Log WARNING "%s while waiting for domain challenge for %s"
                         [pretty (status_code response); domain_name]])
          else
            let n := attempts_get authorization_resource (attempts l) + 1 in
            let attempts := attempts_set authorization_resource n (attempts l) in
            match auth_status authorization_resource with
            | STATUS_VALID =>
                (Next (mkLoop waiting attempts
                              (authorizations l ++ [authorization_resource])),
                 st, evs ++ [Log INFO "Domain '%s' authorized" [domain_name]])
            | STATUS_INVALID =>
                let detail :=
                  match _get_challenge authorization_resource "http-01" with
                  | Some c => Ok (default "Unknown error" (error_detail c))
                  | None => Raise (PyException "'NoneType' object has no attribute 'error'")
                  end in
                match detail with
                | Ok d =>
                    (Stop (Raise (AcmeError "Authorization failed for domain {}: {}"
                                            [domain_name; d])), st, evs)
                | Raise e => (Stop (Raise e), st, evs)
                end
            | STATUS_PENDING =>
                if retry <? n then
                  (Stop (Raise (AcmeError "Authorization timed out for {}" [domain_name])),
                   st, evs ++ [Log DEBUG "Max retry reached for domain %s" [domain_name]])
                else
                  (Next (mkLoop (waiting ++ [(retry_after st response delay, domain_name,
                                              authorization_resource)])
                                attempts (authorizations l)),
                   st, evs ++ [Log DEBUG "Retrying" []])
            | STATUS_OTHER s =>
                (Stop (Raise (AcmeError "Unexpected authorization status '{}'" [s])),
                 st, evs)
            end
      end
  end.

(** [while waiting: ...], for at most [fuel] iterations; [None] when
    the loop is still running after them. *)
Fixpoint poll_loop (fuel : nat) (retry delay : Z) (l : Loop) (st : State)
  : option (res (list AuthorizationResource) * State * list event) :=
  match waiting l with
  | [] => Some (Ok (authorizations l), st, [])
  | _ :: _ =>
      match fuel with
      | O => None
      | S fuel' =>
          match poll_step retry delay l st with
          | (Stop r, st', evs) => Some (r, st', evs)
          | (Next l', st', evs) =>
              match poll_loop fuel' retry delay l' st' with
              | Some (r, st'', evs') => Some (r, st'', evs ++ evs')
              | None => None
              end
          end
      end
  end.

(** The [for] loop that answers the challenges. *)
Fixpoint answer_all (rs : list (string * AuthorizationResource)) (sv : Server)
  : res unit * list event :=
  match rs with
  | [] => (Ok (), [])
  | (domain_name, a) :: r =>
      let start := [Log DEBUG "Answering challenge for %s" [domain_name]; Answer domain_name] in
      let answered :=
        match _get_challenge a "http-01" with
        | Some c => answer_challenge sv c
        | None => Raise (PyException "'NoneType' object has no attribute 'response'")
        end in
      match answered with
      | Ok _ => let '(res, evs) := answer_all r sv in (res, start ++ evs)
      | Raise _ =>
          (Raise (AcmeError "Error answering challenge for {}" [domain_name]), start)
      end
  end.

(** [_get_authorizations(acme_client, authorization_resources, retry,
    delay)] *)
Definition _get_authorizations (fuel : nat)
           (authorization_resources : list (string * AuthorizationResource))
           (retry delay : Z) (st : State)
  : option (res (list AuthorizationResource) * State * list event) :=
  match answer_all authorization_resources (server st) with
  | (Raise e, evs) => Some (Raise e, st, evs)
  | (Ok _, evs) =>
      let waiting := map (fun '(d, a) => (now st, d, a)) authorization_resources in
      match poll_loop fuel retry delay (mkLoop waiting [] []) st with
      | Some (r, st', evs') => Some (r, st', evs ++ evs')
      | None => None
      end
  end.

End Authz.

Module Authorize.
Import Posix Utils Authz.

(** The first loop of [handle_authorizations]: sort the order's
    authorizations into the valid ones and the pending ones. *)
Fixpoint collect (order : list AuthorizationResource)
         (authorizations : list AuthorizationResource)
         (authorization_resources : list (string * AuthorizationResource))
  : res (list AuthorizationResource * list (string * AuthorizationResource))
    * list event :=
  match order with
  | [] => (Ok (authorizations, authorization_resources), [])
  | a :: rest =>
      let domain_name := identifier a in
      match auth_status a with
      | STATUS_VALID =>
          let '(r, evs) := collect rest (authorizations ++ [a]) authorization_resources in
          (r, Log DEBUG "Domain '%s' already authorized" [domain_name] :: evs)
      | STATUS_PENDING =>
          let '(r, evs) :=
            collect rest authorizations (dict_set domain_name a authorization_resources) in
          (r, Log INFO "Requesting authorization for domain '%s'" [domain_name] :: evs)
      | s =>
          (Raise (AcmeError "Unexpected status '{}' for authorization of {}"
                            [status_name s; domain_name]), [])
      end
  end.

(** The [try] block that writes one challenge file and queues its
    hook; [challenge_http_responses] is returned as the block leaves
    it. *)
Definition write_challenge (domain_name challenge_file_path content : string)
           (challenge_http_responses : list (string * string)) (st : State)
  : res unit * list (string * string) * State * list event :=
  match makedirs_exist_ok (dirname challenge_file_path) 493 (world st) with
  | (Raise e, w) => (Raise e, challenge_http_responses, with_world st w, [])
  | (Ok _, w) =>
      match write_file challenge_file_path content w with
      | (Raise e, w) => (Raise e, challenge_http_responses, with_world st w, [])
      | (Ok _, w) =>
          let responses :=
            dict_set domain_name challenge_file_path challenge_http_responses in
          let '(r, st, evs) :=
            hooks_add "set_http_challenge" domain_name challenge_file_path
                      (with_world st w) in
          (r, responses, st, evs)
      end
  end.

(** The second loop: set up the challenge responses.  [responses] is
    [challenge_http_responses] so far. *)
Fixpoint setup (resources : list (string * AuthorizationResource))
         (http_challenge_directory : string -> option string)
         (responses : list (string * string)) (st : State)
  : res (list (string * string)) * State * list event :=
  match resources with
  | [] => (Ok responses, st, [])
  | (domain_name, a) :: rest =>
      let no_directory :=
        AcmeError "no http_challenge_directory directory specified for domain {}"
                  [domain_name] in
      match http_challenge_directory (identifier a) with
      | None => (Raise no_directory, st, [])
      | Some dir =>
          if negb (Str.truthy dir) then (Raise no_directory, st, [])
          else
            match _get_challenge a "http-01" with
            | None =>
                (Raise (AcmeError "Unable to use http-01 challenge for {}" [domain_name]),
                 st, [])
            | Some challenge =>
                let challenge_file_path := join dir (token challenge) in
                let start :=
                  [Log DEBUG "Setting http acme-challenge for '%s' in file '%s'"
                       [domain_name; challenge_file_path]] in
                match write_challenge domain_name challenge_file_path
                        (validation challenge) responses st with
                | (Ok _, responses, st, evs) =>
                    let '(r, st, evs') :=
                      setup rest http_challenge_directory responses st in
                    (r, st, start ++ evs ++ evs')
                | (Raise _, responses, st, evs) =>
                    (* remove already saved challenges *)
                    match remove_all responses.*2 (world st) with
                    | (Ok _, w) =>
                        (Raise (AcmeError "Unable to create acme-challenge file '{}'"
                                          [challenge_file_path]),
                         with_world st w, start ++ evs)
                    | (Raise e, w) => (Raise e, with_world st w, start ++ evs)
                    end
                end
            end
      end
  end.

(** The last loop: remove the challenge files and queue the
    [clear_http_challenge] hooks. *)
Fixpoint clear (responses : list (string * string)) (st : State)
  : res unit * State * list event :=
  match responses with
  | [] => (Ok (), st, [])
  | (domain_name, challenge_file) :: rest =>
      let start := [Log DEBUG "Removing http acme-challenge for %s" [domain_name]] in
      match remove challenge_file (world st) with
      | (Raise e, w) => (Raise e, with_world st w, start)
      | (Ok _, w) =>
          match hooks_add "clear_http_challenge" domain_name challenge_file
                          (with_world st w) with
          | (Raise e, st', evs) => (Raise e, st', start ++ evs)
          | (Ok _, st', evs) =>
              let '(r, st'', evs') := clear rest st' in
              (r, st'', start ++ evs ++ evs')
          end
      end
  end.

(** [handle_authorizations(order, fs, acme_client, retry, delay, hooks)];
    [fuel] bounds the iterations of the poll loop. *)
Definition handle_authorizations (fuel : nat) (order : list AuthorizationResource)
           (http_challenge_directory : string -> option string)
           (retry delay : Z) (st : State)
  : option (res (list AuthorizationResource) * State * list event) :=
  match collect order [] [] with
  | (Raise e, evs) => Some (Raise e, st, evs)
  | (Ok (authorizations, []), evs) =>
      (* All auth where already valid, nothing to do *)
      Some (Ok authorizations, st, evs)
  | (Ok (authorizations, (_ :: _) as authorization_resources), evs) =>
      match setup authorization_resources http_challenge_directory [] st with
      | (Raise e, st, evs1) => Some (Raise e, st, evs ++ evs1)
      | (Ok challenge_http_responses, st, evs1) =>
          let '(st, evs2) := hooks_call st in
          match _get_authorizations fuel authorization_resources retry delay st with
          | None => None
          | Some (Raise e, st, evs3) =>
              match remove_all challenge_http_responses.*2 (world st) with
              | (Ok _, w) => Some (Raise e, with_world st w, evs ++ evs1 ++ evs2 ++ evs3)
              | (Raise e', w) => Some (Raise e', with_world st w, evs ++ evs1 ++ evs2 ++ evs3)
              end
          | Some (Ok polled, st, evs3) =>
              (* Cleanup challenges *)
              match clear challenge_http_responses st with
              | (Raise e, st, evs4) => Some (Raise e, st, evs ++ evs1 ++ evs2 ++ evs3 ++ evs4)
              | (Ok _, st, evs4) =>
                  let '(st, evs5) := hooks_call st in
                  Some (Ok (authorizations ++ polled), st,
                        evs ++ evs1 ++ evs2 ++ evs3 ++ evs4 ++ evs5)
              end
          end
      end
  end.

End Authorize.

(** ** [acmebot/verify.py] *)

Module Verify.

(** A certificate as the verifier compares it: equal certificates have
    equal encodings. *)
Record Certificate := mkCert {
  der : string;
  common_name : string;
  has_oscp_must_staple : bool
}.

#[global] Instance certificate_eq_dec : EqDecision Certificate.
Proof. solve_decision. Defined.

Record CertificateItem := mkItem {
  name : string;
  type : string;
  certificate : Certificate;
  chain : list Certificate
}.

(** One entry of [socket.getaddrinfo]: the family and the address. *)
Record Addr := mkAddr { inet6 : bool; ip : string }.

(** An OCSP staple, as [ocsp_response_status] reads it. *)
Record Staple := mkStaple { ocsp_status : string }.

(** The network: name resolution, and what the [n]-th call of
    [fetch_tls_info] of the run returns for an address and a host
    name: the peer's certificates and its staple, or an exception. *)
Record Net := mkNet {
  getaddrinfo : string -> Z -> res (list Addr);
  tls : nat -> Addr -> string -> res (list Certificate * option Staple);
  fetched : nat
}.

Definition upper_char (c : ascii) : ascii :=
  let n := N_of_ascii c in
  if ((97 <=? n) && (n <=? 122))%N then ascii_of_N (n - 32) else c.

Fixpoint upper (s : string) : string :=
  match s with
  | EmptyString => EmptyString
  | String c s' => String (upper_char c) (upper s')
  end.

(** [fetch_tls_info(addr, ssl_context, host_name, starttls)] *)
Definition fetch_tls_info (addr : Addr) (host_name : string) (net : Net)
  : res (list Certificate * option Staple) * Net * list event :=
  (tls net (fetched net) addr host_name,
   mkNet (getaddrinfo net) (tls net) (S (fetched net)),
   [Fetch (ip addr) host_name]).

(** The [while (not ocsp_staple) and (attempts < max_ocsp_verify_attempts)]
    loop; [budget] is [max_ocsp_verify_attempts - attempts], the number
    of iterations the second condition still allows. *)
Fixpoint retry_staple (budget : nat) (ocsp_verify_retry_delay : Z)
         (addr : Addr) (host_name : string)
         (installed : list Certificate * option Staple) (net : Net)
  : res (list Certificate * option Staple) * Net * list event :=
  match snd installed, budget with
  | Some _, _ | None, O => (Ok installed, net, [])
  | None, S budget' =>
      let start := [Sleep ocsp_verify_retry_delay;
                    Log DEBUG "Retry to fetch OCSP staple" []] in
      match fetch_tls_info addr host_name net with
      | (Ok installed', net', evs) =>
          let '(r, net'', evs') :=
            retry_staple budget' ocsp_verify_retry_delay addr host_name installed' net' in
          (r, net'', start ++ evs ++ evs')
      | (Raise e, net', evs) => (Raise e, net', start ++ evs)
      end
  end.

(** Lines 110-117: the first handshake and, for a must-staple
    certificate, the retries. *)
Definition fetch_with_retries (item : CertificateItem) (addr : Addr)
           (host_name : string) (max_ocsp_verify_attempts ocsp_verify_retry_delay : Z)
           (net : Net)
  : res (list Certificate * option Staple) * Net * list event :=
  match fetch_tls_info addr host_name net with
  | (Ok installed, net', evs) =>
      if has_oscp_must_staple (certificate item) then
        let attempts := 1 in
        let '(r, net'', evs') :=
          retry_staple (Z.to_nat (max_ocsp_verify_attempts - attempts))
                       ocsp_verify_retry_delay addr host_name installed net' in
        (r, net'', evs ++ evs')
      else (Ok installed, net', evs)
  | (Raise e, net', evs) => (Raise e, net', evs)
  end.

Definition label (item : CertificateItem) : list string :=
  [name item; upper (type item)].

(** The comparison of the intermediates, pairwise. *)
Fixpoint compare_chain (item : CertificateItem) (host_desc : string)
         (expected installed : list Certificate) : list event :=
  match expected, installed with
  | intermediate :: e', installed_intermediate :: i' =>
      (if decide (intermediate = installed_intermediate)
       then Log INFO "[%s:%s] Intermediate certificate '%s' present on %s"
                (label item ++ [common_name intermediate; host_desc])
       else Log ERROR "[%s:%s] VALIDATION ERROR: Intermediate certificate '%s' mismatch on %s"
                (label item ++ [common_name installed_intermediate; host_desc]))
      :: compare_chain item host_desc e' i'
  | _, _ => []
  end.

(** Lines 119-146: what is logged about the answer of one address. *)
Definition report (item : CertificateItem) (host_desc : string)
           (installed_certificates : list Certificate) (ocsp_staple : option Staple)
  : res (list event) :=
  match installed_certificates with
  | [] => Raise IndexError
  | installed_certificate :: installed_chain =>
      let leaf :=
        if decide (certificate item = installed_certificate)
        then Log INFO "[%s:%s] certificate present on %s" (label item ++ [host_desc])
        else Log ERROR "[%s:%s] VALIDATION ERROR: certificate %s mismatch on %s"
                 (label item ++ [common_name installed_certificate; host_desc]) in
      let intermediates :=
        if negb (length (chain item) =? length installed_chain)%nat
        then [Log ERROR "[%s:%s] VALIDATION ERROR: certificate chain length mismatch on %s, got %s intermediate(s), expected %s"
                  (label item ++ [host_desc; pretty (length installed_chain);
                                  pretty (length (chain item))])]
        else compare_chain item host_desc (chain item) installed_chain in
      let staple :=
        match ocsp_staple with
        | Some s =>
            [Log DEBUG "Verify OCSP response status" [];
             if String.eqb "good" (Str.lower (ocsp_status s))
             then Log INFO "OCSP staple status is GOOD on %s" [host_desc]
             else Log ERROR "ERROR: OCSP staple has status: %s on %s"
                      [upper (ocsp_status s); host_desc]]
        | None =>
            if has_oscp_must_staple (certificate item)
            then [Log ERROR "[%s:%s] VALIDATION ERROR: Certificate has OCSP Must-Staple but no OSCP staple found on %s"
                      (label item ++ [host_desc])]
            else []
        end in
      Ok (leaf :: intermediates ++ staple)
  end.

(** The body of [for addr in addr_info]. *)
Definition verify_addr (item : CertificateItem) (host_name : string)
           (port_number : Z) (max_ocsp_verify_attempts ocsp_verify_retry_delay : Z)
           (addr : Addr) (net : Net) : Net * list event :=
  let host_desc :=
    host_name +:+ " at "
    +:+ (if inet6 addr then "[" +:+ ip addr +:+ "]" else ip addr)
    +:+ ":" +:+ pretty port_number in
  let start := [Log DEBUG "Connecting to %s with %s ciphers" [host_desc; upper (type item)]] in
  let failed (e : exn) :=
    [Log ERROR "[%s:%s] VALIDATION ERROR: Unable to connect to %s: %s"
         (label item ++ [host_desc; Utils.exn_name e])] in
  match fetch_with_retries item addr host_name max_ocsp_verify_attempts
                           ocsp_verify_retry_delay net with
  | (Ok (installed_certificates, ocsp_staple), net', evs) =>
      match report item host_desc installed_certificates ocsp_staple with
      | Ok evs' => (net', start ++ evs ++ evs')
      | Raise e => (net', start ++ evs ++ failed e)
      end
  | (Raise e, net', evs) => (net', start ++ evs ++ failed e)
  end.

Fixpoint verify_addrs (item : CertificateItem) (host_name : string)
         (port_number : Z) (max_ocsp_verify_attempts ocsp_verify_retry_delay : Z)
         (addr_info : list Addr) (net : Net) : Net * list event :=
  match addr_info with
  | [] => (net, [])
  | addr :: rest =>
      let '(net', evs) :=
        verify_addr item host_name port_number max_ocsp_verify_attempts
                    ocsp_verify_retry_delay addr net in
      let '(net'', evs') :=
        verify_addrs item host_name port_number max_ocsp_verify_attempts
                     ocsp_verify_retry_delay rest net' in
      (net'', evs ++ evs')
  end.

(** [_verify_certificate_installation(item, host_name, port_number,
    starttls, cipher_list, max_ocsp_verify_attempts,
    ocsp_verify_retry_delay)] *)
Definition _verify_certificate_installation (item : CertificateItem)
           (host_name : string) (port_number : Z)
           (max_ocsp_verify_attempts ocsp_verify_retry_delay : Z) (net : Net)
  : Net * list event :=
  let host_name :=
    if Str.startswith "*." host_name
    then "wildcard-test." +:+ Str.drop 2 host_name
    else host_name in
  match getaddrinfo net host_name port_number with
  | Raise error =>
      (net, [Resolve host_name port_number;
             Log ERROR "[%s:%s] VALIDATION ERROR: Unable to get address for %s: %s"
                 (label item ++ [host_name; Utils.exn_name error])])
  | Ok addr_info =>
      let '(net', evs) :=
        verify_addrs item host_name port_number max_ocsp_verify_attempts
                     ocsp_verify_retry_delay addr_info net in
      (net', Resolve host_name port_number :: evs)
  end.

End Verify.

(** ** [acmebot/verify.py]: [_send_starttls] *)

Module Starttls.

(** What the function does to its socket and to the log, oldest
    first. *)
Inductive action :=
| SetTimeout (seconds : option Z)
| Recv
| Send (data : string)
| Shutdown
| Close
| Debug (fmt : string) (args : list string).

(** How the function ends when it raises. *)
Inductive failure :=
(** [AcmeError('STARTTLS not supported on server')] *)
| NotSupported
(** [Exception('Unsuppoprted STARTTLS type: ' + ty)] *)
| Unsupported (ty : string)
(** [sock.shutdown()] called without its argument *)
| TypeError
(** [str.encode('ascii')] of a name with other characters *)
| UnicodeEncodeError
(** whatever [recv], [send] or [shutdown] raised *)
| SocketError (e : exn).

#[global] Instance action_eq_dec : EqDecision action.
Proof. solve_decision. Defined.
#[global] Instance failure_eq_dec : EqDecision failure.
Proof. solve_decision. Defined.

(** The peer and the connection: what the [n]-th [recv] returns, what
    the [n]-th [send] does with its data, and what [shutdown] does. *)
Record Socket := mkSocket {
  recv : nat -> res string;
  send : nat -> string -> res unit;
  shutdown : res unit;
  received : nat;
  sent : nat
}.

(** A small monad for the calls on the socket: the state is the
    socket and the actions so far. *)
Definition M (A : Type) : Type :=
  Socket -> list action -> (A + failure) * Socket * list action.

Definition ret {A} (a : A) : M A := fun s t => (inl a, s, t).
Definition fail {A} (f : failure) : M A := fun s t => (inr f, s, t).
Definition bind {A B} (m : M A) (k : A -> M B) : M B :=
  fun s t =>
    match m s t with
    | (inl a, s', t') => k a s' t'
    | (inr f, s', t') => (inr f, s', t')
    end.

#[local] Notation "x <- m ;; k" := (bind m (fun x => k))
  (at level 100, m at next level, right associativity).
#[local] Notation "m ;; k" := (bind m (fun _ => k))
  (at level 100, right associativity).

Definition act (a : action) : M unit := fun s t => (inl tt, s, t ++ [a]).

(** [sock.settimeout(seconds)] *)
Definition settimeout (seconds : option Z) : M unit := act (SetTimeout seconds).

(** [sock.recv(4096)] *)
Definition sock_recv : M string :=
  fun s t =>
    let s' := mkSocket (recv s) (send s) (shutdown s) (S (received s)) (sent s) in
    match recv s (received s) with
    | Ok data => (inl data, s', t ++ [Recv])
    | Raise e => (inr (SocketError e), s', t ++ [Recv])
    end.

(** [sock.send(data)] *)
Definition sock_send (data : string) : M unit :=
  fun s t =>
    let s' := mkSocket (recv s) (send s) (shutdown s) (received s) (S (sent s)) in
    match send s (sent s) data with
    | Ok _ => (inl tt, s', t ++ [Send data])
    | Raise e => (inr (SocketError e), s', t ++ [Send data])
    end.

(** [sock.shutdown(socket.SHUT_RDWR)] *)
Definition sock_shutdown : M unit :=
  fun s t =>
    match shutdown s with
    | Ok _ => (inl tt, s, t ++ [Shutdown])
    | Raise e => (inr (SocketError e), s, t ++ [Shutdown])
    end.

(** [sock.close()] *)
Definition sock_close : M unit := act Close.

(** [log.debug(fmt, *args)] *)
Definition debug (fmt : string) (args : list string) : M unit := act (Debug fmt args).

(** [needle in hay], for bytes. *)
Fixpoint contains (needle hay : string) : bool :=
  Str.startswith needle hay
  || match hay with
     | EmptyString => false
     | String _ rest => contains needle rest
     end.

Definition crlf : string := String "013" (String "010" "").
Definition lf : string := String "010" "".
Definition quoted (s : string) : string := String "034" (s +:+ String "034" "").

(** [s.encode('ascii')] *)
Definition is_ascii (s : string) : bool :=
  forallb (fun c => (N_of_ascii c <? 128)%N) (Str.chars s).

Definition encode_ascii (s : string) : M string :=
  if is_ascii s then ret s else fail UnicodeEncodeError.

(** The opening of the XMPP stream, after [format(host=host_name)]. *)
Definition xmpp_stream (host_name : string) : string :=
  "<stream:stream xmlns:stream=" +:+ quoted "http://etherx.jabber.org/streams"
  +:+ " xmlns=" +:+ quoted "jabber:client"
  +:+ " to=" +:+ quoted host_name
  +:+ " version=" +:+ quoted "1.0" +:+ ">" +:+ lf.

Definition xmpp_starttls : string :=
  "<starttls xmlns=" +:+ quoted "urn:ietf:params:xml:ns:xmpp-tls" +:+ "/>".

(** [_send_starttls(ty, sock, host_name)] *)
Definition _send_starttls (ty host_name : string) : M unit :=
  settimeout (Some 30) ;;
  let ty := Str.lower ty in
  (if String.eqb "smtp" ty then
     data <- sock_recv ;; debug "SMTP: %s" [data] ;;
     sock_send ("ehlo acmebot.org" +:+ crlf) ;;
     buffer <- sock_recv ;; debug "SMTP: %s" [buffer] ;;
     (if negb (contains "STARTTLS" buffer)
      then sock_shutdown ;; sock_close ;; fail NotSupported
      else ret tt) ;;
     sock_send ("starttls" +:+ crlf) ;;
     data <- sock_recv ;; debug "SMTP: %s" [data]
   else if String.eqb "pop3" ty then
     data <- sock_recv ;; debug "POP3: %s" [data] ;;
     sock_send ("STLS" +:+ crlf) ;;
     data <- sock_recv ;; debug "POP3: %s" [data]
   else if String.eqb "imap" ty then
     data <- sock_recv ;; debug "IMAP: %s" [data] ;;
     sock_send ("a001 STARTTLS" +:+ crlf) ;;
     data <- sock_recv ;; debug "IMAP: %s" [data]
   else if String.eqb "ftp" ty then
     data <- sock_recv ;; debug "FTP: %s" [data] ;;
     sock_send ("AUTH TLS" +:+ crlf) ;;
     data <- sock_recv ;; debug "FTP: %s" [data]
   else if String.eqb "xmpp" ty then
     stream <- encode_ascii (xmpp_stream host_name) ;;
     sock_send stream ;;
     data <- sock_recv ;; debug "XMPP: %s" [data; lf] ;;
     sock_send xmpp_starttls ;;
     data <- sock_recv ;; debug "XMPP: %s" [data; lf]
   else if String.eqb "sieve" ty then
     buffer <- sock_recv ;; debug "SIEVE: %s" [buffer] ;;
     (if negb (contains (quoted "STARTTLS") buffer)
      then fail TypeError
      else ret tt) ;;
     sock_send ("StartTls" +:+ crlf) ;;
     data <- sock_recv ;; debug "SIEVE: %s" [data]
   else
     sock_shutdown ;; sock_close ;; fail (Unsupported ty)) ;;
  settimeout None.

End Starttls.

(** * Properties *)

(** ** Reading event lists *)

Module Events.

Definition is_log (e : event) : bool :=
  match e with Log _ _ _ => true | _ => false end.

Definition is_error (e : event) : bool :=
  match e with Log ERROR _ _ => true | _ => false end.

Definition is_warning (e : event) : bool :=
  match e with Log WARNING _ _ => true | _ => false end.

(** The targets of the operations applied, reverted and cleaned up, in
    the order of the calls. *)
Fixpoint applyings (evs : list event) : list string :=
  match evs with
  | [] => []
  | Applying p :: r => p :: applyings r
  | _ :: r => applyings r
  end.

Fixpoint revertings (evs : list event) : list string :=
  match evs with
  | [] => []
  | Reverting p :: r => p :: revertings r
  | _ :: r => revertings r
  end.

Fixpoint cleanings (evs : list event) : list string :=
  match evs with
  | [] => []
  | Cleaning p :: r => p :: cleanings r
  | _ :: r => cleanings r
  end.

(** The commands started, in order, with the hook they belong to. *)
Fixpoint execs (evs : list event) : list (string * list string) :=
  match evs with
  | [] => []
  | Exec n a :: r => (n, a) :: execs r
  | _ :: r => execs r
  end.

(** The registrations submitted and the questions asked, in order. *)
Fixpoint accounts (evs : list event) : list (string * bool) :=
  match evs with
  | [] => []
  | NewAccount a t :: r => (a, t) :: accounts r
  | _ :: r => accounts r
  end.

Fixpoint inputs (evs : list event) : list string :=
  match evs with
  | [] => []
  | Input p :: r => p :: inputs r
  | _ :: r => inputs r
  end.

(** The domains polled, in order. *)
Fixpoint polls (evs : list event) : list string :=
  match evs with
  | [] => []
  | Poll d :: r => d :: polls r
  | _ :: r => polls r
  end.

(** The TLS handshakes, in order: the address dialled and the host
    name asked for. *)
Fixpoint fetches (evs : list event) : list (string * string) :=
  match evs with
  | [] => []
  | Fetch i h :: r => (i, h) :: fetches r
  | _ :: r => fetches r
  end.

(** The names handed to the resolver, in order. *)
Fixpoint resolved (evs : list event) : list string :=
  match evs with
  | [] => []
  | Resolve h _ :: r => h :: resolved r
  | _ :: r => resolved r
  end.

(** Handshakes and sleeps, in order: [None] for a handshake, [Some d]
    for a sleep of [d] seconds. *)
Fixpoint timeline (evs : list event) : list (option Z) :=
  match evs with
  | [] => []
  | Fetch _ _ :: r => None :: timeline r
  | Sleep d :: r => Some d :: timeline r
  | _ :: r => timeline r
  end.

Ltac proj_app :=
  let a := fresh "a" in
  let IH := fresh "IH" in
  intros a; induction a as [|[] a IH]; intros; simpl; rewrite ?IH; done.

Lemma applyings_app : forall a b, applyings (a ++ b) = applyings a ++ applyings b.
Proof. proj_app. Qed.
Lemma revertings_app : forall a b, revertings (a ++ b) = revertings a ++ revertings b.
Proof. proj_app. Qed.
Lemma cleanings_app : forall a b, cleanings (a ++ b) = cleanings a ++ cleanings b.
Proof. proj_app. Qed.
Lemma execs_app : forall a b, execs (a ++ b) = execs a ++ execs b.
Proof. proj_app. Qed.
Lemma accounts_app : forall a b, accounts (a ++ b) = accounts a ++ accounts b.
Proof. proj_app. Qed.
Lemma inputs_app : forall a b, inputs (a ++ b) = inputs a ++ inputs b.
Proof. proj_app. Qed.
Lemma polls_app : forall a b, polls (a ++ b) = polls a ++ polls b.
Proof. proj_app. Qed.
Lemma fetches_app : forall a b, fetches (a ++ b) = fetches a ++ fetches b.
Proof. proj_app. Qed.
Lemma resolved_app : forall a b, resolved (a ++ b) = resolved a ++ resolved b.
Proof. proj_app. Qed.
Lemma timeline_app : forall a b, timeline (a ++ b) = timeline a ++ timeline b.
Proof. proj_app. Qed.

(** Log records are none of the above. *)
Lemma logs_silent evs :
  forallb is_log evs = true ->
  applyings evs = [] /\ revertings evs = [] /\ cleanings evs = []
  /\ execs evs = [] /\ accounts evs = [] /\ inputs evs = []
  /\ polls evs = [] /\ fetches evs = [] /\ resolved evs = []
  /\ timeline evs = [].
Proof.
  induction evs as [|e evs IH]; [done|].
  destruct e; simpl; try discriminate; auto.
Qed.

(** What the file operations emit: log records and their own marks. *)
Definition is_fs (e : event) : bool :=
  match e with
  | Log _ _ _ | Applying _ | Reverting _ | Cleaning _ => true
  | _ => false
  end.

Lemma fs_silent evs :
  forallb is_fs evs = true ->
  execs evs = [] /\ accounts evs = [] /\ inputs evs = [] /\ polls evs = [].
Proof.
  induction evs as [|e evs IH]; [done|].
  destruct e; simpl; try discriminate; auto.
Qed.

Lemma logs_are_fs evs : forallb is_log evs = true -> forallb is_fs evs = true.
Proof.
  induction evs as [|e evs IH]; [done|].
  destruct e; simpl; try discriminate; auto.
Qed.


End Events.

(** ** Strings and character lists *)

Module StrFacts.

Lemma chars_app a b : Str.chars (a +:+ b) = Str.chars a ++ Str.chars b.
Proof. induction a as [|c a IH]; [done|]. simpl. by rewrite <- IH. Qed.

Lemma of_chars_chars s : Str.of_chars (Str.chars s) = s.
Proof. apply string_of_list_ascii_of_string. Qed.

Lemma chars_of_chars l : Str.chars (Str.of_chars l) = l.
Proof. apply list_ascii_of_string_of_list_ascii. Qed.


Lemma chars_length a : length (Str.chars a) = String.length a.
Proof. induction a as [|c a IH]; [done|]. simpl. by rewrite <- IH. Qed.

Lemma startswith_spec a b :
  Str.startswith a b = true <-> exists k, Str.chars b = Str.chars a ++ k.
Proof.
  revert b. induction a as [|c a IH]; intros b.
  - split; [by exists (Str.chars b)|done].
  - destruct b as [|c' b]; cbn.
    + split; [done|]. by intros [k ?].
    + rewrite andb_true_iff, IH. split.
      * intros [Hc [k Hk]]. apply Ascii.eqb_eq in Hc as ->.
        exists k. by f_equal.
      * intros [k [= -> Hk]]. split; [apply Ascii.eqb_refl|by exists k].
Qed.




End StrFacts.

(** ** The file system *)

Module PosixFacts.
Import Posix StrFacts.

(** Directory operations and name drawing leave the regular files
    alone. *)

Lemma mkdir_files p w : files (mkdir p w).2 = files w.
Proof. unfold mkdir. by repeat case_match. Qed.

Lemma mkdir_missing_files ds w : files (mkdir_missing ds w) = files w.
Proof.
  revert w. induction ds as [|d ds IH]; intros w; simpl; [done|].
  case_match; rewrite IH; [done|apply mkdir_files].
Qed.

Lemma makedirs_files d m w : files (makedirs d m w).2 = files w.
Proof. unfold makedirs. by rewrite mkdir_files, mkdir_missing_files. Qed.

Lemma makedirs_exist_ok_files d m w : files (makedirs_exist_ok d m w).2 = files w.
Proof.
  unfold makedirs_exist_ok. pose proof (makedirs_files d m w) as H.
  destruct (makedirs d m w) as [r w']. simpl in H. by repeat case_match.
Qed.

Lemma rmdir_files p w : files (rmdir p w).2 = files w.
Proof. unfold rmdir. by repeat case_match. Qed.

Lemma rmdir_upwards_files ds w : files (rmdir_upwards ds w) = files w.
Proof.
  revert w. induction ds as [|d ds IH]; intros w; simpl; [done|].
  pose proof (rmdir_files d w) as H.
  destruct (rmdir d w) as [[]]; simpl in H; [|done]. by rewrite IH.
Qed.

Lemma removedirs_files d w : files (removedirs d w).2 = files w.
Proof.
  unfold removedirs. pose proof (rmdir_files d w) as H.
  destruct (rmdir d w) as [[]]; simpl in *; [|done].
  by rewrite rmdir_upwards_files.
Qed.

Lemma mktemp_loop_files n prefix dir w : files (mktemp_loop n prefix dir w).2 = files w.
Proof.
  revert w. induction n as [|n IH]; intros w; simpl; [done|].
  case_match; [|done]. by rewrite IH.
Qed.

Lemma mktemp_files prefix dir w : files (mktemp prefix dir w).2 = files w.
Proof. apply mktemp_loop_files. Qed.

(** After [makedirs] created the directory, or found the name taken,
    something is there. *)
Lemma makedirs_there d m w r w' :
  makedirs d m w = (r, w') ->
  r = Ok () \/ r = Raise FileExistsError ->
  Str.truthy d = true /\ exists_ w' d = true.
Proof.
  unfold makedirs, mkdir. set (w0 := mkdir_missing _ w).
  destruct (Str.truthy d) eqn:Hd; simpl; [|intros [= <- <-] [|]; done].
  destruct (exists_ w0 d) eqn:Hex; [intros [= <- <-] _; done|].
  destruct (isfile w0 (dirname d)); [intros [= <- <-] [|]; done|].
  destruct (parent_ok w0 d); simpl; [|intros [= <- <-] [|]; done].
  intros [= <- <-] _. split; [done|].
  unfold exists_, isdir. simpl.
  rewrite (bool_decide_eq_true_2 (d ∈ {[d]} ∪ dirs w0)) by set_solver.
  by rewrite !orb_true_r.
Qed.

(** [os.path.join] of anything with a non-empty name is non-empty. *)
Lemma truthy_app a b : Str.truthy b = true -> Str.truthy (a +:+ b) = true.
Proof. destruct a; [done|]. by intros _. Qed.

Lemma join_truthy a b : Str.truthy b = true -> Str.truthy (join a b) = true.
Proof.
  intros Hb. unfold join. case_match; [done|].
  case_match; by repeat apply truthy_app.
Qed.

Lemma join_truthy_l a b : Str.truthy a = true -> Str.truthy (join a b) = true.
Proof.
  intros Ha. unfold join. case_match eqn:Hs.
  - destruct b; [done|done].
  - case_match; destruct a; done.
Qed.

Lemma mktemp_truthy prefix dir w t w' :
  Str.truthy prefix = true ->
  mktemp prefix dir w = (Ok t, w') -> Str.truthy t = true.
Proof.
  intros Hp. unfold mktemp. generalize TMP_MAX. intros n. revert w.
  induction n as [|n IH]; intros w; simpl; [done|].
  case_match; [apply IH|]. intros [= <- <-].
  apply join_truthy. destruct prefix; done.
Qed.


(** *** Paths and their directories *)

Lemma rsplit_parts l : l = (rsplit l).1 ++ (rsplit l).2.
Proof.
  induction l as [|c l IH]; [done|]. simpl.
  destruct (existsb is_sep l); simpl; [by rewrite <- IH|].
  by destruct (is_sep c).
Qed.

(** The head that [rsplit] cuts off is empty or ends with a slash. *)
Lemma rsplit_head l :
  ((rsplit l).1 = [] /\ existsb is_sep l = false)
  \/ exists x, (rsplit l).1 = x ++ ["/"%char].
Proof.
  induction l as [|c l IH]; [by left|]. simpl.
  destruct (existsb is_sep l) eqn:Hl; simpl.
  - right. destruct IH as [[_ ?]|[x Hx]]; [done|].
    exists (c :: x). by rewrite Hx.
  - unfold is_sep at 1 2. destruct (Ascii.eqb_spec c "/") as [->|Hc]; simpl.
    + right. by exists [].
    + by left.
Qed.

Lemma drop_while_suffix {A} (f : A -> bool) l :
  exists k, l = k ++ Str.drop_while f l /\ forallb f k = true.
Proof.
  induction l as [|x l (k & IH & Hk)]; [by exists []|]. simpl.
  destruct (f x) eqn:Hx; [|by exists []].
  exists (x :: k). simpl. by rewrite <- IH, Hx.
Qed.

Lemma rstrip_sep_parts l :
  exists k, l = rstrip_sep l ++ k /\ forallb is_sep k = true.
Proof.
  unfold rstrip_sep.
  destruct (drop_while_suffix is_sep (rev l)) as (k & Hk & Hall).
  exists (rev k). split.
  - apply (f_equal (@rev ascii)) in Hk.
    by rewrite rev_involutive, rev_app_distr in Hk.
  - rewrite forallb_forall in Hall |- *. intros c Hc. apply Hall. by apply in_rev.
Qed.

(** A directory name is a prefix of the path it was taken from. *)
Lemma dirname_prefix p :
  exists k, Str.chars p = Str.chars (dirname p) ++ k.
Proof.
  unfold dirname. pose proof (rsplit_parts (Str.chars p)) as Hparts.
  destruct (rsplit (Str.chars p)).1 as [|c head] eqn:Hh.
  { by exists (Str.chars p). }
  destruct (forallb is_sep (c :: head)).
  { rewrite chars_of_chars. by eexists. }
  rewrite chars_of_chars.
  destruct (rstrip_sep_parts (c :: head)) as (k & Hk & _).
  exists (k ++ (rsplit (Str.chars p)).2).
  rewrite app_assoc, <- Hk. exact Hparts.
Qed.

Lemma beneath_spec d k :
  beneath d k = true <-> exists r, Str.chars k = Str.chars d ++ "/"%char :: r.
Proof.
  unfold beneath. rewrite startswith_spec. rewrite chars_app.
  change (Str.chars "/") with ["/"%char].
  split; intros [r Hr]; exists r; by rewrite Hr, <- app_assoc in *.
Qed.

Lemma beneath_differs d k : beneath d k = true -> d <> k.
Proof.
  intros [r Hr]%beneath_spec ->. apply (f_equal length) in Hr.
  rewrite length_app in Hr. simpl in Hr. lia.
Qed.

Lemma beneath_prefix x d p :
  beneath x d = true ->
  (exists k, Str.chars p = Str.chars d ++ k) -> beneath x p = true.
Proof.
  intros [r Hr]%beneath_spec [k Hk]. apply beneath_spec.
  exists (r ++ k). by rewrite Hk, Hr, <- app_assoc.
Qed.

(** A path goes through its directory, unless that is the current
    directory or the root. *)
Lemma dirname_beneath p :
  Str.truthy (dirname p) = true -> is_root (dirname p) = false ->
  beneath (dirname p) p = true.
Proof.
  unfold is_root. intros Ht Hroot. rewrite Ht in Hroot. simpl in Hroot.
  apply beneath_spec. revert Ht Hroot. unfold dirname.
  pose proof (rsplit_parts (Str.chars p)) as Hparts.
  pose proof (rsplit_head (Str.chars p)) as Hhead.
  destruct (rsplit (Str.chars p)) as [head tail]. simpl in *.
  destruct Hhead as [[-> _]|[x ->]]; [done|].
  assert (Hm : forall h : list ascii, h <> [] ->
            match h with
            | [] => h
            | _ :: _ => if forallb is_sep h then h else rstrip_sep h
            end = if forallb is_sep h then h else rstrip_sep h)
    by (by intros []).
  rewrite Hm by (by destruct x). clear Hm.
  destruct (forallb is_sep (x ++ ["/"%char])) eqn:Hall.
  { intros _. by rewrite chars_of_chars, Hall. }
  intros _ _. rewrite chars_of_chars.
  assert (Hstrip : rstrip_sep (x ++ ["/"%char]) = rstrip_sep x).
  { unfold rstrip_sep. by rewrite rev_app_distr. }
  rewrite Hstrip. destruct (rstrip_sep_parts x) as (k & Hk & Hseps).
  assert (Hk' : exists k', k ++ ["/"%char] = "/"%char :: k').
  { destruct k as [|c k]; [by exists []|]. simpl in Hseps.
    apply andb_true_iff in Hseps as [Hc _]. apply Ascii.eqb_eq in Hc as ->.
    by eexists. }
  destruct Hk' as [k' Hk'].
  exists (k' ++ tail). rewrite Hparts.
  assert (x ++ ["/"%char] = rstrip_sep x ++ "/"%char :: k') as ->.
  { rewrite <- Hk'. rewrite app_assoc. by rewrite <- Hk. }
  by rewrite <- app_assoc.
Qed.


(** A path goes through each of the directories above it. *)
Lemma ancestors_beneath n p x :
  x ∈ ancestors n p -> is_root x = false -> beneath x p = true.
Proof.
  revert p. induction n as [|n IH]; intros p; simpl; [by intros ?%elem_of_nil|].
  destruct (negb (Str.truthy (dirname p)) || String.eqb (dirname p) p) eqn:E;
    [by intros ?%elem_of_nil|].
  apply orb_false_iff in E as [Ht%negb_false_iff _].
  intros [->|Hin]%elem_of_cons Hroot.
  - by apply dirname_beneath.
  - eapply beneath_prefix; [by apply IH|apply dirname_prefix].
Qed.

(** *** Making directories *)

Lemma mkdir_dirs p w x :
  x ∈ dirs (mkdir p w).2 -> (x = p /\ Str.truthy p = true) \/ x ∈ dirs w.
Proof.
  unfold mkdir. destruct (Str.truthy p); simpl; [|auto].
  repeat case_match; simpl; auto.
  intros [->%elem_of_singleton|?]%elem_of_union; auto.
Qed.

Lemma mkdir_missing_dirs ds w d :
  d ∉ ds -> d ∉ dirs w -> d ∉ dirs (mkdir_missing ds w).
Proof.
  revert w. induction ds as [|x ds IH]; intros w Hds Hd; simpl; [done|].
  apply not_elem_of_cons in Hds as [Hne Hds].
  destruct (exists_ w x); [by apply IH|]. apply IH; [done|].
  by intros [[-> _]|?]%mkdir_dirs.
Qed.

(** The directories [makedirs] adds are the one asked for and
    directories above it. *)
Lemma makedirs_dirs d m w x :
  x ∈ dirs (makedirs d m w).2 -> x ∉ dirs w ->
  (x = d /\ Str.truthy d = true) \/ x ∈ ancestors (String.length d) d.
Proof.
  unfold makedirs. intros [Hd|Hin]%mkdir_dirs Hnew; [by left|right].
  destruct (decide (x ∈ rev (ancestors (String.length d) d))) as [Hyes|Hno].
  - by apply list_elem_of_In, in_rev, list_elem_of_In in Hyes.
  - by destruct (mkdir_missing_dirs _ _ _ Hno Hnew).
Qed.

(** A directory that [makedirs] made on the way to a path is one the
    path goes through. *)
Lemma makedirs_beneath p m w x :
  x ∈ dirs (makedirs (dirname p) m w).2 -> isdir w x = false ->
  beneath x p = true.
Proof.
  unfold isdir. intros Hin [Hroot Hnew%bool_decide_eq_false]%orb_false_iff.
  destruct (makedirs_dirs _ _ _ _ Hin Hnew) as [[-> Ht]|Hanc].
  - by apply dirname_beneath.
  - eapply beneath_prefix; [by eapply ancestors_beneath|apply dirname_prefix].
Qed.

Lemma mktemp_loop_dirs n prefix dir w : dirs (mktemp_loop n prefix dir w).2 = dirs w.
Proof.
  revert w. induction n as [|n IH]; intros w; simpl; [done|].
  case_match; [|done]. by rewrite IH.
Qed.

Lemma mktemp_dirs prefix dir w : dirs (mktemp prefix dir w).2 = dirs w.
Proof. apply mktemp_loop_dirs. Qed.

(** *** Renaming *)


(** What comes out of [os.rename]: a regular file is moved; or nothing
    is there; or a directory is moved with what lies beneath it. *)
Lemma rename_spec src dst w r w' :
  rename src dst w = (r, w') ->
  match files w !! src with
  | Some v =>
      (r = Ok () /\ files w' = <[dst := v]> (delete src (files w))
       /\ dirs w' = dirs w)
      \/ (exists e, r = Raise e) /\ w' = w
  | None =>
      ((exists e, r = Raise e /\ (isdir w src = false -> e = FileNotFoundError))
       /\ w' = w)
      \/ (r = Ok () /\ isdir w src = true
          /\ ((src = dst /\ w' = w)
              \/ (beneath src dst = false /\ beneath dst src = false
                  /\ files w !! dst = None
                  /\ files w' = kmap (rebase src dst) (files w)
                  /\ dirs w' = set_map (rebase src dst) (dirs w))))
  end.
Proof.
  unfold rename. destruct (files w !! src) as [v|] eqn:Hsrc.
  - repeat case_match; intros [= <- <-]; eauto.
  - destruct (isdir w src) eqn:Hdir; simpl.
    2:{ intros [= <- <-]. left. eauto. }
    destruct (negb (Str.truthy dst)); [intros [= <- <-]; left; split; [by eexists|done]|].
    destruct (isfile w (dirname dst)); [intros [= <- <-]; left; split; [by eexists|done]|].
    destruct (negb (parent_ok w dst)); [intros [= <- <-]; left; split; [by eexists|done]|].
    destruct (is_root src || is_root dst); [intros [= <- <-]; left; split; [by eexists|done]|].
    destruct (String.eqb_spec src dst) as [->|Hne]; [intros [= <- <-]; right; auto|].
    destruct (beneath src dst) eqn:Hsd; [intros [= <- <-]; left; split; [by eexists|done]|].
    destruct (isfile w dst) eqn:Hfile; [intros [= <- <-]; left; split; [by eexists|done]|].
    destruct (beneath dst src) eqn:Hds; simpl;
      [intros [= <- <-]; left; split; [by eexists|done]|].
    destruct (isdir w dst && negb (dir_empty w dst));
      [intros [= <- <-]; left; split; [by eexists|done]|].
    intros [= <- <-]. right. split_and!; try done. right. split_and!; try done.
    unfold isfile in Hfile. apply bool_decide_eq_false in Hfile.
    by apply eq_None_not_Some.
Qed.

(** A rename that succeeds on a path that holds a regular file, or at
    least no directory, has moved a regular file. *)
Lemma rename_ok src dst w w' :
  rename src dst w = (Ok (), w') ->
  is_Some (files w !! src) \/ isdir w src = false ->
  exists v, files w !! src = Some v
            /\ files w' = <[dst := v]> (delete src (files w))
            /\ dirs w' = dirs w.
Proof.
  intros Hren%rename_spec Hreg.
  destruct (files w !! src) as [v|] eqn:Hsrc.
  - destruct Hren as [(_ & ? & ?)|[[e [=]] _]]. by exists v.
  - destruct Hreg as [[? [=]]|Hdir].
    destruct Hren as [[(e & [=] & _) _]|(_ & Hd & _)]. congruence.
Qed.

Lemma rename_raise src dst w e w' :
  rename src dst w = (Raise e, w') -> w' = w.
Proof.
  intros Hren%rename_spec. destruct (files w !! src).
  - by destruct Hren as [([=] & _)|[_ ->]].
  - by destruct Hren as [[_ ->]|([=] & _)].
Qed.

Lemma rename_missing src dst w w' :
  rename src dst w = (Raise FileNotFoundError, w') ->
  Str.truthy dst = true ->
  exists_ w (dirname dst) = true ->
  files w !! src = None.
Proof.
  unfold rename. destruct (files w !! src) as [v|]; [|done].
  intros H Hd Hex. rewrite Hd in H. simpl in H.
  destruct (isdir w dst); [done|].
  destruct (isfile w (dirname dst)) eqn:Hf; [done|].
  unfold parent_ok in H. unfold exists_ in Hex. rewrite Hf in Hex. simpl in Hex.
  rewrite Hex, orb_true_r in H. done.
Qed.




Lemma remove_ok p w w' :
  remove p w = (Ok (), w') -> files w' = delete p (files w).
Proof. unfold remove. repeat case_match; try done. by intros [= <-]. Qed.

Lemma remove_raise p w e w' :
  remove p w = (Raise e, w') -> w' = w /\ files w !! p = None.
Proof. unfold remove. repeat case_match; try done; by intros [= <- <-]. Qed.

Lemma write_file_ok p c w w' :
  write_file p c w = (Ok (), w') -> files w' = <[p := c]> (files w).
Proof. unfold write_file. repeat case_match; try done. by intros [= <-]. Qed.

Lemma write_file_raise p c w e w' :
  write_file p c w = (Raise e, w') -> w' = w.
Proof. unfold write_file. repeat case_match; try done; by intros [= <- <-]. Qed.

End PosixFacts.

(** ** File operations *)

Module UtilsFacts.
Import Posix Utils StrFacts PosixFacts Events.

(** The paths an operation has touched: its target and, once it moved
    a file away, the backup. *)
Definition footprint (op : Operation) : list string :=
  file_path op :: match _tmp_path op with Some t => [t] | None => [] end.

Definition footprints (ops : list Operation) : list string :=
  concat (footprint <$> ops).

(** An operation as its constructor leaves it. *)
Definition fresh (op : Operation) : Prop := _tmp_path op = None.

(** The path holds a regular file, or at least no directory. *)
Definition regular (w : World) (p : string) : bool :=
  isfile w p || negb (isdir w p).

Lemma regular_spec w p :
  regular w p = true <-> is_Some (files w !! p) \/ isdir w p = false.
Proof.
  unfold regular, isfile.
  rewrite orb_true_iff, bool_decide_eq_true, negb_true_iff. done.
Qed.

Lemma tmp_path_spec op ad w r op1 w1 :
  tmp_path op ad w = (r, op1, w1) ->
  files w1 = files w
  /\ file_path op1 = file_path op /\ _tmp_path op1 = _tmp_path op
  /\ _content op1 = _content op /\ cls op1 = cls op
  /\ (forall t, r = Ok t -> Str.truthy t = true).
Proof.
  unfold tmp_path.
  assert (Hs : forall r op1 w1,
    (let '(r, w') := mktemp ".old-" (dirname (file_path op)) w in (r, op, w'))
      = (r, op1, w1) ->
    files w1 = files w
    /\ file_path op1 = file_path op /\ _tmp_path op1 = _tmp_path op
    /\ _content op1 = _content op /\ cls op1 = cls op
    /\ (forall t, r = Ok t -> Str.truthy t = true)).
  { clear. intros r op1 w1.
    pose proof (mktemp_files ".old-" (dirname (file_path op)) w) as Hf.
    destruct (mktemp _ _ w) as [r' w'] eqn:Hm. intros [= <- <- <-].
    repeat split; try done. intros t ->. by eapply mktemp_truthy in Hm. }
  destruct (cls op) eqn:Hcls; [apply Hs| |];
    (destruct ad as [d|]; [|apply Hs]);
    (destruct (Str.truthy d) eqn:Hd; [|apply Hs]);
    intros [= <- <- <-]; repeat split; try done;
    intros t [= <-]; by apply join_truthy_l, join_truthy_l.
Qed.

(** Choosing the backup path makes and removes no directory. *)
Lemma tmp_path_dirs op ad w r op1 w1 :
  tmp_path op ad w = (r, op1, w1) -> dirs w1 = dirs w.
Proof.
  unfold tmp_path.
  pose proof (mktemp_dirs ".old-" (dirname (file_path op)) w) as Hd.
  destruct (mktemp _ _ w) as [r' w'].
  destruct (cls op); [by intros [= <- <- <-]| |];
    (destruct ad as [d|]; [destruct (Str.truthy d)|]); by intros [= <- <- <-].
Qed.

(** The regular files after the first half of [apply]: either the
    target's file went to the backup, which is then recorded, or
    nothing changed, and then, if the step returned, the target held
    no file. *)
Definition moved (op op' : Operation) (r : res unit)
           (before after : gmap string string) : Prop :=
  (exists tmp v,
      r = Ok () /\ _tmp_path op' = Some tmp /\ Str.truthy tmp = true
      /\ before !! file_path op = Some v
      /\ after = <[tmp := v]> (delete (file_path op) before))
  \/ (_tmp_path op' = None /\ after = before
      /\ (r = Ok () -> before !! file_path op = None)).

(** The backup [move_aside] records is the path it was given. *)
Lemma move_aside_backup op tmp w r op' w' t :
  fresh op ->
  move_aside op tmp w = (r, op', w') ->
  _tmp_path op' = Some t -> t = tmp.
Proof.
  unfold fresh, move_aside. intros Hfresh.
  destruct (makedirs (dirname tmp) _ w) as [r1 w1].
  set (op1 := if is_ok r1 then set_rmdir op true else op).
  assert (Ht1 : _tmp_path op1 = None) by (unfold op1; by destruct (is_ok r1)).
  destruct (rename (file_path op1) tmp w1) as [r2 w2].
  destruct (removedirs (dirname tmp) w2) as [r3 w3].
  repeat case_match; intros [= <- <- <-]; simpl; congruence.
Qed.

(** [move_aside] leaves the target, the content and the class of the
    operation alone. *)
Lemma move_aside_fields op tmp w r op' w' :
  move_aside op tmp w = (r, op', w') ->
  file_path op' = file_path op /\ _content op' = _content op
  /\ cls op' = cls op /\ _archived op' = _archived op.
Proof.
  unfold move_aside.
  destruct (makedirs (dirname tmp) _ w) as [r1 w1].
  set (op1 := if is_ok r1 then set_rmdir op true else op).
  assert (Hop1 : file_path op1 = file_path op /\ _content op1 = _content op
                 /\ cls op1 = cls op /\ _archived op1 = _archived op)
    by (unfold op1; by destruct (is_ok r1)).
  destruct (rename (file_path op1) tmp w1) as [r2 w2].
  destruct (removedirs (dirname tmp) w2) as [r3 w3].
  repeat case_match; intros [= <- <- <-]; simpl; done.
Qed.

(** After the directory of the backup was made, a rename that succeeds
    on a target that was regular has moved a regular file: a directory
    made on the way to the backup cannot be moved into itself. *)
Lemma rename_after_makedirs src tmp m w w2 :
  regular w src = true ->
  rename src tmp (makedirs (dirname tmp) m w).2 = (Ok (), w2) ->
  exists v, files w !! src = Some v
            /\ files w2 = <[tmp := v]> (delete src (files w)).
Proof.
  intros Hreg Hren. pose proof (makedirs_files (dirname tmp) m w) as Hf1.
  destruct (decide (is_Some (files w !! src))) as [Hfile|Hnone].
  - apply rename_ok in Hren as (v & Hv & Hf2 & _); [|left; by rewrite Hf1].
    exists v. by rewrite <- Hf1.
  - exfalso. apply regular_spec in Hreg as [?|Hdir]; [done|].
    apply eq_None_not_Some in Hnone.
    apply rename_spec in Hren. rewrite Hf1, Hnone in Hren.
    destruct Hren as [[(e & [=] & _) _]|(_ & Hdir1 & Hcase)].
    assert (Hin : src ∈ dirs (makedirs (dirname tmp) m w).2).
    { unfold isdir in Hdir, Hdir1. apply orb_false_iff in Hdir as [Hroot _].
      rewrite Hroot in Hdir1. by apply bool_decide_eq_true in Hdir1. }
    pose proof (makedirs_beneath _ _ _ _ Hin Hdir) as Hb.
    destruct Hcase as [[-> _]|(Hno & _)]; [|congruence].
    by apply beneath_differs in Hb.
Qed.

Lemma move_aside_files op tmp w r op' w' :
  fresh op -> Str.truthy tmp = true ->
  regular w (file_path op) = true ->
  move_aside op tmp w = (r, op', w') ->
  file_path op' = file_path op /\ _content op' = _content op
  /\ cls op' = cls op /\ _archived op' = _archived op
  /\ moved op op' r (files w) (files w').
Proof.
  intros Hfresh Htmp Hreg Hrun.
  destruct (move_aside_fields _ _ _ _ _ _ Hrun) as (Hp & Hc & Hk & Ha).
  split_and!; try done. revert Hrun. unfold fresh in Hfresh. unfold move_aside.
  pose proof (rename_after_makedirs (file_path op) tmp
                (dirmode (if mode op =? 0 then 448 else mode op)) w) as Hmove.
  destruct (makedirs (dirname tmp) _ w) as [r1 w1] eqn:Hmk.
  assert (Hf1 : files w1 = files w).
  { rewrite <- (makedirs_files (dirname tmp)
                  (dirmode (if mode op =? 0 then 448 else mode op)) w).
    by rewrite Hmk. }
  assert (Hthere : r1 = Ok () \/ r1 = Raise FileExistsError ->
                   exists_ w1 (dirname tmp) = true).
  { intros Hr. by destruct (makedirs_there _ _ _ _ _ Hmk Hr). }
  set (op1 := if is_ok r1 then set_rmdir op true else op).
  assert (Hop1 : file_path op1 = file_path op /\ _tmp_path op1 = None)
    by (unfold op1; by destruct (is_ok r1)).
  destruct Hop1 as (Hp1 & Ht1).
  assert (Hmain : r1 = Ok () \/ r1 = Raise FileExistsError ->
    (let '(r2, w) := rename (file_path op1) tmp w1 in
     match r2 with
     | Ok _ => (Ok (), set_tmp_path op1 (Some tmp), w)
     | Raise FileNotFoundError =>
         if _rmdir op1
         then let '(r, w) := removedirs (dirname tmp) w in (r, op1, w)
         else (Ok (), op1, w)
     | Raise e => (Raise e, op1, w)
     end) = (r, op', w') ->
    moved op op' r (files w) (files w')).
  { intros Hr1. specialize (Hthere Hr1). rewrite Hp1.
    destruct (rename (file_path op) tmp w1) as [r2 w2] eqn:Hren.
    destruct r2 as [[]|e2].
    - destruct (Hmove w2 Hreg Hren) as (v & Hv & Hf2).
      intros [= <- <- <-]. left. by exists tmp, v.
    - pose proof (rename_raise _ _ _ _ _ Hren) as ->.
      assert (Hnone : e2 = FileNotFoundError -> files w !! file_path op = None).
      { intros ->. apply rename_missing in Hren; [|done|done].
        by rewrite Hf1 in Hren. }
      destruct (decide (e2 = FileNotFoundError)) as [->|Hne].
      + destruct (_rmdir op1).
        * pose proof (removedirs_files (dirname tmp) w1) as Hrm.
          destruct (removedirs (dirname tmp) w1) as [rs ws]. simpl in Hrm.
          intros [= <- <- <-]. right. rewrite Hrm, Hf1. auto.
        * intros [= <- <- <-]. right. rewrite Hf1. auto.
      + intros Hrun.
        assert ((r, op', w') = (Raise e2, op1, w1)) as [= -> -> ->]
          by (destruct e2; done).
        right. by rewrite Hf1. }
  destruct r1 as [[]|e1].
  - apply Hmain. by left.
  - destruct (decide (e1 = FileExistsError)) as [->|Hne].
    + apply Hmain. by right.
    + intros Hrun.
      assert ((r, op', w') = (Raise e1, op, w1)) as [= -> -> ->]
        by (destruct e1; done).
      right. by rewrite Hf1.
Qed.


(** The regular files after the second half of [apply]: unchanged, or
    the content written at the target. *)
Definition written (op : Operation) (r : res unit)
           (before after : gmap string string) : Prop :=
  (after = before /\ (r = Ok () -> Str.truthy_opt (_content op) = false))
  \/ (exists c, _content op = Some c /\ Str.truthy c = true /\ r = Ok ()
                /\ after = <[file_path op := c]> before).

Lemma write_content_files op w r op' w' evs :
  write_content op w = (r, op', w', evs) ->
  file_path op' = file_path op /\ _tmp_path op' = _tmp_path op
  /\ cls op' = cls op /\ _archived op' = _archived op
  /\ written op r (files w) (files w')
  /\ forallb is_log evs = true.
Proof.
  unfold write_content, written.
  destruct (_content op) as [c|] eqn:Hc; [destruct (Str.truthy c) eqn:Htc|].
  - destruct (write_file (file_path op) c w) as [[[]|e] w1] eqn:Hw;
      intros [= <- <- <- <-].
    + apply write_file_ok in Hw. split_and!; try done. right. by exists c.
    + apply write_file_raise in Hw as ->. split_and!; try done. by left.
  - intros [= <- <- <- <-]. split_and!; try done. by left.
  - intros [= <- <- <- <-]. split_and!; try done. by left.
Qed.

(** [apply] keeps the target of the operation and emits log records
    after its own mark. *)
Lemma write_apply_fields op ad w r op' w' evs :
  write_apply op ad w = (r, op', w', evs) ->
  file_path op' = file_path op /\ forallb is_log evs = true.
Proof.
  unfold write_apply.
  destruct (tmp_path op ad w) as [[rt op1] w1] eqn:Htmp.
  apply tmp_path_spec in Htmp as (_ & Hp1 & _).
  destruct rt as [tmp|e]; [|by intros [= <- <- <- <-]].
  destruct (move_aside op1 tmp w1) as [[rm op2] w2] eqn:Hmv.
  apply move_aside_fields in Hmv as (Hp2 & _).
  destruct rm as [[]|e]; [|intros [= <- <- <- <-]; split; [congruence|done]].
  intros (Hp3 & _ & _ & _ & _ & Hlogs)%write_content_files.
  split; [congruence|done].
Qed.

Lemma write_apply_files op ad w r op' w' evs :
  fresh op ->
  regular w (file_path op) = true ->
  write_apply op ad w = (r, op', w', evs) ->
  file_path op' = file_path op
  /\ (exists mid rm, moved op op' rm (files w) mid
                    /\ (rm = Ok () -> written op r mid (files w'))
                    /\ (rm <> Ok () -> r = rm /\ files w' = mid))
  /\ forallb is_log evs = true.
Proof.
  intros Hfresh Hreg. unfold write_apply.
  destruct (tmp_path op ad w) as [[rt op1] w1] eqn:Htmp.
  pose proof (tmp_path_dirs _ _ _ _ _ _ Htmp) as Hd1.
  apply tmp_path_spec in Htmp as (Hf1 & Hp1 & Ht1 & Hc1 & Hk1 & Htruthy).
  destruct rt as [tmp|e].
  2:{ intros [= <- <- <- <-]. split_and!; [done| |done].
      exists (files w), (Raise e). split_and!; [|done|by rewrite Hf1].
      right. rewrite Ht1. by split_and!. }
  specialize (Htruthy tmp eq_refl).
  assert (Hreg1 : regular w1 (file_path op1) = true).
  { revert Hreg. unfold regular, isfile, isdir. by rewrite Hf1, Hd1, Hp1. }
  destruct (move_aside op1 tmp w1) as [[rm op2] w2] eqn:Hmv.
  apply move_aside_files in Hmv as (Hp2 & Hc2 & Hk2 & Ha2 & Hmoved);
    [|by unfold fresh; rewrite Ht1|done|done].
  destruct rm as [[]|e].
  2:{ intros [= <- <- <- <-]. split_and!; [by rewrite Hp2| |done].
      exists (files w2), (Raise e). split_and!; [|done|done].
      unfold moved in *. by rewrite <- Hf1, <- Hp1. }
  intros Hwc.
  apply write_content_files in Hwc as (Hp3 & Ht3 & Hk3 & Ha3 & Hw & Hevs).
  split_and!; [by rewrite Hp3, Hp2| |done].
  exists (files w2), (Ok ()). split_and!; [| |done].
  - unfold moved in *. rewrite Ht3, <- Hf1, <- Hp1. exact Hmoved.
  - intros _. unfold written in *. by rewrite <- Hc1, <- Hc2, <- Hp1, <- Hp2.
Qed.

(** A backup that [apply] records is the path [tmp_path] chose. *)
Lemma write_apply_backup op ad w r op' w' evs t :
  fresh op ->
  write_apply op ad w = (r, op', w', evs) ->
  _tmp_path op' = Some t ->
  exists op1 w1, tmp_path op ad w = (Ok t, op1, w1).
Proof.
  intros Hfresh. unfold write_apply.
  destruct (tmp_path op ad w) as [[rt op1] w1] eqn:Htmp.
  pose proof (tmp_path_spec _ _ _ _ _ _ Htmp) as (_ & _ & Ht1 & _).
  rewrite Hfresh in Ht1.
  destruct rt as [tmp|e]; [|intros [= <- <- <- <-]; congruence].
  destruct (move_aside op1 tmp w1) as [[rm op2] w2] eqn:Hmv.
  assert (Hback : forall t, _tmp_path op2 = Some t -> t = tmp)
    by (intros ?; by eapply move_aside_backup).
  destruct rm as [[]|e].
  - intros (_ & Ht3 & _)%write_content_files Ht. rewrite Ht3 in Ht.
    rewrite (Hback _ Ht). by eexists _, _.
  - intros [= <- <- <- <-] Ht. rewrite (Hback _ Ht). by eexists _, _.
Qed.

Lemma apply_unfold op ad w r op' w' evs :
  apply op ad w = (r, op', w', evs) ->
  exists evs0 tail,
    write_apply op ad w = (r, op', w', evs0)
    /\ evs = Applying (file_path op) :: evs0 ++ tail
    /\ forallb is_log tail = true.
Proof.
  unfold apply.
  destruct (write_apply op ad w) as [[[r0 op0] w0] evs0].
  assert (Hno : (r0, op0, w0, Applying (file_path op) :: evs0) = (r, op', w', evs) ->
    exists evs1 tail,
      (r0, op0, w0, evs0) = (r, op', w', evs1)
      /\ evs = Applying (file_path op) :: evs1 ++ tail
      /\ forallb is_log tail = true).
  { intros [= <- <- <- <-]. exists evs0, []. by rewrite app_nil_r. }
  destruct (cls op), r0 as [[]|e]; try exact Hno.
  all: destruct (_ && _); try exact Hno.
  all: intros [= <- <- <- <-]; by eexists evs0, [_].
Qed.

(** [apply] keeps the target of the operation. *)
Lemma apply_path op ad w r op' w' evs :
  apply op ad w = (r, op', w', evs) -> file_path op' = file_path op.
Proof.
  intros (evs0 & tail & Hwa & _)%apply_unfold.
  by apply write_apply_fields in Hwa as [? _].
Qed.

(** [apply] as a whole, on a target that is regular. *)
Lemma apply_files op ad w r op' w' evs :
  fresh op ->
  regular w (file_path op) = true ->
  apply op ad w = (r, op', w', evs) ->
  file_path op' = file_path op
  /\ (exists mid rm, moved op op' rm (files w) mid
                    /\ (rm = Ok () -> written op r mid (files w'))
                    /\ (rm <> Ok () -> r = rm /\ files w' = mid))
  /\ exists logs, evs = Applying (file_path op) :: logs
                  /\ forallb is_log logs = true.
Proof.
  intros Hfresh Hreg (evs0 & tail & Hwa & -> & Htail)%apply_unfold.
  apply write_apply_files in Hwa as (Hp & Hmid & Hevs); [|done|done].
  split_and!; try done.
  eexists; split; [done|]. by rewrite forallb_app, Hevs, Htail.
Qed.

(** [apply] touches no regular file outside its footprint. *)
Lemma apply_frame op ad w r op' w' evs p :
  fresh op ->
  regular w (file_path op) = true ->
  apply op ad w = (r, op', w', evs) ->
  p ∉ footprint op' -> files w' !! p = files w !! p.
Proof.
  intros Hfresh Hreg (Hp & (mid & rm & Hmoved & Hok & Hraise) & _)%apply_files Hnot;
    [|done|done].
  unfold footprint in Hnot. rewrite Hp in Hnot.
  apply not_elem_of_cons in Hnot as [HpA Hnot].
  assert (Hmid : mid !! p = files w !! p).
  { destruct Hmoved as [(tmp & v & _ & Ht & _ & _ & ->)|(_ & -> & _)]; [|done].
    rewrite Ht in Hnot. apply not_elem_of_cons in Hnot as [Hpt _].
    by rewrite lookup_insert_ne, lookup_delete_ne. }
  destruct (decide (rm = Ok ())) as [->|Hne].
  - destruct (Hok eq_refl) as [[-> _]|(c & _ & _ & _ & ->)]; [done|].
    by rewrite lookup_insert_ne.
  - by destruct (Hraise Hne) as [_ ->].
Qed.

(** A recorded backup holds what the target held. *)
Lemma apply_backup op ad w r op' w' evs t :
  fresh op ->
  regular w (file_path op) = true ->
  apply op ad w = (r, op', w', evs) ->
  _tmp_path op' = Some t ->
  is_Some (files w !! file_path op)
  /\ (t <> file_path op -> files w' !! t = files w !! file_path op).
Proof.
  intros Hfresh Hreg (Hp & (mid & rm & Hmoved & Hok & Hraise) & _)%apply_files Ht;
    [|done|done].
  destruct Hmoved as [(tmp & v & -> & Ht' & Htruthy & Hv & ->)|(Hnone & _)];
    [|congruence].
  assert (tmp = t) as -> by congruence.
  split; [by rewrite Hv|]. intros Hne. rewrite Hv.
  destruct (Hok eq_refl) as [[-> _]|(c & _ & _ & _ & ->)].
  - apply lookup_insert_eq.
  - rewrite lookup_insert_ne by done. apply lookup_insert_eq.
Qed.

(** A recorded backup path is not the empty string. *)
Lemma apply_backup_truthy op ad w r op' w' evs t :
  fresh op ->
  apply op ad w = (r, op', w', evs) ->
  _tmp_path op' = Some t -> Str.truthy t = true.
Proof.
  intros Hfresh (evs0 & tail & Hwa & _)%apply_unfold Ht.
  destruct (write_apply_backup _ _ _ _ _ _ _ t Hfresh Hwa Ht) as (op1 & w1 & Htmp).
  by eapply (tmp_path_spec op ad w (Ok t) op1 w1 Htmp).
Qed.

(** An operation that was applied and recorded no backup found no file
    at its target. *)
Lemma apply_no_backup op ad w op' w' evs :
  fresh op ->
  regular w (file_path op) = true ->
  apply op ad w = (Ok (), op', w', evs) ->
  _tmp_path op' = None -> files w !! file_path op = None.
Proof.
  intros Hfresh Hreg (Hp & (mid & rm & Hmoved & Hok & Hraise) & _)%apply_files Ht;
    [|done|done].
  destruct Hmoved as [(tmp & v & _ & Ht' & _)|(_ & _ & Hnone)]; [congruence|].
  apply Hnone. destruct (decide (rm = Ok ())) as [->|Hne]; [done|].
  by destruct (Hraise Hne) as [<- _].
Qed.



(** [revert] keeps the target of the operation and emits log records
    after its own mark. *)
Lemma revert_events op w r op' w' evs :
  revert op w = (r, op', w', evs) ->
  file_path op' = file_path op
  /\ exists logs, evs = Reverting (file_path op) :: logs
                  /\ forallb is_log logs = true.
Proof.
  unfold revert.
  destruct (remove (file_path op) w) as [r1 w1].
  destruct (_tmp_path op) as [tmp|]; [destruct (Str.truthy tmp)|].
  1: destruct (rename tmp (file_path op) w1) as [[[]|e] w2].
  all: repeat case_match; intros [= <- <- <- <-];
    (split; [done|eexists; split; [reflexivity|done]]).
Qed.

(** [cleanup] deletes at most the backup. *)
Lemma cleanup_files op w r op' w' evs :
  cleanup op w = (r, op', w', evs) ->
  file_path op' = file_path op
  /\ (files w' = files w
      \/ exists t, _tmp_path op = Some t /\ files w' = delete t (files w))
  /\ (_tmp_path op' = _tmp_path op \/ _tmp_path op' = None)
  /\ (_archived op = true -> cls op <> WriteOp -> op' = op)
  /\ evs = [Cleaning (file_path op)].
Proof.
  unfold cleanup.
  assert (Hw : forall r op' w',
    write_cleanup op w = (r, op', w') ->
    file_path op' = file_path op
    /\ (files w' = files w
        \/ exists t, _tmp_path op = Some t /\ files w' = delete t (files w))
    /\ (_tmp_path op' = _tmp_path op \/ _tmp_path op' = None)).
  { clear. intros r op' w'. unfold write_cleanup.
    destruct (_tmp_path op) as [tmp|] eqn:Htmp; [destruct (Str.truthy tmp)|].
    - destruct (remove tmp w) as [r1 w1] eqn:Hrm.
      assert (Hdone : r1 = Ok () \/ r1 = Raise FileNotFoundError ->
        (Ok (), set_tmp_path op None,
         if _rmdir op then (removedirs (dirname tmp) w1).2 else w1) = (r, op', w') ->
        file_path op' = file_path op
        /\ (files w' = files w
            \/ exists t, Some tmp = Some t /\ files w' = delete t (files w))
        /\ (_tmp_path op' = Some tmp \/ _tmp_path op' = None)).
      { intros Hr1 [= <- <- <-]. split_and!; [done| |by right].
        assert (Hf : files (if _rmdir op then (removedirs (dirname tmp) w1).2 else w1)
                     = files w1)
          by (destruct (_rmdir op); [apply removedirs_files|done]).
        rewrite Hf. destruct Hr1 as [->| ->].
        - apply remove_ok in Hrm. right. by exists tmp.
        - apply remove_raise in Hrm as [-> _]. by left. }
      destruct r1 as [[]|e1]; [apply Hdone; by left|].
      destruct (decide (e1 = FileNotFoundError)) as [->|Hne];
        [apply Hdone; by right|].
      intros Hrun.
      assert ((r, op', w') = (Raise e1, op, w1)) as [= -> -> ->]
        by (destruct e1; done).
      apply remove_raise in Hrm as [-> _]. split_and!; [done|by left|by left].
    - intros [= <- <- <-]. split_and!; [done|by left|by left].
    - intros [= <- <- <-]. split_and!; [done|by left|by left]. }
  destruct (cls op) eqn:Hcls.
  - destruct (write_cleanup op w) as [[r0 op0] w0] eqn:Hwc.
    intros [= <- <- <- <-]. destruct (Hw _ _ _ eq_refl) as (? & ? & ?).
      split_and!; try done; congruence.
  - destruct (_archived op) eqn:Ha.
    + intros [= <- <- <- <-]. split_and!; try done; by left.
    + destruct (write_cleanup op w) as [[r0 op0] w0] eqn:Hwc.
      intros [= <- <- <- <-]. destruct (Hw _ _ _ eq_refl) as (? & ? & ?).
      split_and!; try done; congruence.
  - destruct (_archived op) eqn:Ha.
    + intros [= <- <- <- <-]. split_and!; try done; by left.
    + destruct (write_cleanup op w) as [[r0 op0] w0] eqn:Hwc.
      intros [= <- <- <- <-]. destruct (Hw _ _ _ eq_refl) as (? & ? & ?).
      split_and!; try done; congruence.
Qed.

(** *** The loops of [commit_file_transactions] *)

Lemma footprints_cons op ops : footprints (op :: ops) = footprint op ++ footprints ops.
Proof. done. Qed.

Lemma footprints_app a b : footprints (a ++ b) = footprints a ++ footprints b.
Proof. unfold footprints. by rewrite fmap_app, concat_app. Qed.

(** The operations a commit manages to apply, as [apply] leaves them,
    and the operation whose [apply] fails, if any. *)
Definition applied_of (ops : list Operation) (ad : option string) (w : World)
  : list Operation :=
  (apply_all ops ad w).1.1.1.2.

Definition failed_of (ops : list Operation) (ad : option string) (w : World)
  : list Operation :=
  take 1 (apply_all ops ad w).1.1.2.

(** The targets and the backups the commit uses are pairwise distinct
    paths. *)
Definition distinct_paths (ops : list Operation) (ad : option string) (w : World)
  : Prop :=
  NoDup (footprints (applied_of ops ad w ++ failed_of ops ad w)).

#[global] Instance distinct_paths_dec ops ad w : Decision (distinct_paths ops ad w).
Proof. unfold distinct_paths. apply _. Defined.

(** No operation of the group finds a directory at its target: when an
    operation is applied, its target holds a regular file or nothing. *)
Fixpoint regular_targets (ops : list Operation) (ad : option string) (w : World)
  : bool :=
  match ops with
  | [] => true
  | op :: rest =>
      regular w (file_path op)
      && match apply op ad w with
         | (Ok _, _, w', _) => regular_targets rest ad w'
         | (Raise _, _, _, _) => true
         end
  end.

(** After the apply phase an applied operation is backed up: its
    recorded backup holds what its target held before the commit, and
    without a recorded backup its target held nothing. *)
Definition backed_up (before after : gmap string string) (op : Operation) : Prop :=
  match _tmp_path op with
  | Some t => Str.truthy t = true /\ after !! t = before !! file_path op
  | None => before !! file_path op = None
  end.

Lemma target_in_footprints o ops : o ∈ ops -> file_path o ∈ footprints ops.
Proof.
  induction 1 as [o ops|o o' ops _ IH]; rewrite footprints_cons;
    apply elem_of_app; [left|by right].
  unfold footprint. left.
Qed.

Lemma backup_in_footprints o ops t :
  o ∈ ops -> _tmp_path o = Some t -> t ∈ footprints ops.
Proof.
  intros Hin Ht. induction Hin as [o ops|o o' ops _ IH];
    rewrite footprints_cons; apply elem_of_app; [left|right; by apply IH].
  unfold footprint. rewrite Ht. right. left.
Qed.

Lemma apply_all_spec ops ad w r applied pending w1 evs :
  Forall fresh ops ->
  regular_targets ops ad w = true ->
  apply_all ops ad w = (r, applied, pending, w1, evs) ->
  NoDup (footprints (applied ++ take 1 pending)) ->
  (forall p, p ∉ footprints (applied ++ take 1 pending) ->
             files w1 !! p = files w !! p)
  /\ Forall (backed_up (files w) (files w1)) applied.
Proof.
  intros Hfresh. revert w r applied pending w1 evs.
  induction Hfresh as [|op ops Hop Hops IH]; intros w r applied pending w1 evs; simpl.
  { by intros _ [= <- <- <- <- <-]. }
  intros [Hreg Hregs]%andb_true_iff.
  destruct (apply op ad w) as [[[r0 op'] w'] evs0] eqn:Hap.
  destruct r0 as [[]|e].
  - destruct (apply_all ops ad w') as [[[[r2 applied2] pending2] w2] evs2] eqn:Hrest.
    intros [= <- <- <- <- <-].
    rewrite <- app_comm_cons, footprints_cons.
    intros [Hnd1 [Hdisj Hnd2]]%NoDup_app.
    destruct (IH _ _ _ _ _ _ Hregs Hrest Hnd2) as [Hframe Hback].
    pose proof (apply_path _ _ _ _ _ _ _ Hap) as Hp.
    split.
    + intros p [Hp1 Hp2]%not_elem_of_app.
      rewrite (Hframe p Hp2). by eapply apply_frame.
    + constructor.
      * unfold backed_up. destruct (_tmp_path op') as [t|] eqn:Ht.
        -- destruct (apply_backup _ _ _ _ _ _ _ t Hop Hreg Hap Ht) as (_ & Hcopy).
           split; [by eapply apply_backup_truthy|].
           assert (Hin : t ∈ footprint op')
             by (unfold footprint; rewrite Ht; right; left).
           rewrite (Hframe t (Hdisj t Hin)), Hp. apply Hcopy.
           unfold footprint in Hnd1. rewrite Ht, Hp in Hnd1.
           apply NoDup_cons in Hnd1 as [Hne _].
           intros ->. apply Hne. left.
        -- rewrite Hp. by eapply apply_no_backup.
      * apply Forall_forall. intros o Ho.
        rewrite Forall_forall in Hback. specialize (Hback o Ho).
        assert (Hnin : file_path o ∉ footprint op').
        { intros Hin. apply (Hdisj _ Hin).
          rewrite footprints_app. apply elem_of_app. left.
          by apply target_in_footprints. }
        unfold backed_up in *.
        rewrite <- (apply_frame _ _ _ _ _ _ _ (file_path o) Hop Hreg Hap Hnin).
        exact Hback.
  - intros [= <- <- <- <- <-]. cbn [app take].
    rewrite footprints_cons. unfold footprints at 1 2. cbn [fmap list_fmap concat].
    rewrite app_nil_r. intros _. split; [|done].
    intros p Hp. by eapply apply_frame.
Qed.

(** A file system with one file [/d/a], and operations that write. *)
Definition abc (n : nat) : string := String (ascii_of_nat (97 + n)) "".
Definition w0 : World := mkWorld {[ "/d/a" := "v0" ]} {[ "/d" ]} abc 0.
Definition writes (path content : string) : Operation :=
  set_content (WriteOperation path 384 None) (Some content).

(** *** C1 *)

(** The rollback as the code runs it, and as the claim needs it: the
    applied operations reverted last applied first. *)
Definition rollback_in_reverse (ops : list Operation) (ad : option string)
           (w : World) : World :=
  let '(_, applied, _, w1, _) := apply_all ops ad w in
  (revert_all (rev applied) w1).1.2.

(** C1. The claim fails on the code. Two operations write the same path
    [/d/a], which holds [v0]; a third operation fails because its
    directory is missing. [commit_file_transactions] raises and rolls
    back by reverting the two applied operations in the order of their
    application: the first revert puts [v0] back, the second deletes it
    again and puts back what the first operation had written. After
    the rollback [/d/a] holds [v1], and [v0] is on disk no more.
    Reverting the same operations last applied first brings [v0]
    back. *)
Theorem rollback_loses_the_original :
  let ops := [writes "/d/a" "v1"; writes "/d/a" "v2"; writes "/nodir/x" "z"] in
  let '(r, _, w', evs) := commit_file_transactions ops None w0 in
  r = Raise FileNotFoundError
  /\ applyings evs = ["/d/a"; "/d/a"; "/nodir/x"]
  /\ revertings evs = ["/d/a"; "/d/a"]
  /\ map_to_list (files w0) = [("/d/a", "v0")]
  /\ map_to_list (files w') = [("/d/a", "v1")]
  /\ map_to_list (files (rollback_in_reverse ops None w0)) = [("/d/a", "v0")].
Proof. vm_compute. by split_and!. Qed.

(** On distinct paths the same rollback restores what was there. *)
Example rollback_two_files :
  let ops := [writes "/d/a" "v1"; writes "/d/b" "v2"; writes "/nodir/x" "z"] in
  let w' := (commit_file_transactions ops None w0).1.2 in
  map_to_list (files w') = [("/d/a", "v0")].
Proof. by vm_compute. Qed.

(** *** C2 *)

Lemma write_apply_logs op ad w r op' w' evs :
  write_apply op ad w = (r, op', w', evs) -> forallb is_log evs = true.
Proof.
  unfold write_apply.
  destruct (tmp_path op ad w) as [[[tmp|e] op1] w1]; [|by intros [= <- <- <- <-]].
  destruct (move_aside op1 tmp w1) as [[[[]|e] op2] w2];
    [|by intros [= <- <- <- <-]].
  by intros (_ & _ & _ & _ & _ & ?)%write_content_files.
Qed.

(** The only mark [apply] leaves is its own. *)
Lemma apply_marks op ad w r op' w' evs :
  apply op ad w = (r, op', w', evs) ->
  applyings evs = [file_path op] /\ revertings evs = [] /\ cleanings evs = [].
Proof.
  intros (evs0 & tail & Hwa & -> & Htail)%apply_unfold.
  apply write_apply_logs in Hwa.
  assert (Hall : forallb is_log (evs0 ++ tail) = true)
    by (by rewrite forallb_app, Hwa, Htail).
  apply logs_silent in Hall as (Ha & Hr & Hc & _). simpl.
  by rewrite Ha, Hr, Hc.
Qed.


Lemma apply_all_marks ops ad w r applied pending w1 evs :
  apply_all ops ad w = (r, applied, pending, w1, evs) ->
  (length applied + length pending = length ops)%nat
  /\ (is_ok r = true -> pending = [])
  /\ (is_ok r = false -> pending <> [])
  /\ applyings evs
     = file_path <$> take (length applied + (if is_ok r then 0 else 1))%nat ops
  /\ revertings evs = [] /\ cleanings evs = [].
Proof.
  revert w r applied pending w1 evs.
  induction ops as [|op ops IH]; intros w r applied pending w1 evs; simpl.
  { by intros [= <- <- <- <- <-]. }
  destruct (apply op ad w) as [[[r0 op'] w'] evs0] eqn:Hap.
  apply apply_marks in Hap as (Ha & Hr & Hc).
  destruct r0 as [[]|e].
  - destruct (apply_all ops ad w') as [[[[r2 applied2] pending2] w2] evs2] eqn:Hrest.
    intros [= <- <- <- <- <-].
    destruct (IH _ _ _ _ _ _ Hrest) as (Hlen & Hok & Hko & Ha2 & Hr2 & Hc2).
    rewrite applyings_app, revertings_app, cleanings_app, Ha, Hr, Hc, Ha2, Hr2, Hc2.
    simpl. split_and!; try done. lia.
  - intros [= <- <- <- <- <-]. simpl. by rewrite Ha, Hr, Hc.
Qed.







(** *** C10 *)








Example archive_only_commit :
  let '(r, _, w', _) := commit_file_transactions [WriteOperation "/d/a" 384 None] None w0 in
  r = Ok () /\ files w' = ∅.
Proof. by vm_compute. Qed.

Example archive_operation_commit :
  let '(r, _, w', _) :=
    commit_file_transactions [ArchiveOperation "old" "/d/a"] (Some "/arch") w0 in
  r = Ok () /\ files w' !! "/d/a" = None /\ files w' !! "/arch/old/a" = Some "v0".
Proof. by vm_compute. Qed.

(** A directory at the target is moved aside with what it holds, and
    the backup stays: [cleanup] cannot remove a directory. *)
Example archive_only_directory :
  let w := mkWorld {[ "/d/a/y" := "vy" ]} {[ "/d"; "/d/a" ]} abc 0 in
  let '(r, ops', w', evs) := commit_file_transactions [WriteOperation "/d/a" 384 None] None w in
  r = Ok () /\ map_to_list (files w') = [("/d/.old-a/y", "vy")]
  /\ _tmp_path <$> ops' = [Some "/d/.old-a"]
  /\ Log ERROR "cleanup operation '%s' failed: %s" ["WriteOperation"; "IsADirectoryError"]
       ∈ evs.
Proof. vm_compute. split_and!; try done. repeat constructor. Qed.

(** *** What a commit emits *)

Lemma apply_all_fs ops ad w r applied pending w1 evs :
  apply_all ops ad w = (r, applied, pending, w1, evs) ->
  forallb is_fs evs = true.
Proof.
  revert w r applied pending w1 evs.
  induction ops as [|op ops IH]; intros w r applied pending w1 evs; simpl.
  { by intros [= <- <- <- <- <-]. }
  destruct (apply op ad w) as [[[r0 op'] w'] evs0] eqn:Hap.
  assert (Hfs : forallb is_fs evs0 = true).
  { apply apply_unfold in Hap as (e0 & tail & Hwa & -> & Htail).
    apply write_apply_logs in Hwa. simpl.
    rewrite forallb_app. by rewrite !logs_are_fs. }
  destruct r0 as [[]|e].
  - destruct (apply_all ops ad w') as [[[[r2 applied2] pending2] w2] evs2] eqn:Hrest.
    intros [= <- <- <- <- <-]. rewrite forallb_app, Hfs. by eapply IH.
  - by intros [= <- <- <- <- <-].
Qed.

Lemma revert_all_fs l w l' w' evs :
  revert_all l w = (l', w', evs) -> forallb is_fs evs = true.
Proof.
  revert w l' w' evs. induction l as [|op l IH]; intros w l' w' evs; simpl.
  { by intros [= <- <- <-]. }
  destruct (revert op w) as [[[r op1] w1] evs1] eqn:Hrev.
  destruct (revert_all l w1) as [[l2 w2] evs2] eqn:Hrest.
  apply revert_events in Hrev as (_ & logs & -> & Hlogs).
  apply IH in Hrest. apply logs_are_fs in Hlogs.
  intros [= <- <- <-].
  destruct r; rewrite ?forallb_app; simpl; rewrite ?forallb_app, Hlogs, Hrest; done.
Qed.

Lemma cleanup_all_fs l w l' w' evs :
  cleanup_all l w = (l', w', evs) -> forallb is_fs evs = true.
Proof.
  revert w l' w' evs. induction l as [|op l IH]; intros w l' w' evs; simpl.
  { by intros [= <- <- <-]. }
  destruct (cleanup op w) as [[[r op1] w1] evs1] eqn:Hcl.
  destruct (cleanup_all l w1) as [[l2 w2] evs2] eqn:Hrest.
  apply cleanup_files in Hcl as (_ & _ & _ & _ & ->).
  apply IH in Hrest.
  intros [= <- <- <-].
  destruct r; rewrite ?forallb_app; simpl; rewrite ?forallb_app, ?Hrest; done.
Qed.

Lemma commit_fs ops ad w r ops' w' evs :
  commit_file_transactions ops ad w = (r, ops', w', evs) ->
  forallb is_fs evs = true.
Proof.
  unfold commit_file_transactions. destruct ops as [|op0 ops0].
  { by intros [= <- <- <- <-]. }
  remember (op0 :: ops0) as ops eqn:Hops. clear Hops.
  destruct (apply_all ops ad w) as [[[[r1 applied] pending] w1] evs1] eqn:Hap.
  apply apply_all_fs in Hap.
  destruct r1 as [[]|e].
  - destruct (cleanup_all applied w1) as [[applied' w2] evs2] eqn:Hcl.
    apply cleanup_all_fs in Hcl. intros [= <- <- <- <-].
    simpl. by rewrite forallb_app, Hap, Hcl.
  - destruct (revert_all applied w1) as [[applied' w2] evs2] eqn:Hrev.
    apply revert_all_fs in Hrev. intros [= <- <- <- <-].
    simpl. rewrite forallb_app, Hap. simpl. by rewrite Hrev.
Qed.

End UtilsFacts.

(** ** Hooks *)

Module HooksFacts.
Import Utils Events.

(** The queue as [call] walks it: name by name, and for each name its
    invocations in the order they were appended. *)
Definition flatten (q : queue) : list (string * invocation) :=
  flat_map (fun '(n, hs) => pair n <$> hs) q.

(** The hooks behind the WARNING records, in order. *)
Fixpoint warned (evs : list event) : list string :=
  match evs with
  | [] => []
  | Log WARNING _ (n :: _) :: r => n :: warned r
  | _ :: r => warned r
  end.

(** The invocations that fail when started from the [k]-th process
    on. *)
Fixpoint failures (run : nat -> list string -> res string) (k : nat)
         (l : list (string * invocation)) : list string :=
  match l with
  | [] => []
  | (n, a) :: r =>
      (if is_ok (run k a) then [] else [n]) ++ failures run (S k) r
  end.

Lemma warned_app a b : warned (a ++ b) = warned a ++ warned b.
Proof.
  induction a as [|e a IH]; [done|].
  destruct e; simpl; repeat case_match; by rewrite ?IH.
Qed.

Lemma call_one_spec n h sh sh' evs :
  call_one n h sh = (sh', evs) ->
  run sh' = run sh /\ ran sh' = S (ran sh)
  /\ execs evs = [(n, h)]
  /\ warned evs = (if is_ok (run sh (ran sh) h) then [] else [n]).
Proof.
  unfold call_one. destruct (run sh (ran sh) h) as [out|e].
  - by intros [= <- <-].
  - destruct e; by intros [= <- <-].
Qed.

Lemma call_hooks_spec n hs sh sh' evs :
  call_hooks n hs sh = (sh', evs) ->
  run sh' = run sh /\ ran sh' = (ran sh + length hs)%nat
  /\ execs evs = pair n <$> hs
  /\ warned evs = failures (run sh) (ran sh) (pair n <$> hs).
Proof.
  revert sh sh' evs. induction hs as [|h hs IH]; intros sh sh' evs; simpl.
  { intros [= <- <-]. split_and!; try done; lia. }
  destruct (call_one n h sh) as [sh1 e1] eqn:H1.
  destruct (call_hooks n hs sh1) as [sh2 e2] eqn:H2.
  intros [= <- <-].
  apply call_one_spec in H1 as (Hr1 & Hn1 & He1 & Hw1).
  apply IH in H2 as (Hr2 & Hn2 & He2 & Hw2).
  rewrite execs_app, warned_app, He1, He2, Hw1, Hw2, Hr2, Hr1, Hn2, Hn1.
  split_and!; try done; lia.
Qed.

Lemma failures_app run k a b :
  failures run k (a ++ b) = failures run k a ++ failures run (k + length a) b.
Proof.
  revert k. induction a as [|[n h] a IH]; intros k; simpl.
  - by rewrite Nat.add_0_r.
  - rewrite IH, <- app_assoc. do 3 f_equal. lia.
Qed.

Lemma call_queue_spec q sh sh' evs :
  call_queue q sh = (sh', evs) ->
  run sh' = run sh /\ ran sh' = (ran sh + length (flatten q))%nat
  /\ execs evs = flatten q
  /\ warned evs = failures (run sh) (ran sh) (flatten q).
Proof.
  revert sh sh' evs. induction q as [|[n hs] q IH]; intros sh sh' evs; simpl.
  { intros [= <- <-]. split_and!; try done; lia. }
  destruct (call_hooks n hs sh) as [sh1 e1] eqn:H1.
  destruct (call_queue q sh1) as [sh2 e2] eqn:H2.
  intros [= <- <-].
  apply call_hooks_spec in H1 as (Hr1 & Hn1 & He1 & Hw1).
  apply IH in H2 as (Hr2 & Hn2 & He2 & Hw2).
  rewrite execs_app, warned_app, He1, He2, Hw1, Hw2, Hr2, Hr1, Hn2, Hn1.
  rewrite failures_app, !length_app, !length_fmap.
  split_and!; try done; lia.
Qed.

(** *** What [add] does to the queue *)

Fixpoint q_get (name : string) (q : queue) : list invocation :=
  match q with
  | [] => []
  | (n, hs) :: r => if String.eqb n name then hs else q_get name r
  end.

Lemma q_append_names name h q : (q_append name h q).*1 = q.*1.
Proof.
  induction q as [|[n hs] q IH]; [done|]. simpl.
  destruct (String.eqb n name); simpl; [done|]. f_equal. apply IH.
Qed.

Lemma q_append_get name h q n :
  q_mem name q = true ->
  q_get n (q_append name h q)
  = if String.eqb name n then q_get n q ++ [h] else q_get n q.
Proof.
  induction q as [|[m hs] q IH]; [done|]. simpl.
  destruct (String.eqb m name) eqn:Hm; simpl.
  - apply String.eqb_eq in Hm as ->. intros _.
    destruct (String.eqb name n) eqn:Hn; simpl; by rewrite ?Hn.
  - intros Hq. specialize (IH Hq).
    destruct (String.eqb m n) eqn:Hmn; [|done].
    apply String.eqb_eq in Hmn as ->.
    rewrite String.eqb_sym in Hm. by rewrite Hm.
Qed.

Lemma q_append_mem name h q n : q_mem n (q_append name h q) = q_mem n q.
Proof.
  induction q as [|[m hs] q IH]; [done|]. simpl.
  destruct (String.eqb m name); simpl; by rewrite ?IH.
Qed.

(** The loop of [add] keeps the names of the queue in place and only
    appends to the list of its own name. *)
Lemma add_loop_spec name hooks kw q r q' :
  q_mem name q = true ->
  add_loop name hooks kw q = (r, q') ->
  q'.*1 = q.*1
  /\ exists added, forall n,
       q_get n q' = if String.eqb name n then q_get n q ++ added else q_get n q.
Proof.
  revert q. induction hooks as [|hook hooks IH]; intros q Hmem; simpl.
  { intros [= <- <-]. split; [done|]. exists []. intros n.
    destruct (String.eqb name n); by rewrite ?app_nil_r. }
  assert (Hstop : forall e, (Raise e, q) = (r, q') ->
    q'.*1 = q.*1
    /\ exists added, forall n,
         q_get n q' = if String.eqb name n then q_get n q ++ added else q_get n q).
  { intros e [= <- <-]. split; [done|]. exists []. intros n.
    destruct (String.eqb name n); by rewrite ?app_nil_r. }
  destruct (hook_args hook) as [a|e]; [|by apply Hstop].
  destruct (format_all a kw) as [a'|e]; [|by apply Hstop].
  intros Hrun. apply IH in Hrun as [Hnames (added & Hget)];
    [|by rewrite q_append_mem].
  rewrite q_append_names in Hnames. split; [done|].
  exists (a' :: added). intros n. rewrite Hget, q_append_get by done.
  destruct (String.eqb name n); [|done]. by rewrite <- app_assoc.
Qed.

Lemma add_spec self name kw r self' evs :
  add self name kw = (r, self', evs) ->
  _commands self' = _commands self
  /\ (exists added, forall n,
        q_get n (_hooks self')
        = if String.eqb name n then q_get n (_hooks self) ++ added
          else q_get n (_hooks self))
  /\ (exists new, (_hooks self').*1 = (_hooks self).*1 ++ new
                  /\ (new = [] \/ new = [name] /\ q_mem name (_hooks self) = false))
  /\ (is_Some (_commands self !! name) -> forall k, r <> Raise (KeyError k)).
Proof.
  unfold add.
  assert (Hsame : forall n,
    q_get n (_hooks self)
    = if String.eqb name n then q_get n (_hooks self) ++ [] else q_get n (_hooks self)).
  { intros n. destruct (String.eqb name n); by rewrite ?app_nil_r. }
  destruct (_commands self !! name) as [c|] eqn:Hc.
  2:{ intros [= <- <- <-]. split_and!; [done|by exists []| |by intros [? [=]]].
      exists []. rewrite app_nil_r. auto. }
  destruct (command_truthy c); simpl.
  2:{ intros [= <- <- <-]. split_and!; [done|by exists []| |done].
      exists []. rewrite app_nil_r. auto. }
  set (q := if q_mem name (_hooks self) then _hooks self
            else _hooks self ++ [(name, [])]).
  assert (Hq : q_mem name q = true).
  { unfold q. destruct (q_mem name (_hooks self)) eqn:Hm; [done|].
    clear -Hm. induction (_hooks self) as [|[m hs] l IH]; simpl.
    - by rewrite String.eqb_refl.
    - simpl in Hm. apply orb_false_iff in Hm as [-> Hm]. by apply IH. }
  assert (Hqget : forall n, q_get n q = q_get n (_hooks self)).
  { intros n. unfold q. destruct (q_mem name (_hooks self)); [done|].
    generalize (_hooks self). clear. intros l.
    induction l as [|[m hs] l IH]; simpl.
    - by destruct (String.eqb name n).
    - by destruct (String.eqb m n). }
  assert (Hqnames : exists new, q.*1 = (_hooks self).*1 ++ new
            /\ (new = [] \/ new = [name] /\ q_mem name (_hooks self) = false)).
  { unfold q. destruct (q_mem name (_hooks self)).
    - exists []. rewrite app_nil_r. auto.
    - exists [name]. rewrite fmap_app. auto. }
  destruct (add_loop name _ kw q) as [r0 q'] eqn:Hloop.
  apply add_loop_spec in Hloop as [Hnames (added & Hget)]; [|done].
  assert (Hres :
    (exists added, forall n,
          q_get n q'
          = if String.eqb name n then q_get n (_hooks self) ++ added
            else q_get n (_hooks self))
    /\ (exists new, q'.*1 = (_hooks self).*1 ++ new
                    /\ (new = [] \/ new = [name] /\ q_mem name (_hooks self) = false))).
  { split; [|by rewrite Hnames].
    exists added. intros n. by rewrite Hget, !Hqget. }
  destruct Hres as [Hres1 Hres2].
  destruct r0 as [[]|e]; [|destruct e]; intros [= <- <- <-]; by split_and!.
Qed.

(** An unknown key in a template of the first configured hook: [add]
    logs it and returns. *)
Lemma add_unknown_key self name kw h args k :
  _commands self !! name = Some (CmdOne h) ->
  hook_args h = Ok args ->
  format_all args kw = Raise (KeyError k) ->
  exists self',
    add self name kw
    = (Ok (), self',
       [Log WARNING "Invalid hook specification for %s, unknown key %s" [name; k]]).
Proof.
  intros Hc Hargs Hfmt. unfold add. rewrite Hc.
  assert (command_truthy (CmdOne h) = true) as ->.
  { destruct h as [s|[a|] o]; simpl in *; try done.
    destruct s; [|done]. vm_compute in Hargs. injection Hargs as <-.
    by vm_compute in Hfmt. }
  cbn [negb add_loop]. rewrite Hargs, Hfmt. by eexists.
Qed.

(** *** C8 *)

Definition commands0 : gmap string command :=
  {[ "a" := CmdOne (HookStr "x {n}");
     "b" := CmdOne (HookStr "y {n}");
     "c" := CmdOne (HookStr "z {}");
     "d" := CmdOne (HookDict (Some ["scp"; "{file}"; "{host}:/srv"]) []) ]}.

Definition shell0 : Shell := mkShell (fun _ _ => Ok "") 0.

(** C8, as stated, fails twice. Hooks added in the order [a], [b], [a]
    are run in the order [a], [a], [b]: [call] goes through the queue
    name by name. And a template with a positional field makes [add]
    raise [IndexError] to its caller. *)
Lemma hooks_grouped_by_name_and_add_raises :
  let h0 := new_hooks commands0 in
  let h1 := (add h0 "a" [("n", "1")]).1.2 in
  let h2 := (add h1 "b" [("n", "2")]).1.2 in
  let h3 := (add h2 "a" [("n", "3")]).1.2 in
  execs (call h3 shell0).2
    = [("a", ["x"; "1"]); ("a", ["x"; "3"]); ("b", ["y"; "2"])]
  /\ execs (call h3 shell0).2
     <> [("a", ["x"; "1"]); ("b", ["y"; "2"]); ("a", ["x"; "3"])]
  /\ (add h0 "c" []).1.1 = Raise IndexError.
Proof. vm_compute. by split_and!. Qed.

(** C8, amended. [call] starts every queued invocation exactly once,
    going through the queue name by name (names in the order in which
    they entered the queue, the invocations of one name in the order
    in which they were added); an invocation that exits non-zero or
    cannot be started is followed by a WARNING record and by the next
    invocation; afterwards the queue is empty. [call] raises nothing.
    [add] leaves the names already queued in place, puts a new name
    last and appends only to the list of its own name; it never lets a
    [KeyError] of a substitution escape: when a template of a
    configured hook names a key that was not passed, [add] returns
    normally and logs a WARNING naming the key. *)
Theorem hooks_call_and_add self :
  (forall sh,
      let '(self', sh', evs) := call self sh in
      execs evs = flatten (_hooks self)
      /\ warned evs = failures (run sh) (ran sh) (flatten (_hooks self))
      /\ _hooks self' = []
      /\ _commands self' = _commands self
      /\ ran sh' = (ran sh + length (flatten (_hooks self)))%nat)
  /\ (forall name kw,
        let '(r, self', evs) := add self name kw in
        _commands self' = _commands self
        /\ (exists added, forall n,
              q_get n (_hooks self')
              = if String.eqb name n then q_get n (_hooks self) ++ added
                else q_get n (_hooks self))
        /\ (exists new, (_hooks self').*1 = (_hooks self).*1 ++ new
                        /\ (new = [] \/ new = [name]
                                        /\ q_mem name (_hooks self) = false))
        /\ (is_Some (_commands self !! name) -> forall k, r <> Raise (KeyError k))
        /\ (forall h args k,
              _commands self !! name = Some (CmdOne h) ->
              hook_args h = Ok args ->
              format_all args kw = Raise (KeyError k) ->
              r = Ok ()
              /\ evs = [Log WARNING "Invalid hook specification for %s, unknown key %s"
                            [name; k]])).
Proof.
  split.
  - intros sh. unfold call.
    destruct (call_queue (_hooks self) sh) as [sh' evs] eqn:Hq.
    apply call_queue_spec in Hq as (_ & Hn & He & Hw). by split_and!.
  - intros name kw.
    destruct (add self name kw) as [[r self'] evs] eqn:Hadd.
    pose proof (add_spec _ _ _ _ _ _ Hadd) as (H1 & H2 & H3 & H4).
    split_and!; try done.
    intros h args k Hc Hargs Hfmt.
    destruct (add_unknown_key _ _ _ _ _ _ Hc Hargs Hfmt) as [s' Heq].
    rewrite Heq in Hadd. by injection Hadd as <- <- <-.
Qed.

(** An unknown key at work: [{host}] was not passed. *)
Lemma hooks_call_and_add_witness :
  (add (new_hooks commands0) "d" [("file", "cert.pem")]).1.1 = Ok ()
  /\ (add (new_hooks commands0) "d" [("file", "cert.pem")]).2
     = [Log WARNING "Invalid hook specification for %s, unknown key %s" ["d"; "host"]].
Proof.
  pose proof (proj2 (hooks_call_and_add (new_hooks commands0))
                "d" [("file", "cert.pem")]) as H.
  destruct (add (new_hooks commands0) "d" [("file", "cert.pem")]) as [[r s] evs].
  destruct H as (_ & _ & _ & _ & H).
  apply (H (HookDict (Some ["scp"; "{file}"; "{host}:/srv"]) [])
           ["scp"; "{file}"; "{host}:/srv"] "host"); reflexivity.
Defined.

End HooksFacts.

(** ** Registration bootstrap *)

Module AcmeFacts.
Import Posix Utils Acme Events UtilsFacts.

(** The exceptions of the [OSError] family. *)
Definition os_error (e : exn) : bool :=
  match e with
  | FileNotFoundError | FileExistsError | IsADirectoryError
  | NotADirectoryError | OSError _ => true
  | _ => false
  end.

Definition os_result {A} (r : res A) : Prop :=
  forall e, r = Raise e -> os_error e = true.

Lemma mkdir_os p w : os_result (mkdir p w).1.
Proof. unfold mkdir. repeat case_match; by intros e [= <-]. Qed.

Lemma makedirs_os d m w : os_result (makedirs d m w).1.
Proof. apply mkdir_os. Qed.

Lemma rmdir_os p w : os_result (rmdir p w).1.
Proof. unfold rmdir. repeat case_match; by intros e [= <-]. Qed.

Lemma removedirs_os d w : os_result (removedirs d w).1.
Proof.
  unfold removedirs. pose proof (rmdir_os d w) as H.
  destruct (rmdir d w) as [[[]|e] w']; [done|]. exact H.
Qed.

Lemma rename_os a b w : os_result (rename a b w).1.
Proof. unfold rename. repeat case_match; by intros e [= <-]. Qed.

Lemma write_file_os p c w : os_result (write_file p c w).1.
Proof. unfold write_file. repeat case_match; by intros e [= <-]. Qed.

Lemma mktemp_os prefix dir w : os_result (mktemp prefix dir w).1.
Proof.
  unfold mktemp. generalize TMP_MAX. intros n. revert w.
  induction n as [|n IH]; intros w; simpl; [by intros e [= <-]|].
  destruct (exists_ _ _); [apply IH|done].
Qed.

Lemma apply_os op ad w : os_result (apply op ad w).1.1.1.
Proof.
  assert (Hwa : os_result (write_apply op ad w).1.1.1).
  { unfold write_apply.
    destruct (tmp_path op ad w) as [[rt op1] w1] eqn:Htmp.
    assert (Hrt : os_result rt).
    { unfold tmp_path in Htmp. pose proof (mktemp_os ".old-" (dirname (file_path op)) w) as Hm.
      destruct (mktemp _ _ w) as [rm wm]. simpl in Hm.
      destruct (cls op); [by injection Htmp as <- _ _| |];
        (destruct ad as [d|]; [destruct (Str.truthy d)|]);
        injection Htmp as <- _ _; done. }
    destruct rt as [tmp|e]; [|simpl; intros e' [= <-]; by apply Hrt].
    destruct (move_aside op1 tmp w1) as [[rm op2] w2] eqn:Hmv.
    assert (Hrm : os_result rm).
    { unfold move_aside in Hmv.
      pose proof (makedirs_os (dirname tmp)
                    (dirmode (if mode op1 =? 0 then 448 else mode op1)) w1) as Hmk.
      destruct (makedirs _ _ w1) as [r1 wa]. simpl in Hmk.
      set (opa := if is_ok r1 then set_rmdir op1 true else op1) in *.
      assert (Hcont : forall r op' w',
                (let '(r2, w) := rename (file_path opa) tmp wa in
                 match r2 with
                 | Ok _ => (Ok (), set_tmp_path opa (Some tmp), w)
                 | Raise FileNotFoundError =>
                     if _rmdir opa
                     then let '(r, w) := removedirs (dirname tmp) w in (r, opa, w)
                     else (Ok (), opa, w)
                 | Raise e => (Raise e, opa, w)
                 end) = (r, op', w') -> os_result r).
      { intros r op' w'. pose proof (rename_os (file_path opa) tmp wa) as Hrn.
        destruct (rename _ _ wa) as [r2 wb]. simpl in Hrn.
        destruct r2 as [[]|e2]; [by intros [= <- _ _]|].
        pose proof (removedirs_os (dirname tmp) wb) as Hrd.
        destruct (removedirs _ wb) as [r3 wc]. simpl in Hrd.
        specialize (Hrn e2 eq_refl).
        destruct e2; try (intros [= <- _ _]; by intros e' [= <-]).
        destruct (_rmdir opa); by intros [= <- _ _]. }
      destruct r1 as [[]|e1]; [by eapply Hcont|].
      specialize (Hmk e1 eq_refl).
      destruct e1; try (injection Hmv as <- _ _; by intros e' [= <-]).
      by eapply Hcont. }
    destruct rm as [[]|e]; [|simpl; intros e' [= <-]; by apply Hrm].
    unfold write_content. destruct (_content op2) as [c|]; [|done].
    destruct (Str.truthy c); [|done].
    pose proof (write_file_os (file_path op2) c w2) as Hwf.
    destruct (write_file _ _ w2) as [[[]|e] w3]; [done|]. exact Hwf. }
  unfold apply. destruct (write_apply op ad w) as [[[r op'] w'] evs].
  simpl in Hwa. destruct (cls op), r as [[]|e]; simpl; try done;
    by destruct (_ && _).
Qed.

Lemma apply_all_os ops ad w : os_result (apply_all ops ad w).1.1.1.1.
Proof.
  revert w. induction ops as [|op ops IH]; intros w; simpl; [done|].
  pose proof (apply_os op ad w) as Hop.
  destruct (apply op ad w) as [[[[[]|e] op'] w'] evs]; simpl in Hop.
  - specialize (IH w'). by destruct (apply_all ops ad w') as [[[[? ?] ?] ?] ?].
  - done.
Qed.

(** A commit fails with errors of the operating system only. *)
Lemma commit_os ops ad w : os_result (commit_file_transactions ops ad w).1.1.1.
Proof.
  unfold commit_file_transactions. destruct ops as [|op0 ops0]; [done|].
  pose proof (apply_all_os (op0 :: ops0) ad w) as H.
  destruct (apply_all _ ad w) as [[[[r applied] pending] w1] evs1]. simpl in H.
  destruct r as [[]|e].
  - by destruct (cleanup_all applied w1) as [[? ?] ?].
  - by destruct (revert_all applied w1) as [[? ?] ?].
Qed.

(** An answer that starts with [y] or [Y]. *)
Definition starts_with_y (a : string) : Prop :=
  exists rest, a = String "y" rest \/ a = String "Y" rest.

Lemma lower_starts_with_y a :
  Str.startswith "y" (Str.lower a) = true <-> starts_with_y a.
Proof.
  destruct a as [|c rest]; simpl.
  { split; [done|]. by intros [? [|]]. }
  rewrite andb_true_r. split.
  - intros Hc. exists rest.
    destruct c as [[] [] [] [] [] [] [] []]; vm_compute in Hc; try done; auto.
  - intros [rest' [[= -> _]|[= -> _]]]; reflexivity.
Qed.

(** The stored registration survives the load only with the scheme
    and the network location of the configured directory. *)
Lemma load_registration_spec env rd url o evs :
  load_registration env rd url = (o, evs) ->
  forallb is_log evs = true
  /\ match o with
     | Some reg =>
         stored_registration env = Some reg
         /\ Url.scheme (Url.urlparse url) = Url.scheme (Url.urlparse (uri reg))
         /\ Url.netloc (Url.urlparse url) = Url.netloc (Url.urlparse (uri reg))
     | None =>
         forall reg, stored_registration env = Some reg ->
           Url.scheme (Url.urlparse url) <> Url.scheme (Url.urlparse (uri reg))
           \/ Url.netloc (Url.urlparse url) <> Url.netloc (Url.urlparse (uri reg))
     end.
Proof.
  unfold load_registration. destruct (stored_registration env) as [reg|].
  2:{ by intros [= <- <-]. }
  destruct (String.eqb (Url.scheme _) (Url.scheme _)) eqn:Hs;
    destruct (String.eqb (Url.netloc _) (Url.netloc _)) eqn:Hn;
    simpl; intros [= <- <-]; (split; [done|]).
  - apply String.eqb_eq in Hs, Hn. done.
  - apply String.eqb_neq in Hn. intros ? [= <-]. by right.
  - apply String.eqb_neq in Hs. intros ? [= <-]. by left.
  - apply String.eqb_neq in Hs. intros ? [= <-]. by left.
Qed.

(** What the registration block asks and submits. *)
Lemma register_spec env acct tos path r evs :
  register env acct tos path = (r, evs) ->
  (forall reg op, r = Ok (reg, op) ->
     exists agreed, new_account env acct agreed = Ok reg
                    /\ accounts evs = [(acct, agreed)]
                    /\ op = set_content (ArchiveAndWriteOperation "resource" path 384 None)
                                        (Some (json_dumps env reg)))
  /\ match tos with
     | Some t =>
         if isatty env then
           inputs evs = ["Accept? (Y/n) "]
           /\ (answer env = "" \/ starts_with_y (answer env) ->
               accounts evs = [(acct, true)])
           /\ (~ (answer env = "" \/ starts_with_y (answer env)) ->
               r = Raise (PyException "Terms of service rejected.")
               /\ accounts evs = [])
         else
           inputs evs = [] /\ accounts evs = [(acct, true)]
           /\ Log DEBUG "Terms of service auto-accepted: %s" [t] ∈ evs
     | None => inputs evs = [] /\ accounts evs = [(acct, false)]
     end.
Proof.
  unfold register.
  assert (Hsub : forall agreed reg op,
    submit env acct path agreed = Ok (reg, op) ->
    new_account env acct agreed = Ok reg
    /\ op = set_content (ArchiveAndWriteOperation "resource" path 384 None)
                        (Some (json_dumps env reg))).
  { intros agreed reg op. unfold submit.
    destruct (new_account env acct agreed) as [reg'|e]; [|done].
    simpl. by intros [= <- <-]. }
  destruct tos as [t|]; [destruct (isatty env)|].
  - destruct (Str.truthy (answer env) && _) eqn:Hrej; intros [= <- <-].
    + split; [done|]. split_and!; [done| |done].
      intros Hyes. exfalso. apply andb_true_iff in Hrej as [Ht Hn].
      destruct Hyes as [Hempty|Hy]; [by rewrite Hempty in Ht|].
      apply lower_starts_with_y in Hy. by rewrite Hy in Hn.
    + split.
      * intros reg op Hr. destruct (Hsub _ _ _ Hr) as [? ?]. by exists true.
      * split_and!; [done|done|].
        intros Hno. exfalso. apply Hno.
        apply andb_false_iff in Hrej as [Ht|Hn].
        -- left. by destruct (answer env).
        -- right. apply lower_starts_with_y. by destruct (Str.startswith _ _).
  - intros [= <- <-]. split.
    + intros reg op Hr. destruct (Hsub _ _ _ Hr) as [? ?]. by exists true.
    + split_and!; [done|done|]. left.
  - intros [= <- <-]. split.
    + intros reg op Hr. destruct (Hsub _ _ _ Hr) as [? ?]. by exists false.
    + done.
Qed.

(** A registration block that returns has asked the server for an
    account, with the terms agreed exactly when the directory
    advertises terms, and has prepared the write of what the server
    returned. *)
Lemma register_agreed env acct tos path reg op evs :
  register env acct tos path = (Ok (reg, op), evs) ->
  new_account env acct (bool_decide (is_Some tos)) = Ok reg
  /\ accounts evs = [(acct, bool_decide (is_Some tos))]
  /\ op = set_content (ArchiveAndWriteOperation "resource" path 384 None)
                      (Some (json_dumps env reg)).
Proof.
  unfold register, submit.
  destruct tos as [t|].
  - assert (bool_decide (is_Some (Some t)) = true) as ->
      by (by apply bool_decide_eq_true_2).
    destruct (isatty env); [destruct (_ && _); [done|]|];
      destruct (new_account env acct true) as [reg'|e] eqn:Hnew; try done;
      simpl; intros [= <- <- <-]; by rewrite ?accounts_app.
  - assert (bool_decide (is_Some (@None string)) = false) as ->
      by (apply bool_decide_eq_false_2; by intros [? ?]).
    destruct (new_account env acct false) as [reg'|e] eqn:Hnew; try done.
    simpl. by intros [= <- <- <-].
Qed.

(** The registration block goes on to the server unless the operator,
    asked on a terminal about advertised terms, answers something
    else than nothing or a word in [y]. *)
Definition terms_accepted (env : Env) (tos : option string) : Prop :=
  tos = None \/ isatty env = false
  \/ answer env = "" \/ starts_with_y (answer env).

Lemma register_submits env acct tos path reg :
  terms_accepted env tos ->
  new_account env acct (bool_decide (is_Some tos)) = Ok reg ->
  exists evs,
    register env acct tos path
    = (Ok (reg, set_content (ArchiveAndWriteOperation "resource" path 384 None)
                            (Some (json_dumps env reg))), evs).
Proof.
  intros Hacc Hnew. unfold register, submit.
  destruct tos as [t|]; [destruct (isatty env) eqn:Htty|].
  - assert (Str.truthy (answer env)
            && negb (Str.startswith "y" (Str.lower (answer env))) = false) as ->.
    { destruct Hacc as [[=]|[?|[->|Hy]]]; [congruence|reflexivity|].
      apply lower_starts_with_y in Hy. rewrite Hy. apply andb_false_r. }
    rewrite bool_decide_eq_true_2 in Hnew by done. rewrite Hnew. by eexists.
  - rewrite bool_decide_eq_true_2 in Hnew by done. rewrite Hnew. by eexists.
  - rewrite bool_decide_eq_false_2 in Hnew by (by intros [? ?]).
    rewrite Hnew. by eexists.
Qed.

(** [connect_client] when the load leaves no registration: it either
    fails or registers. *)
Lemma connect_unregistered env rd acct url pass ad w r w' evs :
  (load_registration env rd url).1 = None ->
  connect_client env rd acct url pass ad w = (r, w', evs) ->
  match directory env with
  | Raise _ =>
      r = Raise (AcmeError "Can't connect to ACME service" [])
      /\ accounts evs = [] /\ inputs evs = [] /\ w' = w
  | Ok tos =>
      let '(rr, revs) := register env acct tos (join rd "registration.json") in
      accounts evs = accounts revs /\ inputs evs = inputs revs
      /\ (forall e, e ∈ revs -> e ∈ evs)
      /\ match rr with
         | Raise _ =>
             r = Raise (AcmeError "Can't register with ACME service" []) /\ w' = w
         | Ok (reg, _) => forall c, r = Ok c -> account c = Some reg
         end
  end.
Proof.
  unfold connect_client.
  destruct (load_registration env rd url) as [o evs0] eqn:Hload.
  apply load_registration_spec in Hload as [Hlogs0 _].
  apply logs_silent in Hlogs0 as (_ & _ & _ & _ & Ha0 & Hi0 & _).
  simpl. intros ->.
  set (cipher := match pass with
                 | Some p => if Str.truthy p then get_key_cipher env p else None
                 | None => None
                 end).
  set (ops := [] ++ [set_content _ _]).
  destruct (directory env) as [tos|e].
  2:{ intros [= <- <- <-]. rewrite !accounts_app, !inputs_app, Ha0, Hi0. done. }
  destruct (register env acct tos _) as [[[reg op]|e] evs3] eqn:Hreg.
  - destruct (commit_file_transactions _ ad w) as [[[rc opsc] wc] evsc] eqn:Hc.
    apply commit_fs, fs_silent in Hc as (_ & Hac & Hic & _).
    intros Hrun.
    assert (evs = (((evs0 ++ [] ++ []) ++
              [Log DEBUG "Fetching meta from acme server '%s'" [url]]) ++
              (Log INFO "Registering client" [] :: evs3) ++ evsc)) as ->
      by (destruct rc; by injection Hrun).
    rewrite !accounts_app, !inputs_app, Ha0, Hi0, Hac, Hic. simpl.
    rewrite !app_nil_r. split_and!; [done|done| |].
    + intros e He. repeat (rewrite elem_of_app || rewrite elem_of_cons). tauto.
    + intros c ->. destruct rc; [|done]. by injection Hrun as <- _.
  - intros [= <- <- <-].
    rewrite !accounts_app, !inputs_app, Ha0, Hi0. simpl. rewrite !app_nil_r.
    split_and!; try done.
    intros e0 He. repeat (rewrite elem_of_app || rewrite elem_of_cons). tauto.
Qed.

(** *** C5 *)

(** C5. A stored registration is kept by the load only when the
    scheme and the host of its URI equal those of the configured
    directory URL. When the scheme or the host differs, the load drops
    it and logs that the service has changed; and then, once the
    directory is fetched, the terms are not rejected and the server
    grants the account, [connect_client] asks the server for one new
    account, for the configured e-mail address, and returns a client
    with a newly created key and the registration the server returned,
    unless writing the files fails with an error of the operating
    system. So a run that returns without having registered had a
    stored registration of the same scheme and host. *)
Theorem registration_kept_only_for_same_origin env rd acct url pass ad w reg :
  stored_registration env = Some reg ->
  let here := Url.urlparse url in
  let there := Url.urlparse (uri reg) in
  let same_origin :=
    Url.scheme here = Url.scheme there
    /\ Url.hostname (Url.netloc here) = Url.hostname (Url.netloc there) in
  ((load_registration env rd url).1 = Some reg -> same_origin)
  /\ (~ same_origin ->
      (load_registration env rd url).1 = None
      /\ Log INFO "ACME service URL has changed, re-registering with new client key" []
           ∈ (load_registration env rd url).2
      /\ forall tos registration r w' evs,
          directory env = Ok tos ->
          terms_accepted env tos ->
          new_account env acct (bool_decide (is_Some tos)) = Ok registration ->
          connect_client env rd acct url pass ad w = (r, w', evs) ->
          accounts evs = [(acct, bool_decide (is_Some tos))]
          /\ match r with
             | Ok c => account c = Some registration
                       /\ client_key c = created_key env
             | Raise e => os_error e = true
             end)
  /\ (forall c w' evs,
        connect_client env rd acct url pass ad w = (Ok c, w', evs) ->
        accounts evs = [] -> same_origin).
Proof.
  intros Hstored here there same_origin.
  destruct (load_registration env rd url) as [o evs0] eqn:Hload.
  pose proof (load_registration_spec _ _ _ _ _ Hload) as [Hlogs0 Hspec]. simpl.
  assert (Hkept : o = Some reg -> same_origin).
  { intros ->. destruct Hspec as (_ & Hs & Hn). split; [done|].
    unfold here, there. by rewrite Hn. }
  assert (Hdrop : ~ same_origin -> o = None).
  { intros Hno. destruct o as [reg'|]; [|done].
    destruct Hspec as (Hst & _). rewrite Hstored in Hst. injection Hst as <-.
    by destruct Hno; apply Hkept. }
  assert (Hlog : o = None ->
            Log INFO "ACME service URL has changed, re-registering with new client key" []
              ∈ evs0).
  { intros ->. revert Hload. unfold load_registration. rewrite Hstored.
    destruct (_ || _); [|done]. intros [= <-]. right. left. }
  assert (Hnew : o = None -> forall c w' evs,
    connect_client env rd acct url pass ad w = (Ok c, w', evs) ->
    accounts evs <> []).
  { intros -> c w' evs Hrun.
    apply connect_unregistered in Hrun; [|by rewrite Hload].
    destruct (directory env) as [tos|e]; [|by destruct Hrun].
    destruct (register env acct tos _) as [rr revs] eqn:Hreg.
    destruct Hrun as (Ha & _ & _ & Hr).
    destruct rr as [[registration op]|e]; [|by destruct Hr].
    apply register_agreed in Hreg as (_ & Hacc & _). by rewrite Ha, Hacc. }
  split_and!; [done| |].
  { intros Hno. specialize (Hdrop Hno). subst o.
    split_and!; [done|by apply Hlog|].
    intros tos registration r w' evs Hdir Hterms Hgrant Hrun.
    pose proof Hrun as Hun. apply connect_unregistered in Hun; [|by rewrite Hload].
    rewrite Hdir in Hun.
    destruct (register_submits env acct tos (join rd "registration.json")
                registration Hterms Hgrant) as (revs & Hreg).
    rewrite Hreg in Hun. destruct Hun as (Ha & _ & _ & Hacct).
    apply register_agreed in Hreg as (_ & Hacc & _).
    split; [by rewrite Ha|].
    revert Hrun. unfold connect_client. rewrite Hload, Hdir.
    destruct (register env acct tos _) as [[[registration' op]|e] evs3] eqn:Hreg';
      [|by destruct (register_submits env acct tos (join rd "registration.json")
                       registration Hterms Hgrant) as (? & ?); congruence].
    destruct (commit_file_transactions _ ad w) as [[[rc opsc] wc] evsc] eqn:Hc.
    match type of Hc with
    | commit_file_transactions ?ops _ _ = _ => pose proof (commit_os ops ad w) as Hos
    end.
    rewrite Hc in Hos. simpl in Hos.
    destruct rc as [[]|e]; intros [= <- <- <-].
    - split; [by apply Hacct|done].
    - by apply Hos. }
  intros c w' evs Hrun Hnone.
  destruct (decide (Url.scheme here = Url.scheme there)) as [Hs|Hs];
    [destruct (decide (Url.hostname (Url.netloc here)
                       = Url.hostname (Url.netloc there))) as [Hh|Hh]|].
  - done.
  - assert (Hno : ~ same_origin) by (by intros [_ ?]).
    by destruct (Hnew (Hdrop Hno) _ _ _ Hrun).
  - assert (Hno : ~ same_origin) by (by intros [? _]).
    by destruct (Hnew (Hdrop Hno) _ _ _ Hrun).
Qed.

(** The directory moved from [acme-v1] to [acme-v2]: nothing is
    encrypted, the terminal is not interactive, the server advertises
    terms of service and registers whoever asks. *)
Definition env0 : Env :=
  mkEnv (Some (mkRegistration "https://acme-v1.example.com/reg/42" "old"))
        (Some (mkKey "old key" false)) None None
        (mkKey "new key" false) (fun _ => None)
        (fun k _ => material k)
        (Ok (Some "https://example.com/terms"))
        false ""
        (fun email agreed => Ok (mkRegistration "https://acme-v2.example.com/reg/7" email))
        uri.

Definition w_empty : World := mkWorld ∅ {[ "/etc/acme" ]} abc 0.

Lemma registration_kept_only_for_same_origin_witness :
  let run := connect_client env0 "/etc/acme" "admin@example.com"
               "https://acme-v2.example.com/directory" None None w_empty in
  (load_registration env0 "/etc/acme" "https://acme-v2.example.com/directory").1 = None
  /\ accounts run.2 = [("admin@example.com", true)]
  /\ match run.1.1 with
     | Ok c => account c = Some (mkRegistration "https://acme-v2.example.com/reg/7"
                                                "admin@example.com")
               /\ client_key c = mkKey "new key" false
     | Raise e => os_error e = true
     end.
Proof.
  intros run.
  destruct (registration_kept_only_for_same_origin env0 "/etc/acme" "admin@example.com"
              "https://acme-v2.example.com/directory" None None w_empty
              (mkRegistration "https://acme-v1.example.com/reg/42" "old") eq_refl)
    as (_ & Hmoved & _).
  destruct Hmoved as (Hload & _ & Hrun).
  { vm_compute. intros [_ H]. discriminate H. }
  split; [exact Hload|].
  apply (Hrun (Some "https://example.com/terms")
              (mkRegistration "https://acme-v2.example.com/reg/7" "admin@example.com")
              run.1.1 run.1.2 run.2).
  - reflexivity.
  - right. by left.
  - reflexivity.
  - by vm_compute.
Defined.

(** Scenario: the stored registration is discarded, a new client key
    and the new registration are written. *)
Example directory_url_change :
  let '(r, w', evs) :=
    connect_client env0 "/etc/acme" "admin@example.com"
                   "https://acme-v2.example.com/directory" None None w_empty in
  is_ok r = true
  /\ accounts evs = [("admin@example.com", true)]
  /\ files w' !! "/etc/acme/client.key" = Some "new key"
  /\ files w' !! "/etc/acme/registration.json"
     = Some "https://acme-v2.example.com/reg/7".
Proof. by vm_compute. Qed.

(** A port is part of the network location: the same scheme and host
    on another port is also a move of the service. *)
Example other_port_is_another_service :
  (load_registration env0 "/etc/acme" "https://acme-v1.example.com:8443/directory").1
  = None.
Proof. reflexivity. Qed.

(** *** C7 *)

Definition env_tty (answer : string) : Env :=
  mkEnv None None None None (mkKey "new key" false) (fun _ => None)
        (fun k _ => material k) (Ok (Some "https://example.com/terms"))
        true answer
        (fun email agreed => Ok (mkRegistration "https://acme-v2.example.com/reg/7" email))
        uri.

(** C7, as stated, fails: the empty answer does not start with [y],
    and the client registers all the same. *)
Lemma empty_answer_accepts_terms :
  let '(r, _, evs) :=
    connect_client (env_tty "") "/etc/acme" "admin@example.com"
                   "https://acme-v2.example.com/directory" None None w_empty in
  Str.startswith "y" (Str.lower (answer (env_tty ""))) = false
  /\ inputs evs = ["Accept? (Y/n) "]
  /\ accounts evs = [("admin@example.com", true)]
  /\ is_ok r = true.
Proof. by vm_compute. Qed.

(** C7, amended. No registration is stored and the directory
    advertises terms of service. On a terminal the client asks
    [Accept? (Y/n)] once; for the empty answer and for an answer that
    starts with [y] or [Y] it submits the registration with the terms
    agreed; for any other answer it submits nothing, changes no file
    and fails with [Can't register with ACME service]. Without a
    terminal it asks nothing, logs that the terms were auto-accepted
    and submits the registration with the terms agreed. *)
Theorem terms_of_service_prompt env rd acct url pass ad w tos r w' evs :
  stored_registration env = None ->
  directory env = Ok (Some tos) ->
  connect_client env rd acct url pass ad w = (r, w', evs) ->
  if isatty env then
    inputs evs = ["Accept? (Y/n) "]
    /\ (answer env = "" \/ starts_with_y (answer env) ->
        accounts evs = [(acct, true)])
    /\ (~ (answer env = "" \/ starts_with_y (answer env)) ->
        r = Raise (AcmeError "Can't register with ACME service" [])
        /\ accounts evs = [] /\ w' = w)
  else
    inputs evs = [] /\ accounts evs = [(acct, true)]
    /\ Log DEBUG "Terms of service auto-accepted: %s" [tos] ∈ evs.
Proof.
  intros Hstored Hdir Hrun.
  apply connect_unregistered in Hrun;
    [|by unfold load_registration; rewrite Hstored].
  rewrite Hdir in Hrun.
  destruct (register env acct (Some tos) _) as [rr revs] eqn:Hreg.
  destruct Hrun as (Ha & Hi & Hin & Hr).
  apply register_spec in Hreg as [_ Hreg].
  destruct (isatty env).
  - destruct Hreg as (Hinp & Hyes & Hno). rewrite Ha, Hi.
    split_and!; [done|done|].
    intros Hn. destruct (Hno Hn) as [-> Hacc]. by destruct Hr.
  - destruct Hreg as (Hinp & Hacc & Hlog). rewrite Ha, Hi. auto.
Qed.

Lemma terms_of_service_prompt_witness :
  let '(r, w', evs) :=
    connect_client (env_tty "no") "/etc/acme" "admin@example.com"
                   "https://acme-v2.example.com/directory" None None w_empty in
  inputs evs = ["Accept? (Y/n) "]
  /\ (answer (env_tty "no") = "" \/ starts_with_y (answer (env_tty "no")) ->
      accounts evs = [("admin@example.com", true)])
  /\ (~ (answer (env_tty "no") = "" \/ starts_with_y (answer (env_tty "no"))) ->
      r = Raise (AcmeError "Can't register with ACME service" [])
      /\ accounts evs = [] /\ w' = w_empty).
Proof.
  destruct (connect_client (env_tty "no") "/etc/acme" "admin@example.com"
              "https://acme-v2.example.com/directory" None None w_empty)
    as [[r w'] evs] eqn:Hrun.
  apply (terms_of_service_prompt (env_tty "no") "/etc/acme" "admin@example.com"
           "https://acme-v2.example.com/directory" None None w_empty
           "https://example.com/terms" r w' evs); [reflexivity|reflexivity|exact Hrun].
Defined.

Example rejected_terms :
  (connect_client (env_tty "no") "/etc/acme" "admin@example.com"
                  "https://acme-v2.example.com/directory" None None w_empty).1.1
  = Raise (AcmeError "Can't register with ACME service" []).
Proof. reflexivity. Qed.

End AcmeFacts.

(** ** The authorization poll loop *)

Module AuthzFacts.
Import Posix Utils Authz Events.


Definition timed_out (domain_name : string) : exn :=
  AcmeError "Authorization timed out for {}" [domain_name].




(** *** The counter is kept per returned authorization *)










(** *** C4 *)

(** One pending authorization for [example.com], its challenge file
    directory, two hooks, and a server that answers [pending] with
    [Retry-After: 1] for ever. *)
Definition challenge0 : Challenge := mkChallenge "http-01" "tok" "tok.thumbprint" None.
Definition authz0 : AuthorizationResource :=
  mkAuthz "example.com" STATUS_PENDING [challenge0].
Definition pending_server : Server :=
  mkServer (fun _ => Ok ()) (fun _ a => Ok (a, mkResponse 200 (Some 1))) 0.
Definition commands0 : gmap string command :=
  {[ "set_http_challenge" := CmdOne (HookStr "deploy {domain} {file}");
     "clear_http_challenge" := CmdOne (HookStr "undeploy {domain} {file}") ]}.
Definition state0 (sv : Server) : State :=
  mkState (mkWorld ∅ {[ "/var"; "/var/www" ]} (fun _ => "x") 0)
          (new_hooks commands0) (mkShell (fun _ _ => Ok "") 0) sv 0.






End AuthzFacts.

(** ** [handle_authorizations] *)

Module AuthorizeFacts.
Import Posix Utils Authz Authorize Events HooksFacts AuthzFacts.

Definition challenge_dir (identifier : string) : option string :=
  Some "/var/www/challenges".

(** A server that declares the authorization invalid, and one that
    declares it valid, at the first poll. *)
Definition invalid_server : Server :=
  mkServer (fun _ => Ok ())
           (fun _ a => Ok (mkAuthz (identifier a) STATUS_INVALID (challenges a),
                           mkResponse 200 None)) 0.
Definition valid_server : Server :=
  mkServer (fun _ => Ok ())
           (fun _ a => Ok (mkAuthz (identifier a) STATUS_VALID (challenges a),
                           mkResponse 200 None)) 0.

Definition set_hook : string * list string :=
  ("set_http_challenge", ["deploy"; "example.com"; "/var/www/challenges/tok"]).
Definition clear_hook : string * list string :=
  ("clear_http_challenge", ["undeploy"; "example.com"; "/var/www/challenges/tok"]).

Lemma flatten_names q n a : (n, a) ∈ flatten q -> n ∈ q.*1.
Proof.
  induction q as [|[m hs] q IH]; simpl; [by intros ?%elem_of_nil|].
  intros [Hin|Hin]%elem_of_app.
  - apply list_elem_of_fmap in Hin as (h & [= -> ->] & _). left.
  - right. by apply IH.
Qed.

Lemma add_logs self name kw r self' evs :
  add self name kw = (r, self', evs) -> forallb is_log evs = true.
Proof.
  unfold add. destruct (_commands self !! name); [|by intros [= <- <- <-]].
  destruct (negb _); [by intros [= <- <- <-]|].
  destruct (add_loop _ _ _ _) as [[[]|e] q]; [by intros [= <- <- <-]|].
  destruct e; by intros [= <- <- <-].
Qed.

Lemma hooks_add_spec name d f st r st' evs :
  hooks_add name d f st = (r, st', evs) ->
  execs evs = []
  /\ world st' = world st
  /\ forall n, n ∈ (_hooks (hooks st')).*1 -> n ∈ (_hooks (hooks st)).*1 \/ n = name.
Proof.
  unfold hooks_add.
  destruct (add (hooks st) name _) as [[r0 h] evs0] eqn:Hadd.
  intros [= <- <- <-].
  pose proof (add_logs _ _ _ _ _ _ Hadd) as (_ & _ & _ & He & _)%logs_silent.
  apply add_spec in Hadd as (_ & _ & (new & Hnames & Hnew) & _).
  split_and!; [done|done|]. simpl. intros n. rewrite Hnames.
  intros [Hin|Hin]%elem_of_app; [by left|].
  destruct Hnew as [->|[-> _]]; [by apply elem_of_nil in Hin|].
  right. by apply list_elem_of_singleton in Hin.
Qed.

Lemma hooks_call_spec st st' evs :
  hooks_call st = (st', evs) ->
  execs evs = flatten (_hooks (hooks st))
  /\ _hooks (hooks st') = [] /\ world st' = world st.
Proof.
  unfold hooks_call, call.
  destruct (call_queue _ _) as [sh evs0] eqn:Hq.
  apply call_queue_spec in Hq as (_ & _ & He & _). by intros [= <- <-].
Qed.

Lemma collect_logs order a r res evs :
  collect order a r = (res, evs) -> forallb is_log evs = true.
Proof.
  revert a r res evs. induction order as [|x order IH]; intros a r res evs; simpl.
  { by intros [= <- <-]. }
  destruct (auth_status x).
  - destruct (collect order a _) as [r0 e0] eqn:Hc. intros [= <- <-].
    simpl. by eapply IH.
  - destruct (collect order _ r) as [r0 e0] eqn:Hc. intros [= <- <-].
    simpl. by eapply IH.
  - by intros [= <- <-].
  - by intros [= <- <-].
Qed.

(** Setting up the challenges runs no command and queues hooks under
    [set_http_challenge] only. *)
Lemma setup_spec resources dir responses st r st' evs :
  setup resources dir responses st = (r, st', evs) ->
  execs evs = []
  /\ forall n, n ∈ (_hooks (hooks st')).*1 ->
               n ∈ (_hooks (hooks st)).*1 \/ n = "set_http_challenge".
Proof.
  revert responses st r st' evs.
  induction resources as [|[d a] rest IH]; intros responses st r st' evs; simpl.
  { intros [= <- <- <-]. auto. }
  destruct (dir (identifier a)) as [p|]; [|intros [= <- <- <-]; auto].
  destruct (negb (Str.truthy p)); [intros [= <- <- <-]; auto|].
  destruct (_get_challenge a "http-01") as [c|]; [|intros [= <- <- <-]; auto].
  destruct (write_challenge d _ _ responses st) as [[[rw resp] st1] evs1] eqn:Hw.
  assert (Hw1 : execs evs1 = []
                /\ forall n, n ∈ (_hooks (hooks st1)).*1 ->
                             n ∈ (_hooks (hooks st)).*1 \/ n = "set_http_challenge").
  { unfold write_challenge in Hw.
    destruct (makedirs_exist_ok _ _ _) as [[[]|e] w1];
      [|injection Hw as <- <- <- <-; auto].
    destruct (write_file _ _ w1) as [[[]|e] w2];
      [|injection Hw as <- <- <- <-; auto].
    destruct (hooks_add _ _ _ _) as [[ra sta] evsa] eqn:Ha.
    injection Hw as <- <- <- <-.
    apply hooks_add_spec in Ha as (He & _ & Hn). auto. }
  destruct Hw1 as [He1 Hn1].
  destruct rw as [[]|e].
  - destruct (setup rest dir resp st1) as [[r2 st2] evs2] eqn:Hrest.
    intros [= <- <- <-]. apply IH in Hrest as [He2 Hn2].
    simpl. rewrite !execs_app, He1, He2. split; [done|].
    intros n Hin. destruct (Hn2 n Hin) as [Hin'|]; auto.
  - destruct (remove_all _ _) as [[[]|e'] w1]; intros [= <- <- <-];
      simpl; rewrite ?execs_app, He1; auto.
Qed.

Lemma poll_step_quiet retry delay l st res st' evs :
  poll_step retry delay l st = (res, st', evs) ->
  execs evs = [] /\ hooks st' = hooks st /\ world st' = world st.
Proof.
  unfold poll_step. destruct (waiting l) as [|[[when d] a] rest].
  { by intros [= <- <- <-]. }
  set (slept := if (now st <? when) && (0 <? (when - now st) `mod` 86400)
                then (with_now st (now st + (when - now st) `mod` 86400),
                      [Sleep ((when - now st) `mod` 86400);
                       Log DEBUG "Polling for %s" [d]])
                else (st, [])).
  assert (Hsl : hooks slept.1 = hooks st /\ world slept.1 = world st
                /\ execs slept.2 = [])
    by (unfold slept; by destruct (_ && _)).
  destruct slept as [st1 evs1]. simpl in Hsl. destruct Hsl as (Hh & Hw & He).
  destruct (poll (server st1) _ a) as [[a' resp]|e].
  2:{ intros [= <- <- <-]. by rewrite execs_app, He. }
  destruct (negb _).
  { intros [= <- <- <-]. by rewrite !execs_app, He. }
  destruct (auth_status a').
  - destruct (_ <? _); intros [= <- <- <-]; by rewrite !execs_app, He.
  - intros [= <- <- <-]. by rewrite !execs_app, He.
  - destruct (_get_challenge a' "http-01"); intros [= <- <- <-];
      by rewrite !execs_app, He.
  - intros [= <- <- <-]. by rewrite !execs_app, He.
Qed.

Lemma poll_loop_quiet fuel retry delay l st r st' evs :
  poll_loop fuel retry delay l st = Some (r, st', evs) ->
  execs evs = [] /\ hooks st' = hooks st /\ world st' = world st.
Proof.
  revert l st r st' evs. induction fuel as [|fuel IH]; intros l st r st' evs; simpl.
  { destruct (waiting l); [by intros [= <- <- <-]|done]. }
  destruct (waiting l); [by intros [= <- <- <-]|].
  destruct (poll_step retry delay l st) as [[[l1|r1] st1] evs1] eqn:Hstep;
    apply poll_step_quiet in Hstep as (He & Hh & Hw).
  - destruct (poll_loop fuel retry delay l1 st1) as [[[r2 st2] evs2]|] eqn:Hrest;
      [|done].
    intros [= <- <- <-]. apply IH in Hrest as (He2 & Hh2 & Hw2).
    rewrite execs_app, He, He2. split_and!; [done|congruence..].
  - by intros [= <- <- <-].
Qed.

Lemma answer_all_quiet rs sv r evs :
  answer_all rs sv = (r, evs) -> execs evs = [].
Proof.
  revert r evs. induction rs as [|[d a] rs IH]; intros r evs; simpl.
  { by intros [= <- <-]. }
  destruct (match _get_challenge a "http-01" with Some c => _ | None => _ end).
  - destruct (answer_all rs sv) as [r2 evs2] eqn:Hrest. intros [= <- <-].
    simpl. by eapply IH.
  - by intros [= <- <-].
Qed.

Lemma get_authorizations_quiet fuel rs retry delay st r st' evs :
  _get_authorizations fuel rs retry delay st = Some (r, st', evs) ->
  execs evs = [] /\ hooks st' = hooks st /\ world st' = world st.
Proof.
  unfold _get_authorizations.
  destruct (answer_all rs (server st)) as [[[]|e] evs1] eqn:Ha;
    apply answer_all_quiet in Ha; [|by intros [= <- <- <-]].
  destruct (poll_loop _ _ _ _ _) as [[[r2 st2] evs2]|] eqn:Hl; [|done].
  apply poll_loop_quiet in Hl as (He & Hh & Hw). intros [= <- <- <-].
  by rewrite execs_app, Ha, He.
Qed.

Lemma clear_quiet responses st r st' evs :
  clear responses st = (r, st', evs) -> execs evs = [].
Proof.
  revert st r st' evs. induction responses as [|[d f] rest IH]; intros st r st' evs; simpl.
  { by intros [= <- <- <-]. }
  destruct (remove f (world st)) as [[[]|e] w]; [|by intros [= <- <- <-]].
  destruct (hooks_add _ _ _ _) as [[[[]|e] st1] evs1] eqn:Ha;
    apply hooks_add_spec in Ha as (He & _).
  - destruct (clear rest st1) as [[r2 st2] evs2] eqn:Hrest. intros [= <- <- <-].
    apply IH in Hrest. simpl. by rewrite execs_app, He, Hrest.
  - intros [= <- <- <-]. simpl. by rewrite He.
Qed.

(** X16. Whatever the order, the directories and the server: when
    [handle_authorizations] raises, it has run no
    [clear_http_challenge] hook, unless one was queued before the
    call. *)
Lemma failure_runs_no_clear_hook fuel order dir retry delay st e st' evs :
  "clear_http_challenge" ∉ (_hooks (hooks st)).*1 ->
  handle_authorizations fuel order dir retry delay st = Some (Raise e, st', evs) ->
  forall argv, ("clear_http_challenge", argv) ∉ execs evs.
Proof.
  intros Hnone. unfold handle_authorizations.
  destruct (collect order [] []) as [[[auths rs]|e0] evs0] eqn:Hc;
    apply collect_logs in Hc as (_ & _ & _ & He0 & _)%logs_silent.
  2:{ intros [= <- <- <-] argv. rewrite He0. apply not_elem_of_nil. }
  destruct rs as [|r0 rs]; [done|].
  destruct (setup _ dir [] st) as [[[resp|e1] st1] evs1] eqn:Hs;
    apply setup_spec in Hs as [He1 Hn1].
  2:{ intros [= <- <- <-] argv. rewrite execs_app, He0, He1. apply not_elem_of_nil. }
  destruct (hooks_call st1) as [st2 evs2] eqn:Hcall.
  apply hooks_call_spec in Hcall as (He2 & Hq2 & _).
  assert (Hfirst : forall argv, ("clear_http_challenge", argv) ∉ execs evs2).
  { intros argv Hin. rewrite He2 in Hin. apply flatten_names in Hin.
    destruct (Hn1 _ Hin) as [?|?]; done. }
  destruct (_get_authorizations fuel _ retry delay st2) as [[[[polled|e3] st3] evs3]|] eqn:Hg;
    [| |done]; apply get_authorizations_quiet in Hg as (He3 & Hh3 & _).
  - destruct (clear resp st3) as [[[[]|e4] st4] evs4] eqn:Hcl;
      apply clear_quiet in Hcl.
    + by destruct (hooks_call st4).
    + intros [= <- <- <-] argv.
      rewrite !execs_app, He0, He1, He3, Hcl, !app_nil_r. apply Hfirst.
  - destruct (remove_all _ _) as [[[]|e'] w]; intros [= <- <- <-] argv;
      rewrite !execs_app, He0, He1, He3, !app_nil_r; apply Hfirst.
Qed.

(** C3, evaluated. The challenge file of [example.com] is written and
    its [set_http_challenge] hook is run. When the polling then fails
    (the server declares the authorization invalid, or never stops
    answering [pending]), the file is removed and the error is raised,
    but no [clear_http_challenge] hook is queued or run and
    [hooks.call()] is not called again. When the polling succeeds, the
    file is removed and the [clear_http_challenge] hook is run. *)
Theorem failed_polling_runs_no_clear_hook :
  (exists st evs,
      handle_authorizations 10 [authz0] challenge_dir 3 10 (state0 invalid_server)
      = Some (Raise (AcmeError "Authorization failed for domain {}: {}"
                               ["example.com"; "Unknown error"]), st, evs)
      /\ files (world st) !! "/var/www/challenges/tok" = None
      /\ execs evs = [set_hook]
      /\ _hooks (hooks st) = [])
  /\ (exists st evs,
        handle_authorizations 10 [authz0] challenge_dir 3 10 (state0 pending_server)
        = Some (Raise (timed_out "example.com"), st, evs)
        /\ files (world st) !! "/var/www/challenges/tok" = None
        /\ execs evs = [set_hook]
        /\ _hooks (hooks st) = [])
  /\ (exists st evs,
        handle_authorizations 10 [authz0] challenge_dir 3 10 (state0 valid_server)
        = Some (Ok [mkAuthz "example.com" STATUS_VALID [challenge0]], st, evs)
        /\ files (world st) !! "/var/www/challenges/tok" = None
        /\ execs evs = [set_hook; clear_hook]
        /\ _hooks (hooks st) = []).
Proof.
  split_and!; eexists _, _; (split_and!; [vm_compute; reflexivity|..]);
    by vm_compute.
Qed.

(** While the polling runs, the challenge file is in place. *)
Example challenge_file_is_written :
  let '(r, st, _) := setup [("example.com", authz0)] challenge_dir [] (state0 pending_server) in
  r = Ok [("example.com", "/var/www/challenges/tok")]
  /\ files (world st) !! "/var/www/challenges/tok" = Some "tok.thumbprint".
Proof. by vm_compute. Qed.

End AuthorizeFacts.

(** ** The verifier *)

Module VerifyFacts.
Import Verify Events.

Fixpoint retries (k : nat) (delay : Z) : list (option Z) :=
  match k with
  | O => []
  | S k' => Some delay :: None :: retries k' delay
  end.

Definition must_staple_error (item : CertificateItem) (host_desc : string) : event :=
  Log ERROR "[%s:%s] VALIDATION ERROR: Certificate has OCSP Must-Staple but no OSCP staple found on %s"
      (label item ++ [host_desc]).

Lemma compare_chain_logs item d e i : forallb is_log (compare_chain item d e i) = true.
Proof.
  revert i; induction e as [|x e IH]; intros [|y i]; simpl; try done.
  rewrite IH. by case_decide.
Qed.

Lemma report_logs item d certs staple evs :
  report item d certs staple = Ok evs -> forallb is_log evs = true.
Proof.
  unfold report. destruct certs as [|c certs]; [done|].
  assert (Hleaf : forall a b : event, is_log a = true -> is_log b = true ->
            is_log (if decide (certificate item = c) then a else b) = true)
    by (intros; by case_decide).
  assert (Hmid : forall a, forallb is_log a = true ->
            forallb is_log
              (if negb (length (chain item) =? length certs)%nat then a
               else compare_chain item d (chain item) certs) = true)
    by (intros; case (negb _); [done|apply compare_chain_logs]).
  destruct staple as [s|].
  - set (good := String.eqb _ _). intros [= <-].
    cbn [forallb]. rewrite forallb_app, Hleaf, Hmid by done. by destruct good.
  - intros [= <-].
    cbn [forallb]. rewrite forallb_app, Hleaf, Hmid by done.
    by case (has_oscp_must_staple _).
Qed.

(** The retry loop handshakes with the name it was given, at most
    [budget] times, each time after one sleep of the configured delay;
    it comes back without a staple only when the budget is spent. *)
Lemma retry_staple_spec budget delay addr h installed net r net' evs :
  retry_staple budget delay addr h installed net = (r, net', evs) ->
  exists k : nat,
    (k <= budget)%nat
    /\ timeline evs = retries k delay
    /\ fetches evs = replicate k (ip addr, h)
    /\ existsb is_error evs = false
    /\ resolved evs = []
    /\ (forall certs, r = Ok (certs, None) -> snd installed = None /\ k = budget)
    /\ (snd installed <> None -> k = 0%nat /\ r = Ok installed).
Proof.
  revert installed net r net' evs.
  induction budget as [|b IH]; intros [certs st] net r net' evs; simpl.
  - destruct st; intros [= <- <- <-]; exists 0%nat; simpl;
      repeat split; try done; try lia; naive_solver.
  - destruct st as [s|].
    { intros [= <- <- <-]; exists 0%nat; simpl.
      repeat split; try done; try lia; naive_solver. }
    unfold fetch_tls_info.
    destruct (tls net (fetched net) addr h) as [inst'|e] eqn:Htls.
    + destruct (retry_staple b delay addr h inst' _) as [[r2 net2] evs2] eqn:Hrec.
      intros [= <- <- <-].
      destruct (IH _ _ _ _ _ Hrec) as (k & Hk & Ht & Hf & He & Hr & Hnone & Hsome).
      exists (S k). simpl. rewrite Ht, Hf, Hr, He.
      repeat split; try done; try lia.
      match goal with H : r2 = Ok _ |- _ => destruct (Hnone _ H); lia end.
    + intros [= <- <- <-]. exists 1%nat. simpl.
      repeat split; try done; try lia.
Qed.




(** ** C6 *)




(** The description of an address in the log. *)
Definition host_desc (host_name : string) (addr : Addr) (port_number : Z) : string :=
  host_name +:+ " at "
  +:+ (if inet6 addr then "[" +:+ ip addr +:+ "]" else ip addr)
  +:+ ":" +:+ pretty port_number.


(** A concrete run: a must-staple certificate, a server that never
    staples, three attempts allowed. *)
Definition leaf0 : Certificate := mkCert "leaf" "example.com" true.
Definition ca0 : Certificate := mkCert "ca" "Example CA" false.
Definition item0 : CertificateItem := mkItem "example.com" "rsa" leaf0 [ca0].
Definition addr0 : Addr := mkAddr false "192.0.2.1".
Definition net0 : Net :=
  mkNet (fun _ _ => Ok [addr0]) (fun _ _ _ => Ok ([leaf0; ca0], None)) 0.

(** A server that staples from its second handshake on. *)
Definition net_late : Net :=
  mkNet (fun _ _ => Ok [addr0])
        (fun n _ _ => match n with
                      | O => Ok ([leaf0; ca0], None)
                      | S _ => Ok ([leaf0; ca0], Some (mkStaple "good"))
                      end) 0.


(** Scenario: no staple on three attempts, then the validation error. *)
Example must_staple_without_staple :
  timeline (verify_addr item0 "example.com" 443 3 5 addr0 net0).2
    = [None; Some 5; None; Some 5; None]
  /\ must_staple_error item0 "example.com at 192.0.2.1:443"
       ∈ (verify_addr item0 "example.com" 443 3 5 addr0 net0).2.
Proof. split; [reflexivity|]. vm_compute. repeat constructor. Qed.

(** Scenario: the staple comes with the second handshake; one retry,
    no validation error. *)
Example staple_on_retry :
  let evs := (verify_addr item0 "example.com" 443 3 5 addr0 net_late).2 in
  timeline evs = [None; Some 5; None] /\ existsb is_error evs = false.
Proof. split; reflexivity. Qed.

(** ** C9 *)

Lemma verify_addr_fetches item h port max delay addr net net' evs :
  verify_addr item h port max delay addr net = (net', evs) ->
  resolved evs = [] /\ Forall (fun f => f = (ip addr, h)) (fetches evs).
Proof.
  unfold verify_addr. set (host_desc := h +:+ _).
  assert (Hf : forall r net1 evs1,
            fetch_with_retries item addr h max delay net = (r, net1, evs1) ->
            resolved evs1 = [] /\ Forall (fun f => f = (ip addr, h)) (fetches evs1)).
  { unfold fetch_with_retries, fetch_tls_info. intros r net1 evs1.
    destruct (tls net (fetched net) addr h) as [inst|e].
    - destruct (has_oscp_must_staple _).
      + destruct (retry_staple _ delay addr h inst _) as [[r2 net2] evs2] eqn:Hrec.
        apply retry_staple_spec in Hrec as (k & _ & _ & Hfe & _ & Hr & _).
        intros [= <- <- <-]. simpl. rewrite Hfe, Hr. split; [done|].
        constructor; [done|]. by apply Forall_replicate.
      + intros [= <- <- <-]. split; [done|]. by repeat constructor.
    - intros [= <- <- <-]. split; [done|]. by repeat constructor. }
  destruct (fetch_with_retries _ _ _ _ _ _) as [[r net1] evs1].
  destruct (Hf _ _ _ eq_refl) as [Hr Hfe].
  destruct r as [[certs staple]|e].
  - destruct (report _ _ _ _) as [evs2|e] eqn:Hrep; intros [= <- <-]; cbn.
    + pose proof (report_logs _ _ _ _ _ Hrep) as (_ & _ & _ & _ & _ & _ & _ & Hf2 & Hr2 & _)%logs_silent.
      rewrite resolved_app, fetches_app, Hr, Hr2, Hf2, !app_nil_r. by split.
    + rewrite resolved_app, fetches_app, Hr. simpl. rewrite !app_nil_r. by split.
  - intros [= <- <-]; cbn.
    rewrite resolved_app, fetches_app, Hr. simpl. rewrite !app_nil_r. by split.
Qed.

Lemma verify_addrs_fetches item h port max delay addrs net net' evs :
  verify_addrs item h port max delay addrs net = (net', evs) ->
  resolved evs = []
  /\ Forall (fun f => f.2 = h /\ f.1 ∈ ip <$> addrs) (fetches evs).
Proof.
  revert net net' evs. induction addrs as [|a addrs IH]; intros net net' evs; simpl.
  - by intros [= <- <-].
  - destruct (verify_addr _ _ _ _ _ a net) as [net1 evs1] eqn:H1.
    destruct (verify_addrs _ _ _ _ _ addrs net1) as [net2 evs2] eqn:H2.
    intros [= <- <-].
    apply verify_addr_fetches in H1 as [Hr1 Hf1].
    apply IH in H2 as [Hr2 Hf2].
    rewrite resolved_app, fetches_app, Hr1, Hr2. split; [done|].
    apply Forall_app; split.
    + eapply Forall_impl; [exact Hf1|]. intros f ->. simpl. split; [done|]. left.
    + eapply Forall_impl; [exact Hf2|]. intros f [? ?]. split; [done|]. by right.
Qed.

(** Every address is dialled at least once, with the name given. *)
Lemma verify_addr_dials item h port max delay addr net net' evs :
  verify_addr item h port max delay addr net = (net', evs) ->
  exists k : nat, fetches evs = replicate (S k) (ip addr, h).
Proof.
  unfold verify_addr. set (desc := h +:+ _).
  assert (Hf : forall r net1 evs1,
            fetch_with_retries item addr h max delay net = (r, net1, evs1) ->
            exists k : nat, fetches evs1 = replicate (S k) (ip addr, h)).
  { unfold fetch_with_retries, fetch_tls_info. intros r net1 evs1.
    destruct (tls net (fetched net) addr h) as [inst|e].
    - destruct (has_oscp_must_staple _).
      + destruct (retry_staple _ delay addr h inst _) as [[r2 net2] evs2] eqn:Hrec.
        apply retry_staple_spec in Hrec as (k & _ & _ & Hfe & _).
        intros [= <- <- <-]. exists k. simpl. by rewrite Hfe.
      + intros [= <- <- <-]. by exists 0%nat.
    - intros [= <- <- <-]. by exists 0%nat. }
  destruct (fetch_with_retries _ _ _ _ _ _) as [[r net1] evs1].
  destruct (Hf _ _ _ eq_refl) as [k Hfe].
  destruct r as [[certs staple]|e].
  - destruct (report _ _ _ _) as [evs2|e] eqn:Hrep; intros [= <- <-]; exists k; cbn.
    + pose proof (report_logs _ _ _ _ _ Hrep)
        as (_ & _ & _ & _ & _ & _ & _ & Hf2 & _)%logs_silent.
      by rewrite fetches_app, Hfe, Hf2, app_nil_r.
    + rewrite fetches_app, Hfe. simpl. by rewrite app_nil_r.
  - intros [= <- <-]; exists k; cbn.
    rewrite fetches_app, Hfe. simpl. by rewrite app_nil_r.
Qed.

(** The handshakes made for a list of addresses: the first address
    [S k1] times, then the second [S k2] times, and so on. *)
Fixpoint dialled (target : string) (addrs : list Addr) (ks : list nat)
  : list (string * string) :=
  match addrs, ks with
  | a :: addrs', k :: ks' => replicate (S k) (ip a, target) ++ dialled target addrs' ks'
  | _, _ => []
  end.

Lemma verify_addrs_dials item h port max delay addrs net net' evs :
  verify_addrs item h port max delay addrs net = (net', evs) ->
  exists ks, length ks = length addrs /\ fetches evs = dialled h addrs ks.
Proof.
  revert net net' evs. induction addrs as [|a addrs IH]; intros net net' evs; simpl.
  - intros [= <- <-]. by exists [].
  - destruct (verify_addr _ _ _ _ _ a net) as [net1 evs1] eqn:H1.
    destruct (verify_addrs _ _ _ _ _ addrs net1) as [net2 evs2] eqn:H2.
    intros [= <- <-].
    apply verify_addr_dials in H1 as [k Hk].
    apply IH in H2 as (ks & Hlen & Hks).
    exists (k :: ks). split; [simpl; by rewrite Hlen|].
    rewrite fetches_app, Hk, Hks. done.
Qed.

(** What [_verify_certificate_installation] resolves and dials, for the
    name [target] it settles on. *)
Lemma probe_target item host_name target port max delay net :
  (if Str.startswith "*." host_name
   then "wildcard-test." +:+ Str.drop 2 host_name else host_name) = target ->
  let evs := (_verify_certificate_installation item host_name port max delay net).2 in
  resolved evs = [target]
  /\ match getaddrinfo net target port with
     | Ok addrs =>
         exists ks, length ks = length addrs /\ fetches evs = dialled target addrs ks
     | Raise _ => fetches evs = []
     end.
Proof.
  intros Ht. unfold _verify_certificate_installation. rewrite Ht.
  destruct (getaddrinfo net target port) as [addrs|e] eqn:Hres; simpl.
  - destruct (verify_addrs _ _ _ _ _ addrs net) as [net' evs] eqn:Hv.
    pose proof (verify_addrs_fetches _ _ _ _ _ _ _ _ _ Hv) as [Hr _].
    apply verify_addrs_dials in Hv as (ks & Hlen & Hks). simpl. rewrite Hr.
    split; [done|]. by exists ks.
  - done.
Qed.

(** C9. For a host name [*.X] the verifier resolves [wildcard-test.X]
    and nothing else, and it dials every address that resolution
    returned, in their order and each at least once, asking for
    [wildcard-test.X] in every TLS handshake; no other handshake is
    made, and none at all when the resolution fails. For a host name
    that does not start with [*.] the same holds with the name
    itself. *)
Theorem wildcard_host_is_rewritten item host_name port max_ocsp_verify_attempts
        ocsp_verify_retry_delay net :
  let evs := (_verify_certificate_installation item host_name port
                max_ocsp_verify_attempts ocsp_verify_retry_delay net).2 in
  let dials (target : string) :=
    resolved evs = [target]
    /\ match getaddrinfo net target port with
       | Ok addrs =>
           exists ks, length ks = length addrs
                      /\ fetches evs = dialled target addrs ks
       | Raise _ => fetches evs = []
       end in
  (forall X, host_name = "*." +:+ X -> dials ("wildcard-test." +:+ X))
  /\ (Str.startswith "*." host_name = false -> dials host_name).
Proof.
  split.
  - intros X ->. by apply probe_target.
  - intros Hno. apply probe_target. by rewrite Hno.
Qed.

(** A name server that knows [wildcard-test.example.com] at two
    addresses and nothing else. *)
Definition addr1 : Addr := mkAddr true "2001:db8::1".
Definition net_wild : Net :=
  mkNet (fun h _ => if String.eqb h "wildcard-test.example.com"
                    then Ok [addr0; addr1]
                    else Raise (PyException "Name or service not known"))
        (fun _ _ _ => Ok ([leaf0; ca0], None)) 0.

Lemma wildcard_host_is_rewritten_witness :
  let evs := (_verify_certificate_installation item0 "*.example.com" 443 3 5 net_wild).2 in
  resolved evs = ["wildcard-test.example.com"]
  /\ exists ks, length ks = 2%nat
                /\ fetches evs = dialled "wildcard-test.example.com" [addr0; addr1] ks.
Proof.
  apply (proj1 (wildcard_host_is_rewritten item0 "*.example.com" 443 3 5 net_wild)
               "example.com").
  reflexivity.
Defined.

(** The spec's example: [*.example.com] is probed as
    [wildcard-test.example.com]. *)
Example wildcard_example :
  let evs := (_verify_certificate_installation item0 "*.example.com" 443 3 5 net0).2 in
  resolved evs = ["wildcard-test.example.com"]
  /\ fetches evs = replicate 3 ("192.0.2.1", "wildcard-test.example.com").
Proof. split; reflexivity. Qed.

Example wildcard_two_addresses :
  let evs := (_verify_certificate_installation item0 "*.example.com" 443 2 5 net_wild).2 in
  fetches evs = [("192.0.2.1", "wildcard-test.example.com");
                 ("192.0.2.1", "wildcard-test.example.com");
                 ("2001:db8::1", "wildcard-test.example.com");
                 ("2001:db8::1", "wildcard-test.example.com")].
Proof. reflexivity. Qed.

End VerifyFacts.

(** * Further properties of the code *)

(** ** Directory modes *)

Module ModeFacts.
Import Utils.

(** *** [dirmode] *)

Lemma lor_bit_keeps m b mask :
  Z.land b mask = 0 -> Z.land (Z.lor m b) mask = Z.land m mask.
Proof. intros H. by rewrite Z.land_lor_distr_l, H, Z.lor_0_r. Qed.

Lemma lor_bit_sets m b : Z.land (Z.lor m b) b = b.
Proof.
  apply Z.bits_inj'. intros n _.
  rewrite Z.land_spec, Z.lor_spec. by destruct (Z.testbit m n), (Z.testbit b n).
Qed.

Lemma lor_bit_there m b : Z.land m b = b -> Z.lor m b = m.
Proof.
  intros H. apply Z.bits_inj'. intros n _.
  apply (f_equal (fun z => Z.testbit z n)) in H. rewrite Z.land_spec in H.
  rewrite Z.lor_spec. by destruct (Z.testbit m n), (Z.testbit b n).
Qed.

Lemma lor_keeps_bits m b : Z.land (Z.lor m b) m = m.
Proof.
  apply Z.bits_inj'. intros n _.
  rewrite Z.land_spec, Z.lor_spec. by destruct (Z.testbit m n), (Z.testbit b n).
Qed.

Lemma land_sub_nonzero m b mask :
  Z.land b mask = b -> b <> 0 -> Z.land (Z.lor m b) mask <> 0.
Proof.
  intros Hb Hnz Hz. apply Hnz.
  assert (H : Z.land (Z.land (Z.lor m b) mask) b = b).
  { rewrite <- Z.land_assoc, (Z.land_comm mask b), Hb. apply lor_bit_sets. }
  by rewrite Hz in H.
Qed.

(** What [dirmode] does for one class of users, whose permission bits
    are [mask] and whose search bit is [x]. *)
Definition grant (mask x mode : Z) : Z :=
  if Z.land mode mask =? 0 then mode else Z.lor mode x.

Lemma dirmode_grants mode : dirmode mode = grant 7 1 (grant 56 8 (grant 448 64 mode)).
Proof. done. Qed.

Lemma grant_other mask x mask' mode :
  Z.land x mask' = 0 -> Z.land (grant mask x mode) mask' = Z.land mode mask'.
Proof. intros H. unfold grant. destruct (_ =? _); [done|]. by apply lor_bit_keeps. Qed.

Lemma grant_own mask x mode :
  Z.land x mask = x -> x <> 0 ->
  (Z.land (grant mask x mode) mask = 0 <-> Z.land mode mask = 0)
  /\ (Z.land mode mask <> 0 -> Z.land (grant mask x mode) x = x).
Proof.
  intros Hx Hnz. unfold grant.
  destruct (Z.land mode mask =? 0) eqn:E.
  - apply Z.eqb_eq in E. done.
  - apply Z.eqb_neq in E. split; [|intros _; apply lor_bit_sets].
    split; [|done]. intros H. by apply (land_sub_nonzero mode x mask) in H.
Qed.

Lemma grant_keeps mask x mode : Z.land (grant mask x mode) mode = mode.
Proof.
  unfold grant. destruct (_ =? _); [apply Z.land_diag|apply lor_keeps_bits].
Qed.

Lemma grant_within mask x mode k :
  Z.lor x k = k -> Z.lor (grant mask x mode) k = Z.lor mode k.
Proof.
  intros H. unfold grant. destruct (_ =? _); [done|].
  by rewrite <- Z.lor_assoc, H.
Qed.

Lemma grant_settled mask x mode :
  (Z.land mode mask <> 0 -> Z.land mode x = x) -> grant mask x mode = mode.
Proof.
  intros H. unfold grant. destruct (Z.land mode mask =? 0) eqn:E; [done|].
  apply Z.eqb_neq in E. by apply lor_bit_there, H.
Qed.

Lemma land_trans a b c : Z.land c b = b -> Z.land b a = a -> Z.land c a = a.
Proof. intros H1 H2. by rewrite <- H2, Z.land_assoc, H1. Qed.

Lemma dirmode_class mode mask x :
  (mask, x) ∈ [(448, 64); (56, 8); (7, 1)] ->
  (Z.land (dirmode mode) mask = 0 <-> Z.land mode mask = 0)
  /\ (Z.land mode mask <> 0 -> Z.land (dirmode mode) x = x).
Proof.
  rewrite dirmode_grants.
  intros Hin. repeat (apply elem_of_cons in Hin as [[= -> ->]|Hin]);
    [| | |by apply elem_of_nil in Hin].
  - rewrite !(grant_other 7 1), !(grant_other 56 8) by done.
    by apply grant_own.
  - rewrite !(grant_other 7 1) by done.
    destruct (grant_own 56 8 (grant 448 64 mode)) as [Hz Hx]; [done..|].
    rewrite (grant_other 448 64) in Hz, Hx by done. done.
  - destruct (grant_own 7 1 (grant 56 8 (grant 448 64 mode))) as [Hz Hx]; [done..|].
    rewrite (grant_other 56 8), (grant_other 448 64) in Hz, Hx by done. done.
Qed.

(** X1. [dirmode] keeps every bit of the mode and adds search bits only
    (octal 111); a class of users (owner, group, others) that has a
    permission gets its search bit, a class that has none gets
    nothing; applying it twice changes nothing more. *)
Theorem dirmode_search_bits mode :
  Z.land (dirmode mode) mode = mode
  /\ Z.lor (dirmode mode) 73 = Z.lor mode 73
  /\ (forall mask x, (mask, x) ∈ [(448, 64); (56, 8); (7, 1)] ->
        (Z.land mode mask = 0 -> Z.land (dirmode mode) mask = 0)
        /\ (Z.land mode mask <> 0 -> Z.land (dirmode mode) x = x))
  /\ dirmode (dirmode mode) = dirmode mode.
Proof.
  split_and!.
  - rewrite dirmode_grants.
    eapply land_trans; [apply grant_keeps|].
    eapply land_trans; [apply grant_keeps|]. apply grant_keeps.
  - rewrite dirmode_grants. by rewrite !grant_within.
  - intros mask x Hin. destruct (dirmode_class mode mask x Hin) as [Hz Hx].
    split; [apply Hz|apply Hx].
  - assert (Hsettled : forall mask x, (mask, x) ∈ [(448, 64); (56, 8); (7, 1)] ->
              grant mask x (dirmode mode) = dirmode mode).
    { intros mask x Hin. apply grant_settled. intros Hnz.
      destruct (dirmode_class mode mask x Hin) as [Hz Hx].
      apply Hx. intros H. by apply Hz in H. }
    rewrite (dirmode_grants (dirmode mode)).
    rewrite (Hsettled 448 64), (Hsettled 56 8), (Hsettled 7 1);
      [done|repeat (rewrite elem_of_cons); tauto..].
Qed.

End ModeFacts.

(** ** Commits that return *)

Module CommitFacts.
Import Posix Utils PosixFacts Events UtilsFacts StrFacts.

(** *** What a successful commit leaves on disk *)

(** Every applied operation is the result of applying the operation at
    the same place of the list, in some world. *)
Lemma apply_all_nth ops ad w r applied pending w1 evs (i : nat) o' :
  apply_all ops ad w = (r, applied, pending, w1, evs) ->
  applied !! i = Some o' ->
  exists o wi wi' evsi,
    ops !! i = Some o /\ apply o ad wi = (Ok (), o', wi', evsi).
Proof.
  revert w r applied pending w1 evs i.
  induction ops as [|op ops IH]; intros w r applied pending w1 evs i; simpl.
  { by intros [= <- <- <- <- <-]. }
  destruct (apply op ad w) as [[[r0 op'] w'] evs0] eqn:Hap.
  destruct r0 as [[]|e]; [|by intros [= <- <- <- <- <-]].
  destruct (apply_all ops ad w') as [[[[r2 applied2] pending2] w2] evs2] eqn:Hrest.
  intros [= <- <- <- <- <-]. destruct i as [|i]; simpl.
  - intros [= <-]. by exists op, w, w', evs0.
  - intros Hi. destruct (IH _ _ _ _ _ _ _ Hrest Hi) as (o & wi & wi' & evsi & Ho & Hapi).
    by exists o, wi, wi', evsi.
Qed.

Lemma apply_all_length_ok ops ad w applied pending w1 evs :
  apply_all ops ad w = (Ok (), applied, pending, w1, evs) ->
  length applied = length ops /\ pending = [].
Proof.
  intros Hap. pose proof (apply_all_marks _ _ _ _ _ _ _ _ Hap) as (Hlen & Hok & _).
  specialize (Hok eq_refl). subst pending. simpl in Hlen. split; [lia|done].
Qed.

(** In a list of operations with pairwise distinct paths, no backup
    path is a target path. *)
Lemma backup_is_no_target l o o' t :
  NoDup (footprints l) -> o ∈ l -> o' ∈ l ->
  _tmp_path o' = Some t -> t <> file_path o.
Proof.
  induction l as [|x l IH]; [by intros _ ?%elem_of_nil|].
  rewrite footprints_cons. intros [Hnd1 [Hdisj Hnd2]]%NoDup_app Ho Ho' Ht Heq.
  apply elem_of_cons in Ho as [->|Ho]; apply elem_of_cons in Ho' as [->|Ho'].
  - unfold footprint in Hnd1. rewrite Ht in Hnd1.
    apply NoDup_cons in Hnd1 as [Hne _]. apply Hne. rewrite <- Heq. left.
  - apply (Hdisj (file_path x)); [unfold footprint; left|].
    rewrite <- Heq. by eapply backup_in_footprints.
  - apply (Hdisj t); [unfold footprint; rewrite Ht; right; left|].
    rewrite Heq. by apply target_in_footprints.
  - by eapply IH.
Qed.

(** [cleanup] deletes nothing but the backup of its operation, and
    not even that one when the operation archived it. *)
Lemma cleanup_frame op w r op' w' evs p :
  cleanup op w = (r, op', w', evs) ->
  (_tmp_path op = Some p -> _archived op = true /\ cls op <> WriteOp) ->
  files w' !! p = files w !! p.
Proof.
  intros Hcl Hp.
  assert (Hwc : forall r op' w', write_cleanup op w = (r, op', w') ->
                  _tmp_path op <> Some p -> files w' !! p = files w !! p).
  { intros r1 op1 w1. unfold write_cleanup.
    destruct (_tmp_path op) as [t|]; [|by intros [= <- <- <-]].
    destruct (Str.truthy t); [|by intros [= <- <- <-]].
    destruct (remove t w) as [r2 w2] eqn:Hrm.
    assert (Hw2 : files w2 !! p = files w !! p \/ t = p).
    { destruct r2 as [[]|e].
      - apply remove_ok in Hrm. rewrite Hrm.
        destruct (decide (t = p)) as [->|Hne]; [by right|left].
        by rewrite lookup_delete_ne.
      - apply remove_raise in Hrm as [-> _]. by left. }
    intros Hrun Hne. destruct Hw2 as [Hw2| ->]; [|done].
    assert (Hdirs : forall b, files (if b : bool then (removedirs (dirname t) w2).2 else w2)
                              = files w2)
      by (intros []; [apply removedirs_files|done]).
    destruct r2 as [[]|[]]; injection Hrun as <- <- <-;
      rewrite ?Hdirs; done. }
  unfold cleanup in Hcl.
  destruct (cls op) eqn:Hcls.
  - destruct (write_cleanup op w) as [[r1 op1] w1] eqn:Hw. injection Hcl as <- <- <- <-.
    eapply Hwc; [done|]. intros Ht. by destruct (Hp Ht) as [_ ?].
  - destruct (_archived op) eqn:Ha; [by injection Hcl as <- <- <- <-|].
    destruct (write_cleanup op w) as [[r1 op1] w1] eqn:Hw. injection Hcl as <- <- <- <-.
    eapply Hwc; [done|]. intros Ht. by destruct (Hp Ht) as [? _].
  - destruct (_archived op) eqn:Ha; [by injection Hcl as <- <- <- <-|].
    destruct (write_cleanup op w) as [[r1 op1] w1] eqn:Hw. injection Hcl as <- <- <- <-.
    eapply Hwc; [done|]. intros Ht. by destruct (Hp Ht) as [? _].
Qed.

Lemma cleanup_all_frame l w l' w' evs p :
  cleanup_all l w = (l', w', evs) ->
  (forall o, o ∈ l -> _tmp_path o = Some p -> _archived o = true /\ cls o <> WriteOp) ->
  files w' !! p = files w !! p.
Proof.
  revert w l' w' evs. induction l as [|op l IH]; intros w l' w' evs; simpl.
  { by intros [= <- <- <-]. }
  destruct (cleanup op w) as [[[r op1] w1] evs1] eqn:Hcl.
  destruct (cleanup_all l w1) as [[l2 w2] evs2] eqn:Hrest.
  intros [= <- <- <-] Hp.
  rewrite (IH _ _ _ _ Hrest) by (intros o Ho; apply Hp; by right).
  eapply cleanup_frame; [done|]. apply Hp. left.
Qed.

(** After the apply phase of a group with pairwise distinct paths, the
    target of every write holds the content that was written. *)
Lemma apply_all_written ops ad w applied w1 evs :
  Forall fresh ops ->
  regular_targets ops ad w = true ->
  apply_all ops ad w = (Ok (), applied, [], w1, evs) ->
  NoDup (footprints applied) ->
  forall i op c, ops !! i = Some op -> _content op = Some c -> Str.truthy c = true ->
                 files w1 !! file_path op = Some c.
Proof.
  intros Hfresh. revert w applied w1 evs.
  induction Hfresh as [|op0 ops Hop Hops IH]; intros w applied w1 evs; simpl.
  { by intros _ _ _ []. }
  intros [Hreg Hregs]%andb_true_iff.
  destruct (apply op0 ad w) as [[[r0 op'] w'] evs0] eqn:Hap.
  destruct r0 as [[]|e]; [|done].
  destruct (apply_all ops ad w') as [[[[r2 applied2] pending2] w2] evs2] eqn:Hrest.
  intros [= -> <- -> <- <-]. rewrite footprints_cons.
  intros [Hnd1 [Hdisj Hnd2]]%NoDup_app [|i] op c; simpl.
  - intros [= <-] Hc Htr.
    destruct (apply_files _ _ _ _ _ _ _ Hop Hreg Hap) as (Hp & (mid & rm & Hmoved & Hw & Hnw) & _).
    assert (Hframe : files w2 !! file_path op0 = files w' !! file_path op0).
    { pose proof (apply_all_spec _ _ _ _ _ _ _ _ Hops Hregs Hrest) as Hspec.
      simpl in Hspec. rewrite app_nil_r in Hspec.
      destruct (Hspec Hnd2) as [Hfr _]. apply Hfr, Hdisj.
      unfold footprint. rewrite Hp. left. }
    rewrite Hframe.
    destruct (decide (rm = Ok ())) as [Hrm|Hrm].
    + destruct (Hw Hrm) as [[_ Hno]|(c' & Hc' & _ & _ & ->)].
      * specialize (Hno eq_refl). by rewrite Hc in Hno; simpl in Hno; congruence.
      * rewrite Hc in Hc'. injection Hc' as <-. apply lookup_insert_eq.
    + by destruct (Hnw Hrm) as [<- _].
  - intros Hi Hc Htr. by eapply IH.
Qed.

(** After a commit that returned, the target of every write holds the
    content that was written. *)
Lemma commit_written ops ad w ops' w' evs op c :
  Forall fresh ops ->
  distinct_paths ops ad w ->
  regular_targets ops ad w = true ->
  commit_file_transactions ops ad w = (Ok (), ops', w', evs) ->
  op ∈ ops ->
  _content op = Some c -> Str.truthy c = true ->
  files w' !! file_path op = Some c.
Proof.
  intros Hfresh. unfold distinct_paths, applied_of, failed_of, commit_file_transactions.
  destruct ops as [|op0 ops0]; [by intros _ _ _ ?%elem_of_nil|].
  remember (op0 :: ops0) as ops eqn:Hops. clear Hops.
  destruct (apply_all ops ad w) as [[[[r applied] pending] w1] evs1] eqn:Hap.
  simpl. intros Hnd Hregs. destruct r as [[]|e].
  2:{ by destruct (revert_all applied w1) as [[? ?] ?]. }
  destruct (cleanup_all applied w1) as [[applied' w2] evs2] eqn:Hcl.
  intros [= <- <- <-] [i Hi]%list_elem_of_lookup_1 Hc Htr.
  destruct (apply_all_length_ok _ _ _ _ _ _ _ Hap) as [Hlen ->].
  simpl in Hnd. rewrite app_nil_r in Hnd.
  rewrite (cleanup_all_frame _ _ _ _ _ (file_path op) Hcl).
  - by eapply apply_all_written.
  - intros o Ho Ht. exfalso.
    assert (Hlt : (i < length applied)%nat)
      by (rewrite Hlen; by eapply lookup_lt_Some).
    destruct (lookup_lt_is_Some_2 _ _ Hlt) as [oi Hoi].
    destruct (apply_all_nth _ _ _ _ _ _ _ _ _ _ Hap Hoi) as (o1 & wi & wi' & evsi & Ho1 & Hapi).
    rewrite Hi in Ho1. injection Ho1 as <-.
    assert (Hop : fresh op).
    { rewrite Forall_forall in Hfresh. apply Hfresh. by eapply list_elem_of_lookup_2. }
    pose proof (apply_path _ _ _ _ _ _ _ Hapi) as Hp.
    eapply (backup_is_no_target applied oi o); [done| |done|exact Ht|by rewrite Hp].
    by eapply list_elem_of_lookup_2.
Qed.













(** Two writes, one over the existing [/d/a] and one of a new file. *)
Definition two_writes : list Operation :=
  [writes "/d/a" "v1"; writes "/d/b" "v2"].


(** A file the commit has no operation for. *)
Definition w_other : World :=
  mkWorld {[ "/d/a" := "v0"; "/d/other" := "keep" ]} {[ "/d" ]} abc 0.




Example commit_two_writes :
  let w' := (commit_file_transactions two_writes None w_other).1.2 in
  files w' !! "/d/a" = Some "v1" /\ files w' !! "/d/b" = Some "v2"
  /\ files w' !! "/d/other" = Some "keep" /\ size (files w') = 3%nat.
Proof. by vm_compute. Qed.


(** *** Writing into a directory that does not exist *)
















End CommitFacts.

(** ** Queued hooks *)

Module QueueFacts.
Import Utils Events HooksFacts StrFacts.

(** *** [Hooks.add]: what is queued *)

(** The configured hook [h] gives the invocation [a] under the keyword
    arguments [kw]. *)
Definition queued_as (kw : kwargs) (h : hook_spec) (a : invocation) : Prop :=
  exists a0, hook_args h = Ok a0 /\ format_all a0 kw = Ok a.

(** The configured hook [h] asks for the key [k], which is missing. *)
Definition lacks_key (kw : kwargs) (h : hook_spec) (k : string) : Prop :=
  hook_args h = Raise (KeyError k)
  \/ exists a0, hook_args h = Ok a0 /\ format_all a0 kw = Raise (KeyError k).

Lemma q_get_new name n (q : queue) :
  q_mem name q = false -> q_get n (q ++ [(name, [])]) = q_get n q.
Proof.
  induction q as [|[m hs] q IH]; simpl.
  - by destruct (String.eqb name n).
  - intros [_ Hq]%orb_false_iff. destruct (String.eqb m n); [done|]. by apply IH.
Qed.

Lemma q_mem_new name (q : queue) : q_mem name (q ++ [(name, [])]) = true.
Proof.
  induction q as [|[m hs] q IH]; simpl; [by rewrite String.eqb_refl|].
  rewrite IH. apply orb_true_r.
Qed.

Lemma add_loop_queues name kw good argss tail q :
  q_mem name q = true ->
  Forall2 (queued_as kw) good argss ->
  exists q1,
    add_loop name (good ++ tail) kw q = add_loop name tail kw q1
    /\ q_mem name q1 = true
    /\ forall n, q_get n q1
                 = if String.eqb name n then q_get n q ++ argss else q_get n q.
Proof.
  intros Hmem Hgood. revert q Hmem.
  induction Hgood as [|h a good argss (a0 & Hargs & Hfmt) _ IH]; intros q Hmem.
  { exists q. split_and!; [done..|]. intros n.
    destruct (String.eqb name n); by rewrite ?app_nil_r. }
  destruct (IH (q_append name a q)) as (q1 & Hrun & Hmem1 & Hget);
    [by rewrite q_append_mem|].
  exists q1. split_and!; [|done|].
  - simpl. by rewrite Hargs, Hfmt.
  - intros n. rewrite Hget, q_append_get by done.
    destruct (String.eqb name n); [|done]. by rewrite <- app_assoc.
Qed.

(** X6. A list of commands is queued one by one, and the first one that
    asks for a missing key ends the call: the commands before it stay
    queued, it and the commands after it are not queued, and [add]
    returns normally after one warning. *)
Theorem add_stops_at_missing_key self name kw good argss bad rest k :
  _commands self !! name = Some (CmdList (good ++ bad :: rest)) ->
  Forall2 (queued_as kw) good argss ->
  lacks_key kw bad k ->
  exists self',
    add self name kw
    = (Ok (), self',
       [Log WARNING "Invalid hook specification for %s, unknown key %s" [name; k]])
    /\ forall n, q_get n (_hooks self')
                 = if String.eqb name n then q_get n (_hooks self) ++ argss
                   else q_get n (_hooks self).
Proof.
  intros Hc Hgood Hbad. unfold add. rewrite Hc.
  assert (command_truthy (CmdList (good ++ bad :: rest)) = true) as ->
    by (by destruct good).
  cbn [negb].
  set (q := if q_mem name (_hooks self) then _hooks self
            else _hooks self ++ [(name, [])]).
  assert (Hq : q_mem name q = true).
  { unfold q. destruct (q_mem name (_hooks self)) eqn:E; [done|apply q_mem_new]. }
  assert (Hqget : forall n, q_get n q = q_get n (_hooks self)).
  { intros n. unfold q. destruct (q_mem name (_hooks self)) eqn:E; [done|].
    by apply q_get_new. }
  destruct (add_loop_queues name kw good argss (bad :: rest) q Hq Hgood)
    as (q1 & -> & _ & Hget).
  assert (Hstop : add_loop name (bad :: rest) kw q1 = (Raise (KeyError k), q1)).
  { simpl. destruct Hbad as [->|(a0 & -> & ->)]; done. }
  rewrite Hstop. eexists. split; [done|]. simpl.
  intros n. by rewrite Hget, !Hqget.
Qed.

Definition scp_then_reload : gmap string command :=
  {[ "installed" := CmdList [HookStr "scp {file} backup:";
                             HookStr "notify {host}";
                             HookStr "reload"] ]}.

Lemma add_stops_at_missing_key_witness :
  exists self',
    add (new_hooks scp_then_reload) "installed" [("file", "cert.pem")]
    = (Ok (), self',
       [Log WARNING "Invalid hook specification for %s, unknown key %s"
            ["installed"; "host"]])
    /\ forall n, q_get n (_hooks self')
                 = if String.eqb "installed" n
                   then q_get n (_hooks (new_hooks scp_then_reload))
                        ++ [["scp"; "cert.pem"; "backup:"]]
                   else q_get n (_hooks (new_hooks scp_then_reload)).
Proof.
  apply (add_stops_at_missing_key (new_hooks scp_then_reload) "installed"
           [("file", "cert.pem")] [HookStr "scp {file} backup:"]
           [["scp"; "cert.pem"; "backup:"]] (HookStr "notify {host}")
           [HookStr "reload"] "host").
  - reflexivity.
  - constructor; [|constructor]. exists ["scp"; "{file}"; "backup:"]. by vm_compute.
  - right. exists ["notify"; "{host}"]. by vm_compute.
Defined.

(** *** [Hooks.add]: command lines and placeholders *)

(** A word of a command line: literal text, or a placeholder
    [{key}]. *)
Inductive word :=
| Lit (text : string)
| Field (key : string).

(** How the word is written in the configured command line. *)
Definition template (p : word) : string :=
  match p with
  | Lit s => s
  | Field k => "{" +:+ k +:+ "}"
  end.

(** The argument the word stands for. *)
Definition argument (kw : kwargs) (p : word) : option string :=
  match p with
  | Lit s => Some s
  | Field k => kw_get k kw
  end.

(** Characters that mean nothing to [shlex] and nothing to
    [str.format]. *)
Definition plain_char (c : ascii) : bool :=
  negb (is_blank c || Ascii.eqb c squote || Ascii.eqb c dquote
        || Ascii.eqb c backslash || Ascii.eqb c "{" || Ascii.eqb c "}").

Definition key_char (c : ascii) : bool := plain_char c && negb (ends_name c).

Definition well_formed (p : word) : Prop :=
  match p with
  | Lit s => Str.truthy s = true /\ forallb plain_char (Str.chars s) = true
  | Field k =>
      forallb key_char (Str.chars k) = true
      /\ forallb is_digit (Str.chars k) = false
  end.

(** [shlex] reads through the characters of a word that are neither
    blanks, quotes nor backslashes. *)
Definition unquoted (c : ascii) : bool :=
  negb (is_blank c || Ascii.eqb c squote || Ascii.eqb c dquote
        || Ascii.eqb c backslash).

Lemma unquoted_spec c :
  unquoted c = true ->
  is_blank c = false /\ Ascii.eqb c squote = false
  /\ Ascii.eqb c dquote = false /\ Ascii.eqb c backslash = false.
Proof.
  unfold unquoted.
  by destruct (is_blank c), (Ascii.eqb c squote), (Ascii.eqb c dquote),
       (Ascii.eqb c backslash).
Qed.

Lemma shlex_unquoted c r cur :
  unquoted c = true ->
  shlex_chars (c :: r) cur None = shlex_chars r (push c cur) None.
Proof.
  intros (Hb & Hs & Hd & Hbs)%unquoted_spec.
  cbn [shlex_chars]. by rewrite Hb, Hbs, Hs, Hd.
Qed.

Lemma shlex_word l rest cur :
  forallb unquoted l = true ->
  shlex_chars (l ++ rest) (Some cur) None
  = shlex_chars rest (Some (rev l ++ cur)) None.
Proof.
  revert cur. induction l as [|c l IH]; intros cur; [done|].
  cbn [forallb app]. intros [Hc Hl]%andb_true_iff.
  rewrite shlex_unquoted by done. unfold push. cbn [default].
  rewrite IH by done. cbn [rev]. by rewrite <- app_assoc.
Qed.

Lemma shlex_first_word c l rest :
  forallb unquoted (c :: l) = true ->
  shlex_chars ((c :: l) ++ rest) None None
  = shlex_chars rest (Some (rev (c :: l))) None.
Proof.
  cbn [forallb app]. intros [Hc Hl]%andb_true_iff.
  rewrite shlex_unquoted by done. unfold push. cbn [default].
  by rewrite shlex_word.
Qed.

(** The words of a command line are what [shlex.split] gives back. *)
Lemma shlex_split_words (ws : list string) :
  Forall (fun s => Str.truthy s = true /\ forallb unquoted (Str.chars s) = true) ws ->
  shlex_split (String.concat " " ws) = Ok ws.
Proof.
  unfold shlex_split. induction 1 as [|s ws [Hs Hplain] Hws IH]; [done|].
  assert (Hone : forall rest,
            shlex_chars (Str.chars s ++ rest) None None
            = shlex_chars rest (Some (rev (Str.chars s))) None).
  { intros rest. destruct s as [|c s]; [done|]. by apply shlex_first_word. }
  destruct ws as [|s2 ws].
  - simpl. rewrite <- (app_nil_r (Str.chars s)), Hone. simpl.
    unfold token. by rewrite rev_involutive, of_chars_chars.
  - change (String.concat " " (s :: s2 :: ws))
      with (s +:+ " " +:+ String.concat " " (s2 :: ws)).
    rewrite !chars_app, Hone.
    change (Str.chars " ") with [" "%char]. cbn [app shlex_chars].
    change (is_blank " ") with true. cbn iota.
    unfold Str.chars in IH |- *. rewrite IH.
    unfold token. by rewrite rev_involutive, of_chars_chars.
Qed.

Lemma plain_char_spec c :
  plain_char c = true ->
  unquoted c = true /\ Ascii.eqb c "{" = false /\ Ascii.eqb c "}" = false.
Proof.
  unfold plain_char, unquoted.
  by destruct (is_blank c), (Ascii.eqb c squote), (Ascii.eqb c dquote),
       (Ascii.eqb c backslash), (Ascii.eqb c "{"), (Ascii.eqb c "}").
Qed.

Lemma plain_unquoted l : forallb plain_char l = true -> forallb unquoted l = true.
Proof.
  induction l as [|c l IH]; [done|]. cbn [forallb].
  intros [Hc Hl]%andb_true_iff. apply plain_char_spec in Hc as (-> & _). by apply IH.
Qed.

Lemma key_plain l : forallb key_char l = true -> forallb plain_char l = true.
Proof.
  induction l as [|c l IH]; [done|]. cbn [forallb]. unfold key_char at 1.
  intros [[-> _]%andb_true_iff Hl]%andb_true_iff. by apply IH.
Qed.

(** [str.format] copies text without braces. *)
Lemma format_plain l rest kw :
  forallb plain_char l = true ->
  format_chars (l ++ rest) None kw
  = match format_chars rest None kw with
    | Ok x => Ok (l ++ x)
    | Raise e => Raise e
    end.
Proof.
  induction l as [|c l IH]; [cbn [app]; by destruct (format_chars rest None kw)|].
  cbn [forallb app]. intros [(_ & Ho & Hc)%plain_char_spec Hl]%andb_true_iff.
  cbn [format_chars]. rewrite Ho, Hc, IH by done.
  by destruct (format_chars rest None kw).
Qed.

Lemma format_field_name l rest acc kw :
  forallb plain_char l = true ->
  format_chars (l ++ "}"%char :: rest) (Some acc) kw
  = match field_value (rev (rev l ++ acc)) kw with
    | Ok v => match format_chars rest None kw with
              | Ok x => Ok (v ++ x)
              | Raise e => Raise e
              end
    | Raise e => Raise e
    end.
Proof.
  revert acc. induction l as [|c l IH]; intros acc; [done|].
  cbn [forallb app]. intros [(_ & Ho & Hc)%plain_char_spec Hl]%andb_true_iff.
  cbn [format_chars]. rewrite Ho, Hc, IH by done.
  cbn [rev]. by rewrite <- app_assoc.
Qed.

Lemma take_while_all {A} (f : A -> bool) l :
  forallb f l = true -> Str.take_while f l = l.
Proof.
  induction l as [|x l IH]; [done|]. cbn [forallb Str.take_while].
  intros [-> Hl]%andb_true_iff. by rewrite IH.
Qed.

Lemma field_value_key k kw v :
  forallb key_char (Str.chars k) = true ->
  forallb is_digit (Str.chars k) = false ->
  kw_get k kw = Some v ->
  field_value (Str.chars k) kw = Ok (Str.chars v).
Proof.
  intros Hkey Hdigits Hget. unfold field_value.
  rewrite take_while_all.
  - by rewrite Hdigits, of_chars_chars, Hget, Nat.eqb_refl.
  - clear -Hkey. induction (Str.chars k) as [|c l IH]; [done|].
    cbn [forallb] in *. apply andb_true_iff in Hkey as [Hc Hl].
    unfold key_char in Hc. apply andb_true_iff in Hc as [_ ->]. by apply IH.
Qed.

Lemma format_open d r kw :
  Ascii.eqb d "{" = false ->
  format_chars ("{"%char :: d :: r) None kw = format_chars (d :: r) (Some []) kw.
Proof. intros Hd. cbn [format_chars]. by rewrite Hd. Qed.

(** Formatting the template of a word gives its argument. *)
Lemma format_template kw p a :
  well_formed p -> argument kw p = Some a -> format (template p) kw = Ok a.
Proof.
  destruct p as [s|k]; simpl.
  - intros [_ Hplain] [= <-]. unfold format.
    rewrite <- (app_nil_r (Str.chars s)), format_plain by done.
    cbn [format_chars]. by rewrite app_nil_r, of_chars_chars.
  - intros [Hkey Hdigits] Hget. unfold format.
    change (String "{" (k +:+ "}")) with ("{" +:+ k +:+ "}").
    rewrite !chars_app. change (Str.chars "{") with ["{"%char].
    change (Str.chars "}") with ["}"%char]. cbn [app].
    destruct (Str.chars k) as [|d l] eqn:Hk; [done|].
    assert (Hd : Ascii.eqb d "{" = false).
    { cbn [forallb] in Hkey. apply andb_true_iff in Hkey as [Hd _].
      unfold key_char in Hd. apply andb_true_iff in Hd as [Hd _].
      by apply plain_char_spec in Hd as (_ & ? & _). }
    cbn [app]. rewrite format_open by done.
    change (d :: l ++ ["}"%char]) with ((d :: l) ++ "}"%char :: []).
    rewrite (format_field_name (d :: l) [] []) by (by apply key_plain).
    rewrite app_nil_r, rev_involutive, <- Hk.
    rewrite (field_value_key k kw a) by (by rewrite ?Hk).
    cbn [format_chars]. by rewrite app_nil_r, of_chars_chars.
Qed.

Lemma format_all_templates kw ws args :
  Forall well_formed ws ->
  Forall2 (fun p a => argument kw p = Some a) ws args ->
  format_all (template <$> ws) kw = Ok args.
Proof.
  intros Hwf Hargs. induction Hargs as [|p a ws args Ha _ IH]; [done|].
  apply Forall_cons in Hwf as [Hp Hwf]. cbn [fmap list_fmap format_all].
  by rewrite (format_template kw p a), IH.
Qed.

Lemma template_word p :
  well_formed p ->
  Str.truthy (template p) = true
  /\ forallb unquoted (Str.chars (template p)) = true.
Proof.
  destruct p as [s|k]; simpl.
  - intros [Hs Hplain]. split; [done|]. by apply plain_unquoted.
  - intros [Hkey _]. split; [done|].
    change (String "{" (k +:+ "}")) with ("{" +:+ k +:+ "}").
    rewrite !chars_app, !forallb_app.
    rewrite (plain_unquoted _ (key_plain _ Hkey)). done.
Qed.

Lemma concat_truthy s ss :
  Str.truthy s = true -> Str.truthy (String.concat " " (s :: ss)) = true.
Proof. destruct s; [done|]. by destruct ss. Qed.

(** X7. A hook configured as a command line of plain words and
    placeholders is queued as one invocation with one argument per
    word: the text of a plain word, the keyword value of a placeholder.
    The line is split before the values are put in, so a value stays
    one argument whatever characters it holds. *)
Theorem add_command_line self name kw ws args :
  _commands self !! name
  = Some (CmdOne (HookStr (String.concat " " (template <$> ws)))) ->
  ws <> [] ->
  Forall well_formed ws ->
  Forall2 (fun p a => argument kw p = Some a) ws args ->
  exists self',
    add self name kw = (Ok (), self', [])
    /\ forall n, q_get n (_hooks self')
                 = if String.eqb name n then q_get n (_hooks self) ++ [args]
                   else q_get n (_hooks self).
Proof.
  intros Hc Hne Hwf Hargs. unfold add. rewrite Hc.
  assert (command_truthy (CmdOne (HookStr (String.concat " " (template <$> ws)))) = true)
    as ->.
  { destruct ws as [|p ws]; [done|]. apply Forall_cons in Hwf as [Hp _].
    cbn [command_truthy hook_truthy fmap list_fmap].
    apply concat_truthy. by apply template_word. }
  cbn [negb].
  set (q := if q_mem name (_hooks self) then _hooks self
            else _hooks self ++ [(name, [])]).
  assert (Hq : q_mem name q = true).
  { unfold q. destruct (q_mem name (_hooks self)) eqn:E; [done|apply q_mem_new]. }
  assert (Hqget : forall n, q_get n q = q_get n (_hooks self)).
  { intros n. unfold q. destruct (q_mem name (_hooks self)) eqn:E; [done|].
    by apply q_get_new. }
  assert (Hone : queued_as kw (HookStr (String.concat " " (template <$> ws))) args).
  { exists (template <$> ws). split; [|by apply format_all_templates].
    cbn [hook_args]. apply shlex_split_words.
    apply Forall_fmap. eapply Forall_impl; [exact Hwf|].
    intros p Hp. by apply template_word. }
  destruct (add_loop_queues name kw
              [HookStr (String.concat " " (template <$> ws))] [args] [] q Hq)
    as (q1 & Hrun & _ & Hget).
  { by repeat constructor. }
  cbn [app] in Hrun. rewrite Hrun. cbn [add_loop].
  eexists. split; [done|]. simpl. intros n. by rewrite Hget, !Hqget.
Qed.

Definition deploy_hook : gmap string command :=
  {[ "set_http_challenge" := CmdOne (HookStr "deploy {domain} {file}") ]}.

Lemma add_command_line_witness :
  exists self',
    add (new_hooks deploy_hook) "set_http_challenge"
        [("domain", "example.com"); ("file", "/var/www/my site/tok")]
    = (Ok (), self', [])
    /\ forall n, q_get n (_hooks self')
                 = if String.eqb "set_http_challenge" n
                   then q_get n (_hooks (new_hooks deploy_hook))
                        ++ [["deploy"; "example.com"; "/var/www/my site/tok"]]
                   else q_get n (_hooks (new_hooks deploy_hook)).
Proof.
  apply (add_command_line (new_hooks deploy_hook) "set_http_challenge"
           [("domain", "example.com"); ("file", "/var/www/my site/tok")]
           [Lit "deploy"; Field "domain"; Field "file"]).
  - reflexivity.
  - done.
  - repeat constructor.
  - repeat constructor.
Defined.

End QueueFacts.

(** ** Authorizations *)

Module ChallengeFacts.
Import Posix Utils Authz Authorize Events PosixFacts HooksFacts AuthzFacts AuthorizeFacts.

(** *** [_get_challenge] *)

(** X8. [_get_challenge] returns the first challenge of the type asked
    for, and [None] only when the authorization has none. *)
Theorem get_challenge_first a ty :
  match _get_challenge a ty with
  | Some c =>
      exists before after,
        challenges a = before ++ c :: after
        /\ typ c = ty
        /\ Forall (fun c' => typ c' <> ty) before
  | None => Forall (fun c' => typ c' <> ty) (challenges a)
  end.
Proof.
  unfold _get_challenge. induction (challenges a) as [|c cs IH]; simpl; [done|].
  destruct (String.eqb ty (typ c)) eqn:E.
  - apply String.eqb_eq in E. by exists [], cs.
  - apply String.eqb_neq in E. destruct (find_challenge cs ty) as [c'|].
    + destruct IH as (before & after & -> & Hty & Hbefore).
      exists (c :: before), after. split_and!; [done..|]. by constructor.
    + by constructor.
Qed.

(** *** [handle_authorizations]: orders that need no challenge *)

Definition already_authorized (a : AuthorizationResource) : event :=
  Log DEBUG "Domain '%s' already authorized" [identifier a].

Lemma collect_valid order auths rs :
  Forall (fun a => auth_status a = STATUS_VALID) order ->
  collect order auths rs = (Ok (auths ++ order, rs), already_authorized <$> order).
Proof.
  intros Hvalid. revert auths.
  induction Hvalid as [|a order Ha _ IH]; intros auths; simpl.
  { by rewrite app_nil_r. }
  rewrite Ha, IH. by rewrite <- app_assoc.
Qed.

(** X9. An order whose authorizations are all valid already is returned
    as it is: nothing is written, no hook is queued or run and the
    server is not asked anything. *)
Theorem valid_order_needs_nothing fuel order dir retry delay st :
  Forall (fun a => auth_status a = STATUS_VALID) order ->
  handle_authorizations fuel order dir retry delay st
  = Some (Ok order, st, already_authorized <$> order).
Proof.
  intros Hvalid. unfold handle_authorizations.
  by rewrite (collect_valid order [] []).
Qed.

Lemma valid_order_needs_nothing_witness :
  handle_authorizations 0 [mkAuthz "example.com" STATUS_VALID [challenge0]]
                        challenge_dir 3 10 (state0 pending_server)
  = Some (Ok [mkAuthz "example.com" STATUS_VALID [challenge0]],
          state0 pending_server,
          already_authorized <$> [mkAuthz "example.com" STATUS_VALID [challenge0]]).
Proof.
  apply (valid_order_needs_nothing 0 [mkAuthz "example.com" STATUS_VALID [challenge0]]).
  by repeat constructor.
Defined.

Definition usable (a : AuthorizationResource) : Prop :=
  auth_status a = STATUS_VALID \/ auth_status a = STATUS_PENDING.

Lemma collect_rejects before a after auths rs :
  Forall usable before -> ~ usable a ->
  exists evs,
    collect (before ++ a :: after) auths rs
    = (Raise (AcmeError "Unexpected status '{}' for authorization of {}"
                        [status_name (auth_status a); identifier a]), evs)
    /\ forallb is_log evs = true.
Proof.
  intros Hbefore Ha. revert auths rs.
  induction Hbefore as [|b before Hb _ IH]; intros auths rs; simpl.
  - unfold usable in Ha. destruct (auth_status a) eqn:E; try tauto; by eexists.
  - destruct Hb as [-> | ->].
    + destruct (IH (auths ++ [b]) rs) as (evs & -> & Hlogs). by eexists.
    + destruct (IH auths (dict_set (identifier b) b rs)) as (evs & -> & Hlogs).
      by eexists.
Qed.

(** X10. An authorization that is neither valid nor pending makes
    [handle_authorizations] fail at once: the error names the first
    such authorization, and nothing was written, queued, run or asked
    before. *)
Theorem unusable_authorization_is_rejected fuel before a after dir retry delay st :
  Forall usable before -> ~ usable a ->
  exists evs,
    handle_authorizations fuel (before ++ a :: after) dir retry delay st
    = Some (Raise (AcmeError "Unexpected status '{}' for authorization of {}"
                             [status_name (auth_status a); identifier a]), st, evs)
    /\ forallb is_log evs = true.
Proof.
  intros Hbefore Ha. unfold handle_authorizations.
  destruct (collect_rejects before a after [] [] Hbefore Ha) as (evs & -> & Hlogs).
  by exists evs.
Qed.

Lemma unusable_authorization_is_rejected_witness :
  exists evs,
    handle_authorizations 0 ([authz0] ++ mkAuthz "b.example.com" STATUS_INVALID [] :: [])
                          challenge_dir 3 10 (state0 pending_server)
    = Some (Raise (AcmeError "Unexpected status '{}' for authorization of {}"
                             ["invalid"; "b.example.com"]),
            state0 pending_server, evs)
    /\ forallb is_log evs = true.
Proof.
  apply (unusable_authorization_is_rejected 0 [authz0]
           (mkAuthz "b.example.com" STATUS_INVALID []) []).
  - constructor; [by right|constructor].
  - unfold usable. by intros [|].
Defined.

(** *** [handle_authorizations]: the challenge files *)

Lemma dict_set_keys {V} k (v : V) d :
  (dict_set k v d).*1 = if bool_decide (k ∈ d.*1) then d.*1 else d.*1 ++ [k].
Proof.
  induction d as [|[k' v'] d IH]; [done|]. cbn [dict_set].
  destruct (String.eqb k' k) eqn:E; rewrite !fmap_cons; cbn [fst].
  - apply String.eqb_eq in E as ->. rewrite bool_decide_eq_true_2; [done|left].
  - apply String.eqb_neq in E. rewrite IH.
    destruct (bool_decide (k ∈ d.*1)) eqn:Hin.
    + apply bool_decide_eq_true in Hin. rewrite bool_decide_eq_true_2; [done|by right].
    + apply bool_decide_eq_false in Hin. rewrite bool_decide_eq_false_2; [done|].
      intros [?|?]%elem_of_cons; congruence.
Qed.

Lemma dict_set_new {V} k (v : V) d : k ∉ d.*1 -> dict_set k v d = d ++ [(k, v)].
Proof.
  induction d as [|[k' v'] d IH]; simpl; [done|].
  intros [Hne Hnin]%not_elem_of_cons.
  destruct (String.eqb k' k) eqn:E; [apply String.eqb_eq in E; congruence|].
  by rewrite IH.
Qed.

Lemma dict_set_NoDup {V} k (v : V) d : NoDup d.*1 -> NoDup (dict_set k v d).*1.
Proof.
  intros Hnd. rewrite dict_set_keys. destruct (bool_decide (k ∈ d.*1)) eqn:Hin; [done|].
  apply bool_decide_eq_false in Hin. apply NoDup_app. split_and!; [done| |apply NoDup_singleton].
  intros x Hx ->%list_elem_of_singleton. done.
Qed.

(** The pending authorizations are collected under distinct domain
    names. *)
Lemma collect_keys order auths rs auths' rs' evs :
  collect order auths rs = (Ok (auths', rs'), evs) ->
  NoDup rs.*1 -> NoDup rs'.*1.
Proof.
  revert auths rs evs. induction order as [|a order IH]; intros auths rs evs; simpl.
  { by intros [= <- <- <-]. }
  destruct (auth_status a).
  - destruct (collect order auths _) as [r0 e0] eqn:Hc. intros [= -> <-] Hnd.
    eapply IH; [done|]. by apply dict_set_NoDup.
  - destruct (collect order _ rs) as [r0 e0] eqn:Hc. intros [= -> <-] Hnd.
    by eapply IH.
  - done.
  - done.
Qed.

(** Setting up the challenges changes no file but the challenge
    files it records. *)
Lemma setup_files resources dir responses st resp' st' evs :
  setup resources dir responses st = (Ok resp', st', evs) ->
  NoDup resources.*1 ->
  (forall k, k ∈ responses.*1 -> k ∉ resources.*1) ->
  (forall p, p ∈ responses.*2 -> p ∈ resp'.*2)
  /\ (forall p, p ∉ resp'.*2 -> files (world st') !! p = files (world st) !! p).
Proof.
  revert responses st resp' st' evs.
  induction resources as [|[d a] rest IH]; intros responses st resp' st' evs; simpl.
  { by intros [= <- <- <-]. }
  destruct (dir (identifier a)) as [p0|]; [|done].
  destruct (negb (Str.truthy p0)); [done|].
  destruct (_get_challenge a "http-01") as [c|]; [|done].
  destruct (write_challenge d _ _ responses st) as [[[rw resp1] st1] evs1] eqn:Hw.
  destruct rw as [[]|e].
  2:{ by destruct (remove_all _ _) as [[[]|?] ?]. }
  destruct (setup rest dir resp1 st1) as [[r2 st2] evs2] eqn:Hrest.
  intros [= -> <- <-] [Hd Hnd]%NoDup_cons Hdisj.
  assert (Hnew : d ∉ responses.*1).
  { intros Hin. apply (Hdisj d Hin). left. }
  unfold write_challenge in Hw.
  destruct (makedirs_exist_ok _ _ (world st)) as [[[]|e] w1] eqn:Hmk; [|done].
  destruct (write_file _ _ w1) as [[[]|e] w2] eqn:Hwr; [|done].
  destruct (hooks_add _ _ _ _) as [[ra sta] evsa] eqn:Ha.
  injection Hw as -> <- <- <-.
  apply hooks_add_spec in Ha as (_ & Hworld & _). simpl in Hworld.
  apply write_file_ok in Hwr.
  pose proof (makedirs_exist_ok_files (dirname (join p0 (token c))) 493 (world st)) as Hmkf.
  rewrite Hmk in Hmkf. simpl in Hmkf.
  rewrite dict_set_new in Hrest by done.
  destruct (IH _ _ _ _ _ Hrest Hnd) as [Hsub Hframe].
  { intros k. rewrite fmap_app. intros [Hk| ->%list_elem_of_singleton]%elem_of_app.
    - intros Hin. apply (Hdisj k Hk). by right.
    - done. }
  split.
  - intros p Hp. apply Hsub. rewrite fmap_app. apply elem_of_app. by left.
  - intros p Hp. rewrite (Hframe p Hp), Hworld, Hwr, Hmkf.
    apply lookup_insert_ne. intros <-. apply Hp, Hsub.
    rewrite fmap_app. apply elem_of_app. right. left.
Qed.

(** The last loop removes every challenge file and changes no other
    file. *)
Lemma clear_files responses st st' evs :
  clear responses st = (Ok (), st', evs) ->
  (forall p, p ∈ responses.*2 -> files (world st') !! p = None)
  /\ (forall p, p ∉ responses.*2 -> files (world st') !! p = files (world st) !! p).
Proof.
  revert st st' evs. induction responses as [|[d f] rest IH]; intros st st' evs; simpl.
  { intros [= <- <-]. split; [by intros p ?%elem_of_nil|done]. }
  destruct (remove f (world st)) as [[[]|e] w] eqn:Hrm; [|done].
  destruct (hooks_add _ _ _ _) as [[[[]|e] st1] evs1] eqn:Ha; [|done].
  destruct (clear rest st1) as [[r2 st2] evs2] eqn:Hrest.
  intros [= -> <- <-].
  apply hooks_add_spec in Ha as (_ & Hworld & _). simpl in Hworld.
  apply remove_ok in Hrm.
  destruct (IH _ _ _ Hrest) as [Hgone Hframe].
  split.
  - intros p Hp. destruct (decide (p ∈ rest.*2)) as [Hin|Hnin]; [by apply Hgone|].
    apply elem_of_cons in Hp as [->|?]; [|done].
    rewrite (Hframe f Hnin), Hworld, Hrm. apply lookup_delete_eq.
  - intros p [Hne Hnin]%not_elem_of_cons.
    rewrite (Hframe p Hnin), Hworld, Hrm. by apply lookup_delete_ne.
Qed.

(** X11. When [handle_authorizations] returns, no challenge file is left:
    every file on disk was there before the call, with the same
    content. *)
Theorem no_challenge_file_is_left fuel order dir retry delay st auths st' evs :
  handle_authorizations fuel order dir retry delay st = Some (Ok auths, st', evs) ->
  files (world st') ⊆ files (world st).
Proof.
  unfold handle_authorizations.
  destruct (collect order [] []) as [[[valid rs]|e0] evs0] eqn:Hc; [|done].
  destruct rs as [|r0 rs]; [by intros [= <- <- <-]|].
  apply collect_keys in Hc; [|constructor].
  destruct (setup _ dir [] st) as [[[resp|e1] st1] evs1] eqn:Hs; [|done].
  destruct (hooks_call st1) as [st2 evs2] eqn:Hcall.
  apply hooks_call_spec in Hcall as (_ & _ & Hw2).
  destruct (_get_authorizations fuel _ retry delay st2) as [[[[polled|e3] st3] evs3]|] eqn:Hg;
    [| |done].
  2:{ by destruct (remove_all _ _) as [[[]|?] ?]. }
  apply get_authorizations_quiet in Hg as (_ & _ & Hw3).
  destruct (clear resp st3) as [[[[]|e4] st4] evs4] eqn:Hcl; [|done].
  destruct (hooks_call st4) as [st5 evs5] eqn:Hcall5.
  apply hooks_call_spec in Hcall5 as (_ & _ & Hw5).
  intros [= <- <- <-].
  destruct (setup_files _ _ _ _ _ _ _ Hs Hc) as [_ Hframe].
  { by intros k ?%elem_of_nil. }
  destruct (clear_files _ _ _ _ Hcl) as [Hgone Hkeep].
  apply map_subseteq_spec. intros p v. rewrite Hw5.
  destruct (decide (p ∈ resp.*2)) as [Hin|Hnin].
  - by rewrite (Hgone p Hin).
  - by rewrite (Hkeep p Hnin), Hw3, Hw2, (Hframe p Hnin).
Qed.

Lemma no_challenge_file_is_left_witness :
  files (world (default (Ok [], state0 valid_server, [])
                  (handle_authorizations 10 [authz0] challenge_dir 3 10
                     (state0 valid_server))).1.2)
  ⊆ files (world (state0 valid_server)).
Proof.
  apply (no_challenge_file_is_left 10 [authz0] challenge_dir 3 10 (state0 valid_server)
           [mkAuthz "example.com" STATUS_VALID [challenge0]] _
           (default (Ok [], state0 valid_server, [])
              (handle_authorizations 10 [authz0] challenge_dir 3 10
                 (state0 valid_server))).2).
  by vm_compute.
Defined.

(** *** The poll loop: what the retry bound does not cover *)

(** A server that answers every poll, and never with status 200. *)
Definition never_200 (sv : Server) : Prop :=
  forall n a, exists a' resp,
    poll sv n a = Ok (a', resp) /\ status_code resp <> 200.

Lemma poll_step_not_200 retry delay l st :
  never_200 (server st) -> waiting l <> [] ->
  exists l' st' evs,
    poll_step retry delay l st = (Next l', st', evs)
    /\ waiting l' <> []
    /\ attempts l' = attempts l
    /\ poll (server st') = poll (server st).
Proof.
  intros Hsv Hw. unfold poll_step.
  destruct (waiting l) as [|[[when d] a] rest]; [done|].
  set (slept := if (now st <? when) && (0 <? (when - now st) `mod` 86400)
                then (with_now st (now st + (when - now st) `mod` 86400),
                      [Sleep ((when - now st) `mod` 86400);
                       Log DEBUG "Polling for %s" [d]])
                else (st, [])).
  assert (Hsl : server slept.1 = server st) by (unfold slept; by destruct (_ && _)).
  destruct slept as [st1 evs1]. simpl in Hsl. rewrite Hsl.
  destruct (Hsv (polled (server st)) a) as (a' & resp & -> & Hcode).
  apply Z.eqb_neq in Hcode. rewrite Hcode. cbn [negb].
  eexists _, _, _. split; [done|]. simpl. split_and!; [|done..].
  by destruct rest.
Qed.

Lemma poll_loop_not_200 fuel retry delay l st :
  never_200 (server st) -> waiting l <> [] ->
  poll_loop fuel retry delay l st = None.
Proof.
  revert l st. induction fuel as [|fuel IH]; intros l st Hsv Hw; simpl.
  { by destruct (waiting l). }
  destruct (poll_step_not_200 retry delay l st Hsv Hw) as (l' & st' & evs & -> & Hw' & _ & Hp).
  destruct (waiting l) as [|t0 ts]; [done|].
  rewrite IH; [done| |done].
  intros n x. rewrite Hp. apply Hsv.
Qed.

(** X12. Polls answered with another status than 200 are not counted as
    attempts: against a server that only gives such answers the loop
    is still running after any number of iterations, whatever the
    retry bound. *)
Theorem other_status_is_never_counted fuel rs retry delay st :
  never_200 (server st) ->
  rs <> [] ->
  (answer_all rs (server st)).1 = Ok () ->
  _get_authorizations fuel rs retry delay st = None.
Proof.
  intros Hsv Hrs Hans. unfold _get_authorizations.
  destruct (answer_all rs (server st)) as [r evs]. simpl in Hans. subst r.
  rewrite poll_loop_not_200; [done..|]. simpl. by destruct rs.
Qed.

Definition busy_server : Server :=
  mkServer (fun _ => Ok ()) (fun _ a => Ok (a, mkResponse 503 None)) 0.

Lemma other_status_is_never_counted_witness :
  _get_authorizations 1000 [("example.com", authz0)] 3 10 (state0 busy_server) = None.
Proof.
  apply (other_status_is_never_counted 1000 [("example.com", authz0)] 3 10
           (state0 busy_server)).
  - intros n a. by exists a, (mkResponse 503 None).
  - done.
  - reflexivity.
Defined.

(** *** The poll loop: sleeping *)

Lemma poll_step_sleeps retry delay l st res st' evs s :
  poll_step retry delay l st = (res, st', evs) ->
  Sleep s ∈ evs -> 0 < s < 86400.
Proof.
  unfold poll_step. destruct (waiting l) as [|[[when d] a] rest].
  { intros [= <- <- <-]. by intros ?%elem_of_nil. }
  set (seconds := (when - now st) `mod` 86400).
  set (slept := if (now st <? when) && (0 <? seconds)
                then (with_now st (now st + seconds),
                      [Sleep seconds; Log DEBUG "Polling for %s" [d]])
                else (st, [])).
  assert (Hsl : Sleep s ∈ slept.2 -> 0 < s < 86400).
  { unfold slept. destruct (_ && _) eqn:E; simpl; [|by intros ?%elem_of_nil].
    apply andb_true_iff in E as [_ Hpos%Z.ltb_lt].
    intros [[= ->]|Hin]%elem_of_cons.
    - split; [done|]. by apply Z.mod_pos_bound.
    - apply elem_of_cons in Hin as [[=]|?%elem_of_nil]. done. }
  destruct slept as [st1 evs1]. simpl in Hsl.
  assert (Hall : forall tail, Forall (fun e => forall s, e <> Sleep s) tail ->
                              Sleep s ∈ evs1 ++ tail -> 0 < s < 86400).
  { intros tail Htail [Hin|Hin]%elem_of_app; [by apply Hsl|].
    rewrite Forall_forall in Htail. by destruct (Htail _ Hin s). }
  destruct (poll (server st1) _ a) as [[a' resp]|e].
  2:{ intros [= <- <- <-]. apply Hall. by repeat constructor. }
  destruct (negb _).
  { intros [= <- <- <-]. rewrite <- app_assoc. apply Hall. by repeat constructor. }
  destruct (auth_status a').
  - destruct (_ <? _); intros [= <- <- <-]; rewrite <- app_assoc; apply Hall;
      by repeat constructor.
  - intros [= <- <- <-]. rewrite <- app_assoc. apply Hall. by repeat constructor.
  - destruct (_get_challenge a' "http-01"); intros [= <- <- <-]; apply Hall;
      by repeat constructor.
  - intros [= <- <- <-]. apply Hall. by repeat constructor.
Qed.

Lemma poll_loop_sleeps fuel retry delay l st r st' evs s :
  poll_loop fuel retry delay l st = Some (r, st', evs) ->
  Sleep s ∈ evs -> 0 < s < 86400.
Proof.
  revert l st r st' evs. induction fuel as [|fuel IH]; intros l st r st' evs; simpl.
  { destruct (waiting l); [|done]. intros [= <- <- <-]. by intros ?%elem_of_nil. }
  destruct (waiting l); [intros [= <- <- <-]; by intros ?%elem_of_nil|].
  destruct (poll_step retry delay l st) as [[[l1|r1] st1] evs1] eqn:Hstep.
  - destruct (poll_loop fuel retry delay l1 st1) as [[[r2 st2] evs2]|] eqn:Hrest;
      [|done].
    intros [= <- <- <-] [Hin|Hin]%elem_of_app.
    + by eapply poll_step_sleeps.
    + by eapply IH.
  - intros [= <- <- <-]. by eapply poll_step_sleeps.
Qed.

Lemma answer_all_no_sleep rs sv r evs s :
  answer_all rs sv = (r, evs) -> Sleep s ∉ evs.
Proof.
  revert r evs. induction rs as [|[d a] rs IH]; intros r evs; simpl.
  { intros [= <- <-]. by intros ?%elem_of_nil. }
  destruct (match _get_challenge a "http-01" with Some c => _ | None => _ end).
  - destruct (answer_all rs sv) as [r2 evs2] eqn:Hrest. intros [= <- <-].
    intros [[=]|Hin]%elem_of_cons. apply elem_of_cons in Hin as [[=]|Hin].
    by eapply IH.
  - intros [= <- <-]. intros [[=]|Hin]%elem_of_cons.
    apply elem_of_cons in Hin as [[=]|Hin]. by apply elem_of_nil in Hin.
Qed.

(** X13. Between two polls the loop sleeps for the seconds part of the
    time left only: every sleep is longer than zero and shorter than a
    day, however far away the next poll was scheduled. *)
Theorem sleeps_less_than_a_day fuel rs retry delay st r st' evs s :
  _get_authorizations fuel rs retry delay st = Some (r, st', evs) ->
  Sleep s ∈ evs ->
  0 < s < 86400.
Proof.
  unfold _get_authorizations.
  destruct (answer_all rs (server st)) as [[[]|e] evs1] eqn:Ha.
  2:{ intros [= <- <- <-] Hin. by apply (answer_all_no_sleep _ _ _ _ s Ha) in Hin. }
  destruct (poll_loop _ _ _ _ _) as [[[r2 st2] evs2]|] eqn:Hl; [|done].
  intros [= <- <- <-] [Hin|Hin]%elem_of_app.
  - by apply (answer_all_no_sleep _ _ _ _ s Ha) in Hin.
  - by eapply poll_loop_sleeps.
Qed.

(** A server that asks to come back in two days and one minute, then
    declares the authorization valid. *)
Definition slow_server : Server :=
  mkServer (fun _ => Ok ())
           (fun n a => match n with
                       | O => Ok (a, mkResponse 200 (Some 172860))
                       | _ => Ok (mkAuthz (identifier a) STATUS_VALID (challenges a),
                                  mkResponse 200 None)
                       end) 0.

Lemma sleeps_less_than_a_day_witness :
  let evs := (default (Ok [], state0 slow_server, [])
                (_get_authorizations 5 [("example.com", authz0)] 3 10
                   (state0 slow_server))).2 in
  Sleep 60 ∈ evs /\ 0 < 60 < 86400.
Proof.
  intros evs.
  assert (Hin : Sleep 60 ∈ evs) by (apply (bool_decide_unpack _); by vm_compute).
  split; [done|].
  apply (sleeps_less_than_a_day 5 [("example.com", authz0)] 3 10 (state0 slow_server)
           (Ok [mkAuthz "example.com" STATUS_VALID [challenge0]])
           (default (Ok [], state0 slow_server, [])
              (_get_authorizations 5 [("example.com", authz0)] 3 10
                 (state0 slow_server))).1.2
           evs 60); [by vm_compute|done].
Defined.

Example two_days_become_one_minute :
  exists st' evs,
    _get_authorizations 5 [("example.com", authz0)] 3 10 (state0 slow_server)
    = Some (Ok [mkAuthz "example.com" STATUS_VALID [challenge0]], st', evs)
    /\ timeline evs = [Some 60]
    /\ now st' = 60.
Proof. eexists _, _. split_and!; [by vm_compute|by vm_compute..]. Qed.

(** *** The poll loop: a server that validates at once *)

Definition always_valid (sv : Server) : Prop :=
  forall n a, exists a' header,
    poll sv n a = Ok (a', mkResponse 200 header) /\ auth_status a' = STATUS_VALID.

Lemma poll_loop_valid retry delay :
  forall ws cnt auths st (fuel : nat),
    always_valid (server st) ->
    Forall (fun t : AuthorizationTuple => t.1.1 <= now st) ws ->
    (length ws <= fuel)%nat ->
    exists new st' evs,
      poll_loop fuel retry delay (mkLoop ws cnt auths) st
      = Some (Ok (auths ++ new), st', evs)
      /\ polls evs = (fun t : AuthorizationTuple => t.1.2) <$> ws
      /\ length new = length ws
      /\ Forall (fun a => auth_status a = STATUS_VALID) new
      /\ (forall s, Sleep s ∉ evs).
Proof.
  intros ws. induction ws as [|[[when d] a] rest IH]; intros cnt auths st fuel Hsv Hdue Hfuel.
  { exists [], st, []. destruct fuel; simpl; rewrite app_nil_r;
      split_and!; try done; by intros s ?%elem_of_nil. }
  destruct fuel as [|fuel]; [simpl in Hfuel; lia|].
  apply Forall_cons in Hdue as [Hwhen Hdue]. simpl in Hwhen.
  cbn [poll_loop waiting]. unfold poll_step. cbn [waiting attempts authorizations].
  assert ((now st <? when) = false) as -> by (apply Z.ltb_ge; lia).
  cbn [andb].
  destruct (Hsv (polled (server st)) a) as (a' & header & -> & Hvalid).
  cbn [status_code]. cbn [Z.eqb Pos.eqb negb]. rewrite Hvalid.
  set (st1 := with_server st _).
  destruct (IH (attempts_set a' (attempts_get a' cnt + 1) cnt) (auths ++ [a']) st1 fuel)
    as (new & st' & evs & -> & Hpolls & Hlen & Hall & Hsleep).
  - done.
  - done.
  - simpl in Hfuel. lia.
  - exists (a' :: new), st'. eexists. split_and!.
    + by rewrite <- app_assoc.
    + simpl. by rewrite Hpolls.
    + simpl. by rewrite Hlen.
    + by constructor.
    + intros s [Hin|Hin]%elem_of_app; [|by apply (Hsleep s)].
      simpl in Hin. apply elem_of_cons in Hin as [[=]|Hin].
      apply elem_of_cons in Hin as [[=]|Hin]. by apply elem_of_nil in Hin.
Qed.

Lemma answer_all_polls rs sv r evs : answer_all rs sv = (r, evs) -> polls evs = [].
Proof.
  revert r evs. induction rs as [|[d a] rs IH]; intros r evs; simpl.
  { by intros [= <- <-]. }
  destruct (match _get_challenge a "http-01" with Some c => _ | None => _ end).
  - destruct (answer_all rs sv) as [r2 evs2] eqn:Hrest. intros [= <- <-].
    simpl. by eapply IH.
  - by intros [= <- <-].
Qed.

(** X14. Against a server that declares every authorization valid at its
    first poll, [_get_authorizations] polls each domain once, in the
    order of the authorizations, never sleeps, and returns one valid
    authorization for each domain. *)
Theorem valid_at_first_poll fuel rs retry delay st :
  always_valid (server st) ->
  (answer_all rs (server st)).1 = Ok () ->
  (length rs <= fuel)%nat ->
  exists auths st' evs,
    _get_authorizations fuel rs retry delay st = Some (Ok auths, st', evs)
    /\ polls evs = rs.*1
    /\ length auths = length rs
    /\ Forall (fun a => auth_status a = STATUS_VALID) auths
    /\ (forall s, Sleep s ∉ evs).
Proof.
  intros Hsv Hans Hfuel. unfold _get_authorizations.
  destruct (answer_all rs (server st)) as [r evs1] eqn:Ha. simpl in Hans. subst r.
  destruct (poll_loop_valid retry delay
              (map (fun '(d, a) => (now st, d, a)) rs) [] [] st fuel)
    as (new & st' & evs & -> & Hpolls & Hlen & Hall & Hsleep).
  - done.
  - apply Forall_forall. intros t [[d a] [-> _]]%list_elem_of_fmap. simpl. lia.
  - by rewrite length_map.
  - exists new, st', (evs1 ++ evs). split_and!.
    + done.
    + rewrite polls_app, (answer_all_polls _ _ _ _ Ha). cbn [app].
      etrans; [exact Hpolls|].
      clear. induction rs as [|[d a] rs IH]; [done|].
      cbn [map]. rewrite !fmap_cons. cbn [fst snd]. by f_equal.
    + by rewrite Hlen, length_map.
    + done.
    + intros s [Hin|Hin]%elem_of_app; [|by apply (Hsleep s)].
      by apply (answer_all_no_sleep _ _ _ _ s Ha) in Hin.
Qed.

Lemma valid_at_first_poll_witness :
  exists auths st' evs,
    _get_authorizations 1 [("example.com", authz0)] 3 10 (state0 valid_server)
    = Some (Ok auths, st', evs)
    /\ polls evs = [("example.com", authz0)].*1
    /\ length auths = length [("example.com", authz0)]
    /\ Forall (fun a => auth_status a = STATUS_VALID) auths
    /\ (forall s, Sleep s ∉ evs).
Proof.
  apply (valid_at_first_poll 1 [("example.com", authz0)] 3 10 (state0 valid_server)).
  - intros n a. by exists (mkAuthz (identifier a) STATUS_VALID (challenges a)), None.
  - reflexivity.
  - simpl. lia.
Defined.

(** *** [handle_authorizations]: hooks first, then the server *)

(** The domains whose challenge was answered, in order. *)
Fixpoint answered (evs : list event) : list string :=
  match evs with
  | [] => []
  | Answer d :: r => d :: answered r
  | _ :: r => answered r
  end.

Lemma answered_app a b : answered (a ++ b) = answered a ++ answered b.
Proof. induction a as [|[] a IH]; simpl; by rewrite ?IH. Qed.

Lemma logs_unanswered evs : forallb is_log evs = true -> answered evs = [].
Proof. induction evs as [|[] evs IH]; simpl; try done. Qed.

Lemma call_queue_local q sh sh' evs :
  call_queue q sh = (sh', evs) -> answered evs = [] /\ polls evs = [].
Proof.
  revert sh sh' evs. induction q as [|[n hs] q IH]; intros sh sh' evs; simpl.
  { by intros [= <- <-]. }
  destruct (call_hooks n hs sh) as [sh1 e1] eqn:Hh.
  destruct (call_queue q sh1) as [sh2 e2] eqn:Hq. intros [= <- <-].
  destruct (IH _ _ _ Hq) as [Ha Hp]. rewrite answered_app, polls_app, Ha, Hp, !app_nil_r.
  clear -Hh. revert sh sh1 e1 Hh. induction hs as [|h hs IH]; intros sh sh1 e1; simpl.
  { by intros [= <- <-]. }
  destruct (call_one n h sh) as [sh0 e0] eqn:H1.
  destruct (call_hooks n hs sh0) as [sh3 e3] eqn:H3. intros [= <- <-].
  destruct (IH _ _ _ H3) as [Ha Hp]. rewrite answered_app, polls_app, Ha, Hp, !app_nil_r.
  unfold call_one in H1.
  destruct (run sh (ran sh) h) as [out|[]]; by injection H1 as <- <-.
Qed.

Lemma setup_logs resources dir responses st r st' evs :
  setup resources dir responses st = (r, st', evs) -> forallb is_log evs = true.
Proof.
  revert responses st r st' evs.
  induction resources as [|[d a] rest IH]; intros responses st r st' evs; simpl.
  { by intros [= <- <- <-]. }
  destruct (dir (identifier a)) as [p|]; [|by intros [= <- <- <-]].
  destruct (negb (Str.truthy p)); [by intros [= <- <- <-]|].
  destruct (_get_challenge a "http-01") as [c|]; [|by intros [= <- <- <-]].
  destruct (write_challenge d _ _ responses st) as [[[rw resp] st1] evs1] eqn:Hw.
  assert (Hw1 : forallb is_log evs1 = true).
  { unfold write_challenge in Hw.
    destruct (makedirs_exist_ok _ _ _) as [[[]|e] w1];
      [|by injection Hw as <- <- <- <-].
    destruct (write_file _ _ w1) as [[[]|e] w2];
      [|by injection Hw as <- <- <- <-].
    destruct (hooks_add _ _ _ _) as [[ra sta] evsa] eqn:Ha.
    injection Hw as <- <- <- <-. unfold hooks_add in Ha.
    destruct (add _ _ _) as [[r0 h] evs0] eqn:Hadd. injection Ha as <- <- <-.
    by eapply add_logs. }
  destruct rw as [[]|e].
  - destruct (setup rest dir resp st1) as [[r2 st2] evs2] eqn:Hrest.
    intros [= <- <- <-]. apply IH in Hrest.
    cbn [app forallb is_log]. by rewrite forallb_app, Hw1, Hrest.
  - destruct (remove_all _ _) as [[[]|e'] w1]; intros [= <- <- <-];
      cbn [app forallb is_log]; done.
Qed.

Lemma clear_names responses st r st' evs :
  clear responses st = (r, st', evs) ->
  forall n, n ∈ (_hooks (hooks st')).*1 ->
            n ∈ (_hooks (hooks st)).*1 \/ n = "clear_http_challenge".
Proof.
  revert st r st' evs. induction responses as [|[d f] rest IH]; intros st r st' evs; simpl.
  { intros [= <- <- <-]. auto. }
  destruct (remove f (world st)) as [[[]|e] w]; [|intros [= <- <- <-]; auto].
  destruct (hooks_add _ _ _ _) as [[[[]|e] st1] evs1] eqn:Ha;
    apply hooks_add_spec in Ha as (_ & _ & Hn).
  - destruct (clear rest st1) as [[r2 st2] evs2] eqn:Hrest. intros [= <- <- <-] n Hin.
    destruct (IH _ _ _ _ Hrest n Hin) as [Hin'|]; auto.
  - intros [= <- <- <-]. auto.
Qed.

(** X15. A run of [handle_authorizations] falls into two parts.  In the
    first one no challenge is answered and the server is not polled;
    in the second one no hook runs but [clear_http_challenge].  So
    every [set_http_challenge] hook, and every hook that was queued
    before the call, has run before the server hears of a
    challenge. *)
Theorem hooks_run_before_the_server_is_told fuel order dir retry delay st r st' evs :
  handle_authorizations fuel order dir retry delay st = Some (r, st', evs) ->
  exists before after,
    evs = before ++ after
    /\ answered before = [] /\ polls before = []
    /\ Forall (fun e => e.1 = "clear_http_challenge") (execs after).
Proof.
  unfold handle_authorizations.
  destruct (collect order [] []) as [[[auths rs]|e0] evs0] eqn:Hc;
    apply collect_logs in Hc.
  2:{ intros [= <- <- <-]. exists evs0, []. rewrite app_nil_r.
      pose proof (logs_silent _ Hc) as (_ & _ & _ & _ & _ & _ & Hp & _).
      by rewrite (logs_unanswered _ Hc). }
  pose proof (logs_silent _ Hc) as (_ & _ & _ & _ & _ & _ & Hp0 & _).
  pose proof (logs_unanswered _ Hc) as Ha0.
  destruct rs as [|r0 rs].
  { intros [= <- <- <-]. exists evs0, []. by rewrite app_nil_r. }
  destruct (setup _ dir [] st) as [[[resp|e1] st1] evs1] eqn:Hs;
    apply setup_logs in Hs;
    pose proof (logs_silent _ Hs) as (_ & _ & _ & _ & _ & _ & Hp1 & _);
    pose proof (logs_unanswered _ Hs) as Ha1.
  2:{ intros [= <- <- <-]. exists (evs0 ++ evs1), []. rewrite app_nil_r.
      by rewrite answered_app, polls_app, Ha0, Ha1, Hp0, Hp1. }
  destruct (hooks_call st1) as [st2 evs2] eqn:Hcall.
  assert (Hlocal : answered evs2 = [] /\ polls evs2 = [] /\ _hooks (hooks st2) = []).
  { pose proof (hooks_call_spec _ _ _ Hcall) as (_ & Hq & _).
    unfold hooks_call, call in Hcall.
    destruct (call_queue _ _) as [sh evs'] eqn:Hq'. injection Hcall as <- <-.
    destruct (call_queue_local _ _ _ _ Hq'). done. }
  destruct Hlocal as (Ha2 & Hp2 & Hq2).
  assert (Hbefore : answered (evs0 ++ evs1 ++ evs2) = []
                    /\ polls (evs0 ++ evs1 ++ evs2) = []).
  { by rewrite !answered_app, !polls_app, Ha0, Ha1, Ha2, Hp0, Hp1, Hp2. }
  destruct Hbefore as [Ha Hp].
  destruct (_get_authorizations fuel _ retry delay st2) as [[[[polled|e3] st3] evs3]|] eqn:Hg;
    [| |done]; apply get_authorizations_quiet in Hg as (He3 & Hh3 & _).
  - destruct (clear resp st3) as [[[[]|e4] st4] evs4] eqn:Hcl;
      pose proof (clear_quiet _ _ _ _ _ Hcl) as He4;
      pose proof (clear_names _ _ _ _ _ Hcl) as Hn4.
    + destruct (hooks_call st4) as [st5 evs5] eqn:Hcall5.
      apply hooks_call_spec in Hcall5 as (He5 & _ & _).
      intros [= <- <- <-]. exists (evs0 ++ evs1 ++ evs2), (evs3 ++ evs4 ++ evs5).
      split_and!; [by rewrite <- !app_assoc|done..|].
      rewrite !execs_app, He3, He4, He5. cbn [app].
      apply Forall_forall. intros [n a] Hin. simpl.
      apply flatten_names in Hin. destruct (Hn4 n Hin) as [Hold|]; [|done].
      rewrite Hh3, Hq2 in Hold. by apply elem_of_nil in Hold.
    + intros [= <- <- <-]. exists (evs0 ++ evs1 ++ evs2), (evs3 ++ evs4).
      split_and!; [by rewrite <- !app_assoc|done..|].
      by rewrite !execs_app, He3, He4.
  - destruct (remove_all _ _) as [[[]|e'] w]; intros [= <- <- <-];
      exists (evs0 ++ evs1 ++ evs2), evs3;
      (split_and!; [by rewrite <- !app_assoc|done..|]); by rewrite He3.
Qed.

Lemma hooks_run_before_the_server_is_told_witness :
  exists before after,
    (default (Ok [], state0 valid_server, [])
       (handle_authorizations 10 [authz0] challenge_dir 3 10 (state0 valid_server))).2
    = before ++ after
    /\ answered before = [] /\ polls before = []
    /\ Forall (fun e => e.1 = "clear_http_challenge") (execs after).
Proof.
  apply (hooks_run_before_the_server_is_told 10 [authz0] challenge_dir 3 10
           (state0 valid_server)
           (default (Ok [], state0 valid_server, [])
              (handle_authorizations 10 [authz0] challenge_dir 3 10
                 (state0 valid_server))).1.1
           (default (Ok [], state0 valid_server, [])
              (handle_authorizations 10 [authz0] challenge_dir 3 10
                 (state0 valid_server))).1.2).
  by vm_compute.
Defined.

Lemma failure_runs_no_clear_hook_witness :
  let run := default (Ok [], state0 invalid_server, [])
               (handle_authorizations 10 [authz0] challenge_dir 3 10
                  (state0 invalid_server)) in
  execs run.2 = [set_hook]
  /\ forall argv, ("clear_http_challenge", argv) ∉ execs run.2.
Proof.
  intros run. split; [by vm_compute|].
  apply (failure_runs_no_clear_hook 10 [authz0] challenge_dir 3 10
           (state0 invalid_server)
           (AcmeError "Authorization failed for domain {}: {}"
                      ["example.com"; "Unknown error"])
           run.1.2 run.2).
  - by intros ?%elem_of_nil.
  - by vm_compute.
Defined.

End ChallengeFacts.

(** ** The ACME client and the disk *)

Module ClientFacts.
Import Posix Utils Acme Events PosixFacts UtilsFacts AcmeFacts CommitFacts.

(** *** [connect_client] and the disk *)

(** X17. An [AcmeError] out of [connect_client] means that the service
    could not be reached or refused the registration, and that nothing
    on disk was touched: the key and the registration are written
    only once both calls went through. *)
Theorem acme_error_leaves_disk_untouched env rd acct url pass ad w msg args w' evs :
  connect_client env rd acct url pass ad w = (Raise (AcmeError msg args), w', evs) ->
  w' = w
  /\ (msg = "Can't connect to ACME service" \/ msg = "Can't register with ACME service").
Proof.
  unfold connect_client.
  destruct (load_registration env rd url) as [o evs0].
  destruct (directory env) as [tos|e].
  2:{ repeat case_match; intros ?; simplify_eq; auto. }
  assert (Hcommit : forall ops r l w1 evs1,
            commit_file_transactions ops ad w = (r, l, w1, evs1) ->
            r <> Raise (AcmeError msg args)).
  { intros ops r l w1 evs1 Hc ->. pose proof (commit_os ops ad w) as Hos.
    rewrite Hc in Hos. by specialize (Hos _ eq_refl). }
  repeat case_match; intros ?; simplify_eq; auto;
    exfalso;
    match goal with
    | H : commit_file_transactions _ ad w = _ |- _ => by apply Hcommit in H
    end.
Qed.

Definition env_down : Env :=
  mkEnv None None None None (mkKey "new key" false) (fun _ => None)
        (fun k _ => material k) (Raise (PyException "connection refused"))
        false ""
        (fun email agreed => Ok (mkRegistration "https://acme-v2.example.com/reg/7" email))
        uri.

Lemma acme_error_leaves_disk_untouched_witness :
  (connect_client env_down "/etc/acme" "admin@example.com"
                  "https://acme-v2.example.com/directory" None None w_empty).1.2
  = w_empty
  /\ ("Can't connect to ACME service" = "Can't connect to ACME service"
      \/ "Can't connect to ACME service" = "Can't register with ACME service").
Proof.
  apply (acme_error_leaves_disk_untouched env_down "/etc/acme" "admin@example.com"
           "https://acme-v2.example.com/directory" None None w_empty
           "Can't connect to ACME service" [] _
           (connect_client env_down "/etc/acme" "admin@example.com"
              "https://acme-v2.example.com/directory" None None w_empty).2).
  reflexivity.
Defined.

(** X18. When the stored registration is kept, the client key loads and is
    stored the way the configuration asks (encrypted exactly when a
    passphrase is set), [connect_client] returns the stored key and
    registration and does nothing else: no account is created, nobody
    is asked anything and the disk is not touched. *)
Theorem kept_registration_changes_nothing env rd acct url pass ad w reg k tos :
  (load_registration env rd url).1 = Some reg ->
  stored_key env = Some k ->
  encrypted k = Str.truthy_opt pass ->
  directory env = Ok tos ->
  exists evs,
    connect_client env rd acct url pass ad w = (Ok (mkClient k (Some reg) tos), w, evs)
    /\ forallb is_log evs = true.
Proof.
  intros Hload Hkey Henc Hdir. unfold connect_client.
  destruct (load_registration env rd url) as [o evs0] eqn:Hl.
  apply load_registration_spec in Hl as [Hlogs0 _].
  simpl in Hload. subst o. rewrite Hkey, Hdir, Henc.
  destruct (Str.truthy_opt pass); cbn [negb andb commit_file_transactions];
    eexists; (split; [reflexivity|]);
    rewrite !forallb_app, Hlogs0; done.
Qed.

Definition env_settled : Env :=
  mkEnv (Some (mkRegistration "https://acme-v2.example.com/reg/42" "old"))
        (Some (mkKey "old key" false)) None None
        (mkKey "new key" false) (fun _ => None)
        (fun k _ => material k)
        (Ok (Some "https://example.com/terms"))
        false ""
        (fun email agreed => Ok (mkRegistration "https://acme-v2.example.com/reg/7" email))
        uri.

Lemma kept_registration_changes_nothing_witness :
  exists evs,
    connect_client env_settled "/etc/acme" "admin@example.com"
                   "https://acme-v2.example.com/directory" None None w_empty
    = (Ok (mkClient (mkKey "old key" false)
                    (Some (mkRegistration "https://acme-v2.example.com/reg/42" "old"))
                    (Some "https://example.com/terms")), w_empty, evs)
    /\ forallb is_log evs = true.
Proof.
  apply (kept_registration_changes_nothing env_settled "/etc/acme" "admin@example.com"
           "https://acme-v2.example.com/directory" None None w_empty).
  - reflexivity.
  - reflexivity.
  - reflexivity.
  - reflexivity.
Defined.





(** *** A new account *)

(** What [connect_client] writes for a new account: the new key, under
    the cipher of the passphrase if there is one, and the registration
    the server returned. *)
Definition new_key_bytes (env : Env) (pass : option string) : string :=
  encode env (created_key env)
    (if_cipher match pass with
               | Some p => if Str.truthy p then get_key_cipher env p else None
               | None => None
               end).

Definition registration_ops (env : Env) (rd : string) (pass : option string)
           (reg : Registration) : list Operation :=
  [set_content (ArchiveAndWriteOperation "resource" (join rd "client.key") 384 None)
               (Some (new_key_bytes env pass));
   set_content (ArchiveAndWriteOperation "resource" (join rd "registration.json") 384 None)
               (Some (json_dumps env reg))].

(** X26. When no registration is kept and [connect_client] returns, the
    client works with a newly created key and with the account that
    [new_account] returned for the configured e-mail address, the one
    request made to the server; and both are on disk: [client.key]
    holds the encoded key and [registration.json] that registration,
    provided the two writes and their backups touch distinct paths and
    neither write finds a directory at its target. *)
Theorem new_account_is_stored env rd acct url pass ad w c w' evs :
  (load_registration env rd url).1 = None ->
  connect_client env rd acct url pass ad w = (Ok c, w', evs) ->
  exists reg agreed,
    new_account env acct agreed = Ok reg
    /\ accounts evs = [(acct, agreed)]
    /\ directory env = Ok (terms_of_service c)
    /\ agreed = bool_decide (is_Some (terms_of_service c))
    /\ account c = Some reg
    /\ client_key c = created_key env
    /\ (distinct_paths (registration_ops env rd pass reg) ad w ->
        regular_targets (registration_ops env rd pass reg) ad w = true ->
        (Str.truthy (new_key_bytes env pass) = true ->
         files w' !! join rd "client.key" = Some (new_key_bytes env pass))
        /\ (Str.truthy (json_dumps env reg) = true ->
            files w' !! join rd "registration.json" = Some (json_dumps env reg))).
Proof.
  intros Hload Hrun.
  pose proof (connect_unregistered _ _ _ _ _ _ _ _ _ _ Hload Hrun) as Hun.
  revert Hrun. unfold connect_client.
  destruct (load_registration env rd url) as [o evs0]. simpl in Hload. subst o.
  destruct (directory env) as [tos|e]; [|done].
  destruct (register env acct tos _) as [[[reg op]|e] evs3] eqn:Hreg; [|done].
  destruct Hun as (Hacc & _).
  apply register_agreed in Hreg as (Hnew & Haccounts & ->).
  set (agreed := bool_decide (is_Some tos)) in *.
  cbn [app].
  assert (Hops : forall cipher,
            cipher = match pass with
                     | Some p => if Str.truthy p then get_key_cipher env p else None
                     | None => None
                     end ->
            [set_content (ArchiveAndWriteOperation "resource" (join rd "client.key") 384 None)
                         (Some (encode env (created_key env) (if_cipher cipher)));
             set_content (ArchiveAndWriteOperation "resource" (join rd "registration.json")
                            384 None)
                         (Some (json_dumps env reg))]
            = registration_ops env rd pass reg)
    by (by intros ? ->).
  rewrite Hops by (by destruct pass).
  destruct (commit_file_transactions (registration_ops env rd pass reg) ad w)
    as [[[rc opsc] wc] evsc] eqn:Hc.
  destruct rc as [[]|e]; [|done]. intros [= <- <- <-].
  exists reg, agreed. rewrite Hacc, Haccounts.
  split_and!; [done..|]. intros Hdistinct Hregular.
  assert (Hfresh : Forall fresh (registration_ops env rd pass reg))
    by (by repeat constructor).
  split; intros Htr.
  - apply (commit_written (registration_ops env rd pass reg) ad w opsc wc evsc
             (set_content (ArchiveAndWriteOperation "resource" (join rd "client.key")
                             384 None)
                (Some (new_key_bytes env pass))) _ Hfresh Hdistinct Hregular Hc);
      [left|reflexivity|exact Htr].
  - apply (commit_written (registration_ops env rd pass reg) ad w opsc wc evsc
             (set_content (ArchiveAndWriteOperation "resource" (join rd "registration.json")
                             384 None)
                (Some (json_dumps env reg))) _ Hfresh Hdistinct Hregular Hc);
      [right; left|reflexivity|exact Htr].
Qed.

Lemma new_account_is_stored_witness :
  let run := connect_client env0 "/etc/acme" "admin@example.com"
               "https://acme-v2.example.com/directory" None None w_empty in
  is_ok run.1.1 = true
  /\ new_account env0 "admin@example.com" true
     = Ok (mkRegistration "https://acme-v2.example.com/reg/7" "admin@example.com")
  /\ files run.1.2 !! "/etc/acme/client.key" = Some "new key"
  /\ files run.1.2 !! "/etc/acme/registration.json"
     = Some "https://acme-v2.example.com/reg/7".
Proof.
  intros run.
  destruct (new_account_is_stored env0 "/etc/acme" "admin@example.com"
              "https://acme-v2.example.com/directory" None None w_empty
              (mkClient (mkKey "new key" false)
                 (Some (mkRegistration "https://acme-v2.example.com/reg/7"
                                       "admin@example.com"))
                 (Some "https://example.com/terms"))
              run.1.2 run.2)
    as (reg & agreed & Hnew & _ & _ & Hagreed & Hacct & _ & Hstored);
    [reflexivity|by vm_compute|].
  injection Hacct as <-. cbn in Hagreed. subst agreed.
  destruct Hstored as [Hkey Hreg].
  { apply (bool_decide_unpack _). by vm_compute. }
  { by vm_compute. }
  split_and!; [reflexivity|exact Hnew|by apply Hkey|by apply Hreg].
Defined.

End ClientFacts.

(** ** Installed certificates *)

Module InstallFacts.
Import Verify Events VerifyFacts.

(** *** What a clean verification means *)

Lemma compare_chain_clean item d expected installed :
  length expected = length installed ->
  (existsb is_error (compare_chain item d expected installed) = false
   <-> expected = installed).
Proof.
  revert installed. induction expected as [|x e IH]; intros [|y i]; simpl; try done.
  intros [= Hlen]. destruct (decide (x = y)) as [->|Hne]; simpl.
  - rewrite (IH i Hlen). split; [by intros ->|by intros [= ->]].
  - split; [done|]. by intros [= ? ?].
Qed.

Lemma fetch_with_retries_clean item addr h max delay net r net' evs :
  fetch_with_retries item addr h max delay net = (r, net', evs) ->
  existsb is_error evs = false.
Proof.
  unfold fetch_with_retries, fetch_tls_info.
  destruct (tls net (fetched net) addr h) as [inst|e]; [|by intros [= <- <- <-]].
  destruct (has_oscp_must_staple _); [|by intros [= <- <- <-]].
  destruct (retry_staple _ delay addr h inst _) as [[r2 net2] evs2] eqn:Hrec.
  apply retry_staple_spec in Hrec as (k & _ & _ & _ & Hclean & _).
  by intros [= <- <- <-].
Qed.

(** The staple the server sent is acceptable for the certificate:
    it says [good] when there is one, and there is one when the
    certificate demands it. *)
Definition staple_accepted (item : CertificateItem) (staple : option Staple) : Prop :=
  match staple with
  | Some s => Str.lower (ocsp_status s) = "good"
  | None => has_oscp_must_staple (certificate item) = false
  end.

(** X20. For one address, the verifier logs no error exactly when the
    handshakes went through, the server presented the expected
    certificate followed by the expected chain, nothing more and
    nothing less, and the staple is acceptable. *)
Theorem clean_report_iff_installed item host_name port max_ocsp_verify_attempts
        ocsp_verify_retry_delay addr net :
  let evs := (verify_addr item host_name port max_ocsp_verify_attempts
                ocsp_verify_retry_delay addr net).2 in
  existsb is_error evs = false
  <-> exists staple,
        (fetch_with_retries item addr host_name max_ocsp_verify_attempts
           ocsp_verify_retry_delay net).1.1
        = Ok (certificate item :: chain item, staple)
        /\ staple_accepted item staple.
Proof.
  cbv zeta. unfold verify_addr. set (host_desc := host_name +:+ _).
  destruct (fetch_with_retries _ _ _ _ _ _) as [[r net1] evs1] eqn:Hf.
  pose proof (fetch_with_retries_clean _ _ _ _ _ _ _ _ _ Hf) as Hclean.
  destruct r as [[certs staple]|e]; cbn [fst snd].
  2:{ cbn [app existsb is_error]. rewrite existsb_app, Hclean. simpl.
      split; [done|]. by intros (s & [=] & _). }
  unfold report. destruct certs as [|c certs].
  { cbn [snd app existsb is_error]. rewrite existsb_app, Hclean. simpl.
    split; [done|]. by intros (s & [=] & _). }
  cbn [snd app existsb is_error]. rewrite existsb_app, Hclean. cbn [orb existsb].
  rewrite existsb_app.
  set (leaf := if decide (certificate item = c) then _ else _).
  set (mid := if negb _ then _ else _).
  set (tail := match staple with Some _ => _ | None => _ end).
  assert (Hleaf : is_error leaf = false <-> certificate item = c).
  { unfold leaf. by destruct (decide (certificate item = c)). }
  assert (Hmid : existsb is_error mid = false <-> chain item = certs).
  { unfold mid. destruct (length (chain item) =? length certs)%nat eqn:Hlen; simpl.
    - apply Nat.eqb_eq in Hlen. by apply compare_chain_clean.
    - apply Nat.eqb_neq in Hlen. split; [done|]. by intros <-. }
  assert (Htail : existsb is_error tail = false <-> staple_accepted item staple).
  { unfold tail, staple_accepted. destruct staple as [s|].
    - pose proof (String.eqb_spec "good" (Str.lower (ocsp_status s))) as Hspec.
      set (good := String.eqb _ _) in *.
      destruct Hspec as [Heq|Hne]; cbn [existsb is_error orb]; [done|].
      split; [done|]. intros Heq. by destruct Hne.
    - destruct (has_oscp_must_staple (certificate item)); simpl; done. }
  rewrite !orb_false_iff, Hleaf, Hmid, Htail. split.
  - intros (<- & <- & Hs). by exists staple.
  - intros (s & [= <- <- <-] & Hs). done.
Qed.

(** *** Certificates without Must-Staple *)

Lemma verify_addr_one_handshake item h port max delay addr net net' evs :
  has_oscp_must_staple (certificate item) = false ->
  verify_addr item h port max delay addr net = (net', evs) ->
  timeline evs = [None] /\ fetches evs = [(ip addr, h)].
Proof.
  intros Hms. unfold verify_addr, fetch_with_retries, fetch_tls_info.
  set (host_desc := h +:+ _). rewrite Hms.
  destruct (tls net (fetched net) addr h) as [[certs staple]|e].
  - destruct (report _ _ _ _) as [evs2|e] eqn:Hrep; intros [= <- <-]; [|done].
    pose proof (report_logs _ _ _ _ _ Hrep)
      as (_ & _ & _ & _ & _ & _ & _ & Hf2 & _ & Ht2)%logs_silent.
    cbn. by rewrite Hf2, Ht2.
  - by intros [= <- <-].
Qed.

Lemma verify_addrs_one_handshake item h port max delay addrs net net' evs :
  has_oscp_must_staple (certificate item) = false ->
  verify_addrs item h port max delay addrs net = (net', evs) ->
  timeline evs = replicate (length addrs) None
  /\ fetches evs = (fun a => (ip a, h)) <$> addrs.
Proof.
  intros Hms. revert net net' evs.
  induction addrs as [|a addrs IH]; intros net net' evs; simpl.
  - by intros [= <- <-].
  - destruct (verify_addr _ _ _ _ _ a net) as [net1 evs1] eqn:H1.
    destruct (verify_addrs _ _ _ _ _ addrs net1) as [net2 evs2] eqn:H2.
    intros [= <- <-].
    apply verify_addr_one_handshake in H1 as [Ht1 Hf1]; [|done].
    apply IH in H2 as [Ht2 Hf2].
    by rewrite timeline_app, fetches_app, Ht1, Hf1, Ht2, Hf2.
Qed.

(** X21. For a certificate without Must-Staple the verifier makes exactly
    one handshake with each address the name resolves to, in the order
    of the addresses, and never sleeps, whether the server staples or
    not and whatever the retry settings are; a connection that fails
    does not keep the remaining addresses from being tried. *)
Theorem one_handshake_per_address item host_name port max_ocsp_verify_attempts
        ocsp_verify_retry_delay net addrs :
  has_oscp_must_staple (certificate item) = false ->
  Str.startswith "*." host_name = false ->
  getaddrinfo net host_name port = Ok addrs ->
  let evs := (_verify_certificate_installation item host_name port
                max_ocsp_verify_attempts ocsp_verify_retry_delay net).2 in
  fetches evs = (fun a => (ip a, host_name)) <$> addrs
  /\ timeline evs = replicate (length addrs) None.
Proof.
  intros Hms Hwild Hres. unfold _verify_certificate_installation.
  rewrite Hwild, Hres.
  destruct (verify_addrs _ _ _ _ _ addrs net) as [net' evs'] eqn:Hv.
  apply verify_addrs_one_handshake in Hv as [Ht Hf]; [|done].
  simpl. by rewrite Ht, Hf.
Qed.

Definition plain_leaf : Certificate := mkCert "leaf" "example.com" false.
Definition plain_item : CertificateItem := mkItem "example.com" "rsa" plain_leaf [ca0].
Definition addr6 : Addr := mkAddr true "2001:db8::1".
Definition two_addresses : Net :=
  mkNet (fun _ _ => Ok [addr0; addr6])
        (fun n _ _ => match n with
                      | O => Raise (OSError "Connection refused")
                      | _ => Ok ([plain_leaf; ca0], None)
                      end) 0.

Lemma one_handshake_per_address_witness :
  let evs := (_verify_certificate_installation plain_item "example.com" 443 3 5
                two_addresses).2 in
  fetches evs = (fun a => (ip a, "example.com")) <$> [addr0; addr6]
  /\ timeline evs = replicate (length [addr0; addr6]) None.
Proof.
  apply (one_handshake_per_address plain_item "example.com" 443 3 5 two_addresses
           [addr0; addr6]).
  - reflexivity.
  - reflexivity.
  - reflexivity.
Defined.

Example unreachable_address_is_reported :
  let evs := (_verify_certificate_installation plain_item "example.com" 443 3 5
                two_addresses).2 in
  filter (fun e => bool_decide (is_error e = true)) evs
  = [Log ERROR "[%s:%s] VALIDATION ERROR: Unable to connect to %s: %s"
         ["example.com"; "RSA"; "example.com at 192.0.2.1:443"; "Connection refused"]].
Proof. by vm_compute. Qed.

End InstallFacts.

(** ** STARTTLS *)

Module StarttlsFacts.
Import Starttls.

(** The data sent, in order. *)
Fixpoint sends (t : list action) : list string :=
  match t with
  | [] => []
  | Send d :: r => d :: sends r
  | _ :: r => sends r
  end.

(** The command that asks for TLS, for each protocol the function
    knows. *)
Definition upgrade_command (ty : string) : option string :=
  if String.eqb "smtp" ty then Some ("starttls" +:+ crlf)
  else if String.eqb "pop3" ty then Some ("STLS" +:+ crlf)
  else if String.eqb "imap" ty then Some ("a001 STARTTLS" +:+ crlf)
  else if String.eqb "ftp" ty then Some ("AUTH TLS" +:+ crlf)
  else if String.eqb "xmpp" ty then Some xmpp_starttls
  else if String.eqb "sieve" ty then Some ("StartTls" +:+ crlf)
  else None.

Ltac run_socket :=
  unfold _send_starttls, encode_ascii, settimeout, sock_close, debug;
  unfold bind, sock_recv, sock_send, sock_shutdown, act, ret, fail;
  cbn [app].

(** X22. When [_send_starttls] returns, the protocol was one it knows, the
    last thing it sent was that protocol's command asking for TLS,
    the socket was neither shut down nor closed, and the timeout of 30
    seconds set at the start was removed at the end. *)
Theorem starttls_sent_on_return ty host_name s s' t :
  _send_starttls ty host_name s [] = (inl tt, s', t) ->
  exists cmd,
    upgrade_command (Str.lower ty) = Some cmd
    /\ last (sends t) = Some cmd
    /\ (Shutdown ∉ t) /\ (Close ∉ t)
    /\ head t = Some (SetTimeout (Some 30))
    /\ last t = Some (SetTimeout None).
Proof.
  unfold upgrade_command. run_socket.
  destruct (String.eqb "smtp" (Str.lower ty));
    [|destruct (String.eqb "pop3" (Str.lower ty));
      [|destruct (String.eqb "imap" (Str.lower ty));
        [|destruct (String.eqb "ftp" (Str.lower ty));
          [|destruct (String.eqb "xmpp" (Str.lower ty));
            [|destruct (String.eqb "sieve" (Str.lower ty))]]]]];
    repeat case_match; simplify_eq; intros [= <- <-];
    eexists; (split; [reflexivity|]);
    (split_and!; [reflexivity|by apply (bool_decide_unpack _)|by apply (bool_decide_unpack _)|reflexivity|reflexivity]).
Qed.

(** A mail server that offers STARTTLS, and one that does not. *)
Definition smtp_server (offer : bool) : Socket :=
  mkSocket (fun n => match n with
                     | O => Ok "220 mail.example.com ESMTP"
                     | S O => Ok (if offer then "250-SIZE 250 STARTTLS" else "250 SIZE")
                     | _ => Ok "220 Ready to start TLS"
                     end)
           (fun _ _ => Ok ()) (Ok ()) 0 0.

Lemma starttls_sent_on_return_witness :
  exists cmd,
    upgrade_command (Str.lower "SMTP") = Some cmd
    /\ last (sends (_send_starttls "SMTP" "mail.example.com" (smtp_server true) []).2)
       = Some cmd
    /\ (Shutdown ∉ (_send_starttls "SMTP" "mail.example.com" (smtp_server true) []).2)
    /\ (Close ∉ (_send_starttls "SMTP" "mail.example.com" (smtp_server true) []).2)
    /\ head (_send_starttls "SMTP" "mail.example.com" (smtp_server true) []).2
       = Some (SetTimeout (Some 30))
    /\ last (_send_starttls "SMTP" "mail.example.com" (smtp_server true) []).2
       = Some (SetTimeout None).
Proof.
  apply (starttls_sent_on_return "SMTP" "mail.example.com" (smtp_server true)
           (_send_starttls "SMTP" "mail.example.com" (smtp_server true) []).1.2).
  by vm_compute.
Defined.

Definition known_types : list string :=
  ["smtp"; "pop3"; "imap"; "ftp"; "xmpp"; "sieve"].

(** X23. A protocol name that is none of the six known ones, whatever its
    case, is refused before anything is sent or received: the socket
    is shut down and closed, and the error names the type in lower
    case. *)
Theorem unknown_type_closes_the_socket ty host_name s :
  Str.lower ty ∉ known_types ->
  shutdown s = Ok () ->
  _send_starttls ty host_name s []
  = (inr (Unsupported (Str.lower ty)), s, [SetTimeout (Some 30); Shutdown; Close]).
Proof.
  intros Hty Hsd. run_socket.
  assert (Hne : forall k, k ∈ known_types -> String.eqb k (Str.lower ty) = false).
  { intros k Hk. apply String.eqb_neq. by intros ->. }
  rewrite !Hne by (unfold known_types; repeat (rewrite elem_of_cons); tauto).
  by rewrite Hsd.
Qed.

Lemma unknown_type_closes_the_socket_witness :
  _send_starttls "LDAP" "ldap.example.com" (smtp_server true) []
  = (inr (Unsupported (Str.lower "LDAP")), smtp_server true,
     [SetTimeout (Some 30); Shutdown; Close]).
Proof.
  apply (unknown_type_closes_the_socket "LDAP" "ldap.example.com" (smtp_server true)).
  - apply (bool_decide_unpack _). by vm_compute.
  - reflexivity.
Defined.

(** X24. A mail server whose answer to EHLO does not mention STARTTLS is
    given up: the socket is shut down and closed, the function raises
    its [AcmeError], and the STARTTLS command is never sent. *)
Theorem smtp_without_starttls ty host_name s greeting reply :
  Str.lower ty = "smtp" ->
  recv s (received s) = Ok greeting ->
  send s (sent s) ("ehlo acmebot.org" +:+ crlf) = Ok () ->
  recv s (S (received s)) = Ok reply ->
  contains "STARTTLS" reply = false ->
  shutdown s = Ok () ->
  exists s',
    _send_starttls ty host_name s []
    = (inr NotSupported, s',
       [SetTimeout (Some 30); Recv; Debug "SMTP: %s" [greeting];
        Send ("ehlo acmebot.org" +:+ crlf); Recv; Debug "SMTP: %s" [reply];
        Shutdown; Close]).
Proof.
  intros Hty Hgreet Hsend Hreply Hno Hsd. run_socket.
  rewrite Hty. cbn [String.eqb Ascii.eqb Bool.eqb andb].
  rewrite Hgreet. cbn [send sent recv received shutdown app].
  rewrite Hsend. cbn [send sent recv received shutdown app].
  rewrite Hreply, Hno. cbn [negb send sent recv received shutdown app].
  rewrite Hsd. by eexists.
Qed.

Lemma smtp_without_starttls_witness :
  exists s',
    _send_starttls "smtp" "mail.example.com" (smtp_server false) []
    = (inr NotSupported, s',
       [SetTimeout (Some 30); Recv; Debug "SMTP: %s" ["220 mail.example.com ESMTP"];
        Send ("ehlo acmebot.org" +:+ crlf); Recv; Debug "SMTP: %s" ["250 SIZE"];
        Shutdown; Close]).
Proof.
  apply (smtp_without_starttls "smtp" "mail.example.com" (smtp_server false)
           "220 mail.example.com ESMTP" "250 SIZE"); reflexivity.
Defined.

(** X25. A ManageSieve server whose capabilities do not list STARTTLS makes
    the function fail on its call of [sock.shutdown()], which lacks
    the argument: the error is a [TypeError], not the [AcmeError] of
    the next lines, and the socket is neither shut down nor closed. *)
Theorem sieve_without_starttls ty host_name s capabilities :
  Str.lower ty = "sieve" ->
  recv s (received s) = Ok capabilities ->
  contains (quoted "STARTTLS") capabilities = false ->
  exists s',
    _send_starttls ty host_name s []
    = (inr TypeError, s',
       [SetTimeout (Some 30); Recv; Debug "SIEVE: %s" [capabilities]]).
Proof.
  intros Hty Hcaps Hno. run_socket.
  rewrite Hty. cbn [String.eqb Ascii.eqb Bool.eqb andb].
  rewrite Hcaps, Hno. by eexists.
Qed.

Definition sieve_server : Socket :=
  mkSocket (fun _ => Ok "IMPLEMENTATION Example OK") (fun _ _ => Ok ()) (Ok ()) 0 0.

Lemma sieve_without_starttls_witness :
  exists s',
    _send_starttls "sieve" "mail.example.com" sieve_server []
    = (inr TypeError, s',
       [SetTimeout (Some 30); Recv; Debug "SIEVE: %s" ["IMPLEMENTATION Example OK"]]).
Proof.
  apply (sieve_without_starttls "sieve" "mail.example.com" sieve_server
           "IMPLEMENTATION Example OK"); reflexivity.
Defined.

End StarttlsFacts.
